(** * A shallow embedding of the netlist simulator and parser

    The development follows [src/simulator.cpp] (memory mapper, expression
    evaluator, simulator construction and the per-cycle protocol) and the
    parser ([Parser::parse_program] and the functions it calls).  The lexer
    ([lexer.cpp]), the program builder ([program.cpp]) and the breakpoints
    of the bytecode simulator follow in modules of their own.

    Conventions.
    - [value_t] is an unsigned 64-bit integer: a [Z] kept in [0, 2^64), with
      the wrap-around of every operation written out ([wrap64]).
    - [std::unordered_map] objects that the code iterates over are
      association lists, iterated in list order; [emplace]/[try_emplace]
      insert only when the key is absent.  The environment [env], which is
      only read and written by key, is a [gmap].
    - A variable is a [std::shared_ptr<Variable>]; the parser allocates one
      object per declared name, so maps keyed by the pointer are keyed here by
      the variable's name.
    - [Report::exit] never returns: it is the [Exited] result; exceptions
      ([std::out_of_range] from [at]) and undefined behaviour (out-of-bounds
      [operator[]], oversized shifts) are the faults [OutOfRange] and
      [Undefined].

    Not among the sources, and taken as follows: the scheduler (its result,
    [dep_list], is an argument of the constructor), the input manager (the
    memory chunks and the inputs of each cycle are arguments), and the
    headers declaring the expression classes, [max_bus_size] and
    [Bus::max_value] (modelled from the specification where they are
    defined below). *)

From Stdlib Require Import Ascii.
From stdpp Require Import base numbers strings list gmap.

Local Open Scope Z_scope.

(** ** Machine integers *)

Definition value_t := Z.
Definition bus_size_t := Z.
Definition ident_t := string.

Definition wrap64 (z : Z) : Z := z mod 2 ^ 64.
Definition wrap32 (z : Z) : Z := z mod 2 ^ 32.

(** [~x] on a 64-bit unsigned value. *)
Definition not64 (x : value_t) : value_t := wrap64 (Z.lnot x).

(** ** Results of fallible code *)

Inductive ReportSeverity := WARNING | ERROR.

(** A report: its severity, its code when [with_code] was called, the format
    string passed to [with_message], and the name or spelling that is the
    message's first argument (empty when it has none).  Source positions are
    left out: they only decorate the diagnostics. *)
Record Report := mkReport {
  severity : ReportSeverity;
  code : option Z;
  message : string;
  subject : string
}.

Inductive fault :=
| OutOfRange          (* std::out_of_range thrown by a map's at() *)
| Undefined           (* undefined behaviour in C++ *)
| OutOfFuel           (* a loop of the model ran out of fuel *)
| Exited (r : Report). (* Report::exit, declared noreturn: the process ends *)

Inductive result (A : Type) :=
| Ok (a : A)
| Err (f : fault).
Arguments Ok {A} a.
Arguments Err {A} f.

#[global] Instance result_ret : MRet result := λ A a, Ok a.
#[global] Instance result_bind : MBind result := λ A B k r,
  match r with
  | Ok a => k a
  | Err f => Err f
  end.

Definition of_option {A} (o : option A) (f : fault) : result A :=
  match o with
  | Some a => Ok a
  | None => Err f
  end.

(** [x << n] and [x >> n] on 64-bit unsigned values; the shift count must be
    below 64, otherwise the behaviour is undefined. *)
Definition shl64 (x : value_t) (n : Z) : result value_t :=
  if decide (0 ≤ n < 64) then Ok (wrap64 (Z.shiftl x n)) else Err Undefined.

Definition shr64 (x : value_t) (n : Z) : result value_t :=
  if decide (0 ≤ n < 64) then Ok (Z.shiftr x n) else Err Undefined.

(** ** Association lists standing for the iterated maps *)

Section alist.
Context {V : Type}.

Fixpoint al_find (k : ident_t) (l : list (ident_t * V)) : option V :=
  match l with
  | [] => None
  | (k', v) :: l' => if decide (k' = k) then Some v else al_find k l'
  end.

Definition al_contains (k : ident_t) (l : list (ident_t * V)) : bool :=
  match al_find k l with Some _ => true | None => false end.

(** [emplace] and [try_emplace]: nothing happens when the key is present. *)
Definition al_emplace (k : ident_t) (v : V) (l : list (ident_t * V))
  : list (ident_t * V) :=
  if al_contains k l then l else l ++ [(k, v)].

(** [at]: throws [std::out_of_range] on a missing key. *)
Definition al_at (k : ident_t) (l : list (ident_t * V)) : result V :=
  of_option (al_find k l) OutOfRange.
End alist.

(** ** Program representation *)

Record Variable_ := mkVariable { var_bus_size : bus_size_t; var_name : ident_t }.
Record Constant := mkConstant { cst_bus_size : bus_size_t; cst_value : value_t }.

Inductive Argument :=
| ArgConstant (c : Constant)
| ArgVariable (v : Variable_).

Inductive BinOpKind := OR | XOR | AND | NAND.

Inductive Expression :=
| ArgExpression (a : Argument)
| RegExpression (v : Variable_)
| NotExpression (a : Argument)
| BinOpExpression (k : BinOpKind) (lhs rhs : Argument)
| MuxExpression (choice true_arg false_arg : Argument)
| RomExpression (addr_size word_size : bus_size_t) (read_addr : Argument)
| RamExpression (addr_size word_size : bus_size_t)
    (read_addr write_enable write_addr data : Argument)
| ConcatExpression (beginning_part last_part : Argument)
| SliceExpression (begin_index end_index : bus_size_t) (a : Argument)
| SelectExpression (index : bus_size_t) (a : Argument).

Definition Argument_get_bus_size (a : Argument) : bus_size_t :=
  match a with
  | ArgConstant c => cst_bus_size c
  | ArgVariable v => var_bus_size v
  end.

(** Modelled from the spec: the header declaring the [Expression] classes is
    not among the sources; the bus size each expression reports is the
    "Width of result" column of the expression table of the data model
    (computed in [bus_size_t], a 32-bit unsigned integer). *)
Definition Expression_get_bus_size (e : Expression) : bus_size_t :=
  match e with
  | ArgExpression a => Argument_get_bus_size a
  | RegExpression v => var_bus_size v
  | NotExpression a => Argument_get_bus_size a
  | BinOpExpression _ lhs _ => Argument_get_bus_size lhs
  | MuxExpression _ t _ => Argument_get_bus_size t
  | RomExpression _ ws _ => ws
  | RamExpression _ ws _ _ _ _ => ws
  | ConcatExpression a b => wrap32 (Argument_get_bus_size a + Argument_get_bus_size b)
  | SliceExpression s e _ => wrap32 (e - s + 1)
  | SelectExpression _ _ => 1
  end.

Record Program := mkProgram {
  m_input : list Variable_;
  m_output : list Variable_;
  m_vars : list Variable_;
  m_eq : list (ident_t * Expression)
}.

Definition get_inputs (p : Program) := m_input p.
Definition get_equations (p : Program) := m_eq p.

(** ** The memory mapper ([Simulator::MemoryMapper])

    One flat [memory] vector backs the registers and the ROM and RAM blocks;
    the mapper assigns each REG source one slot and each block a range.
    [current_index] is a [size_t]. *)

Record RamInfo := mkRamInfo {
  write_enable : Argument;
  write_addr : Argument;
  data : Argument;
  ram_block_index : Z;
  ram_block_size : Z
}.

Record RomInfo := mkRomInfo {
  rom_block_index : Z;
  rom_block_size : Z
}.

Record MemoryMapper := mkMemoryMapper {
  reg_info : list (ident_t * Z);
  ram_info : list (ident_t * RamInfo);
  rom_info : list (ident_t * RomInfo);
  current_index : Z
}.

(** [static_cast<size_t>(1) << expr.get_address_size()]; an address size of
    64 or more would be an oversized shift, which the model wraps to 0. *)
Definition block_size_of (addr_size : bus_size_t) : Z :=
  wrap64 (Z.shiftl 1 addr_size).

Definition MemoryMapper_visit (current_var : ident_t) (e : Expression)
    (mm : MemoryMapper) : MemoryMapper :=
  match e with
  | RegExpression v =>
      (* Can have multiple REG(o) in the program. *)
      if al_contains (var_name v) (reg_info mm) then mm
      else {| reg_info := al_emplace (var_name v) (current_index mm) (reg_info mm);
              ram_info := ram_info mm;
              rom_info := rom_info mm;
              current_index := wrap64 (current_index mm + 1) |}
  | RamExpression addr_size _ _ we wa wd =>
      let block_size := block_size_of addr_size in
      {| reg_info := reg_info mm;
         ram_info := al_emplace current_var
                       (mkRamInfo we wa wd (current_index mm) block_size)
                       (ram_info mm);
         rom_info := rom_info mm;
         current_index := wrap64 (current_index mm + block_size) |}
  | RomExpression addr_size _ _ =>
      let block_size := block_size_of addr_size in
      {| reg_info := reg_info mm;
         ram_info := ram_info mm;
         rom_info := al_emplace current_var
                       (mkRomInfo (current_index mm) block_size)
                       (rom_info mm);
         current_index := wrap64 (current_index mm + block_size) |}
  | _ => mm
  end.

Definition MemoryMapper_new (p : Program) : MemoryMapper :=
  foldl (λ mm '(var, eq), MemoryMapper_visit var eq mm)
        (mkMemoryMapper [] [] [] 0) (get_equations p).

(** ** The expression evaluator ([Simulator::ExpressionEvaluator]) *)

Abbreviation var_env := (gmap ident_t value_t).

(** [std::vector::operator[]]: no bounds check, so an index outside the
    vector is undefined behaviour. *)
Definition vec_get (mem : list value_t) (i : Z) : result value_t :=
  if decide (0 ≤ i) then of_option (mem !! Z.to_nat i) Undefined
  else Err Undefined.

Definition vec_set (mem : list value_t) (i : Z) (v : value_t)
    : result (list value_t) :=
  if decide (0 ≤ i < Z.of_nat (length mem))
  then Ok (<[Z.to_nat i := v]> mem) else Err Undefined.

Definition env_at (env : var_env) (v : Variable_) : result value_t :=
  of_option (env !! var_name v) OutOfRange.

(** [visit(arg)] for an argument: [visit_constant] or [visit_variable]. *)
Definition visit_argument (env : var_env) (a : Argument) : result value_t :=
  match a with
  | ArgConstant c => Ok (cst_value c)
  | ArgVariable v => env_at env v
  end.

Definition visit_binop (k : BinOpKind) (lhs_value current_value : value_t)
    : value_t :=
  match k with
  | OR => Z.lor lhs_value current_value
  | XOR => Z.lxor lhs_value current_value
  | AND => Z.land lhs_value current_value
  | NAND => not64 (Z.land lhs_value current_value)
  end.

Definition eval (env : var_env) (mem : list value_t) (mem_map : MemoryMapper)
    (var : Variable_) (expr : Expression) : result value_t :=
  match expr with
  | ArgExpression a => visit_argument env a
  | RegExpression v =>
      i ← al_at (var_name v) (reg_info mem_map);
      vec_get mem i
  | NotExpression a =>
      current_value ← visit_argument env a;
      Ok (not64 current_value)
  | BinOpExpression k lhs rhs =>
      lhs_value ← visit_argument env lhs;
      current_value ← visit_argument env rhs;
      Ok (visit_binop k lhs_value current_value)
  | MuxExpression choice t f =>
      current_value ← visit_argument env choice;
      if decide (current_value ≠ 0) then visit_argument env t
      else visit_argument env f
  | RomExpression _ _ read_addr =>
      current_value ← visit_argument env read_addr;
      info ← al_at (var_name var) (rom_info mem_map);
      vec_get mem (wrap64 (rom_block_index info + current_value))
  | RamExpression _ _ read_addr _ _ _ =>
      current_value ← visit_argument env read_addr;
      info ← al_at (var_name var) (ram_info mem_map);
      vec_get mem (wrap64 (ram_block_index info + current_value))
  | ConcatExpression beg last =>
      beg_value ← visit_argument env beg;
      current_value ← visit_argument env last;
      shifted ← shl64 current_value (Expression_get_bus_size expr);
      Ok (Z.lor shifted beg_value)
  | SliceExpression b e a =>
      current_value ← visit_argument env a;
      value_shifted ← shr64 current_value b;
      one_shifted ← shl64 1 (wrap32 (e - b + 1));
      let mask := wrap64 (one_shifted - 1) in
      Ok (Z.land value_shifted mask)
  | SelectExpression i a =>
      current_value ← visit_argument env a;
      shifted ← shr64 current_value i;
      Ok (Z.land shifted 1)
  end.

(** ** Diagnostics of the simulator ([report.hpp])

    [Report::print] writes the report and returns; [Report::exit] never
    returns.  A printed report is appended to the log. *)

Definition unused_chunk_warning (chunk_name : ident_t) : Report :=
  mkReport WARNING (Some 50)
    "The memory chunk {} given as input is unused." chunk_name.

Definition chunk_size_error (chunk_name : ident_t) : Report :=
  mkReport ERROR (Some 51)
    "Expected memory chunk size of {} for variable {}. Given chunk size is {}."
    chunk_name.

Definition rom_not_initialised (chunk_name : ident_t) : Report :=
  mkReport ERROR (Some 52)
    "The ROM memory chunk {} is not initialised." chunk_name.

Definition ram_not_initialised (chunk_name : ident_t) : Report :=
  mkReport WARNING (Some 52)
    "The RAM memory chunk {} is not initialised." chunk_name.

(** ** The simulator *)

Record Simulator := mkSimulator {
  prog : Program;
  dep_list : list Variable_;
  mem_map : MemoryMapper;
  memory : list value_t;
  env : var_env
}.

(** [env.emplace(k, v)]: an existing binding is kept. *)
Definition env_emplace (k : ident_t) (v : value_t) (env : var_env) : var_env :=
  match env !! k with
  | Some _ => env
  | None => <[k := v]> env
  end.

(** [std::unordered_set] of block names, iterated in list order. *)
Definition set_insert (k : ident_t) (s : list ident_t) : list ident_t :=
  if decide (k ∈ s) then s else s ++ [k].

Definition set_erase (k : ident_t) (s : list ident_t) : list ident_t :=
  filter (λ k', k' ≠ k) s.

(** [std::copy(chunk.begin(), chunk.end(), memory.begin() + block_index)];
    writing outside the vector is undefined behaviour. *)
Definition copy_into (mem : list value_t) (block_index : Z)
    (chunk : list value_t) : result (list value_t) :=
  if decide (0 ≤ block_index ∧
             block_index + Z.of_nat (length chunk) ≤ Z.of_nat (length mem))
  then Ok (take (Z.to_nat block_index) mem ++ chunk ++
           drop (Z.to_nat block_index + length chunk) mem)
  else Err Undefined.

(** State threaded through the constructor's loops: the log of printed
    reports, the memory and the set of blocks not yet filled. *)
Record init_state := mkInit {
  init_log : list Report;
  init_memory : list value_t;
  init_uninitialised : list ident_t
}.

(** One iteration of the loop over the memory blocks given as input.  The
    locals [block_size] and [block_index] are declared without an
    initialiser; [garbage] is the indeterminate pair they hold when neither
    branch assigns them. *)
Definition fill_block (mem_map : MemoryMapper) (garbage : Z * Z)
    (chunk_name : ident_t) (memory_chunks : list value_t) (st : init_state)
    : list Report * result init_state :=
  let '(block_size, block_index, log) :=
    match al_find chunk_name (ram_info mem_map) with
    | Some info => (ram_block_size info, ram_block_index info, init_log st)
    | None =>
        match al_find chunk_name (rom_info mem_map) with
        | Some info => (rom_block_size info, rom_block_index info, init_log st)
        | None =>
            (garbage.1, garbage.2,
             init_log st ++ [unused_chunk_warning chunk_name])
        end
    end in
  if decide (block_size ≠ Z.of_nat (length memory_chunks))
  then (log ++ [chunk_size_error chunk_name],
        Err (Exited (chunk_size_error chunk_name)))
  else
    match copy_into (init_memory st) block_index memory_chunks with
    | Ok mem' =>
        (log, Ok (mkInit log mem' (set_erase chunk_name (init_uninitialised st))))
    | Err f => (log, Err f)
    end.

Fixpoint fill_blocks (mem_map : MemoryMapper) (garbage : ident_t → Z * Z)
    (blocks : list (ident_t * list value_t)) (st : init_state)
    : list Report * result init_state :=
  match blocks with
  | [] => (init_log st, Ok st)
  | (chunk_name, memory_chunks) :: rest =>
      match fill_block mem_map (garbage chunk_name) chunk_name memory_chunks st with
      | (_, Ok st') => fill_blocks mem_map garbage rest st'
      | (log, Err f) => (log, Err f)
      end
  end.

(** The last loop of the constructor: every block still uninitialised is
    reported with [print]. *)
Definition report_uninitialised (mem_map : MemoryMapper) (chunk_name : ident_t)
    : Report :=
  if al_contains chunk_name (rom_info mem_map)
  then (* The ROM memory block of chunk_name is not initialised -> Error. *)
       rom_not_initialised chunk_name
  else (* It's a RAM block -> warning. *)
       ram_not_initialised chunk_name.

(** [Simulator::Simulator].  [dep_list] is the value returned by
    [Scheduler::schedule], whose code is not among the sources;
    [memory_blocks] is [in_manager.memory_blocks]; [garbage] gives, for each
    chunk name, what the uninitialised locals of the loop hold in the
    iteration for that chunk. *)
Definition Simulator_new (dep_list : list Variable_)
    (memory_blocks : list (ident_t * list value_t))
    (garbage : ident_t → Z * Z) (p : Program)
    : list Report * result Simulator :=
  let mem_map := MemoryMapper_new p in
  let memory := replicate (Z.to_nat (current_index mem_map)) 0 in
  (* Initialing env variables. (All result of equation are set to 0) *)
  let env := foldl (λ env '(var, _), env_emplace var 0 env)
                   (∅ : var_env) (get_equations p) in
  (* We list every memory block to fill. *)
  let uninitialised_blocks :=
    foldl (λ s '(chunk, _), set_insert chunk s)
      (foldl (λ s '(chunk, _), set_insert chunk s) [] (ram_info mem_map))
      (rom_info mem_map) in
  match fill_blocks mem_map garbage memory_blocks
          (mkInit [] memory uninitialised_blocks) with
  | (log, Err f) => (log, Err f)
  | (log, Ok st) =>
      (log ++ map (report_uninitialised mem_map) (init_uninitialised st),
       Ok (mkSimulator p dep_list mem_map (init_memory st) env))
  end.

(** [Simulator::eval_arg]; the [default] branch is unreachable, an argument
    being a constant or a variable. *)
Definition eval_arg (env : var_env) (arg : Argument) : result value_t :=
  match arg with
  | ArgConstant c => Ok (cst_value c)
  | ArgVariable v => env_at env v
  end.

(** The four loops of [Simulator::cycle]. *)

(* Set all Input value *)
Definition set_inputs (inputs : ident_t → value_t) (ins : list Variable_)
    (env : var_env) : var_env :=
  foldl (λ env in_var, env_emplace (var_name in_var) (inputs (var_name in_var)) env)
        env ins.

(* Iterate over equations *)
Fixpoint eval_equations (p : Program) (mem_map : MemoryMapper)
    (mem : list value_t) (deps : list Variable_) (env : var_env)
    : result var_env :=
  match deps with
  | [] => Ok env
  | var :: rest =>
      expr ← al_at (var_name var) (get_equations p);
      v ← eval env mem mem_map var expr;
      eval_equations p mem_map mem rest (<[var_name var := v]> env)
  end.

(* Save Registers to memory *)
Fixpoint save_registers (env : var_env) (regs : list (ident_t * Z))
    (mem : list value_t) : result (list value_t) :=
  match regs with
  | [] => Ok mem
  | (var, reg_offset) :: rest =>
      v ← of_option (env !! var) OutOfRange;
      mem' ← vec_set mem reg_offset v;
      save_registers env rest mem'
  end.

(* Perform RAM writes *)
Fixpoint ram_writes (env : var_env) (rams : list (ident_t * RamInfo))
    (mem : list value_t) : result (list value_t) :=
  match rams with
  | [] => Ok mem
  | (var, info) :: rest =>
      we ← eval_arg env (write_enable info);
      if decide (we ≠ 0) then
        d ← eval_arg env (data info);
        wa ← eval_arg env (write_addr info);
        let offset := wrap64 (ram_block_index info + wa) in
        mem' ← vec_set mem offset d;
        ram_writes env rest mem'
      else ram_writes env rest mem
  end.

Definition cycle (inputs : ident_t → value_t) (s : Simulator) : result Simulator :=
  let env1 := set_inputs inputs (get_inputs (prog s)) (env s) in
  env2 ← eval_equations (prog s) (mem_map s) (memory s) (dep_list s) env1;
  mem1 ← save_registers env2 (reg_info (mem_map s)) (memory s);
  mem2 ← ram_writes env2 (ram_info (mem_map s)) mem1;
  Ok (mkSimulator (prog s) (dep_list s) (mem_map s) mem2 env2).

(** [Simulator::simulate], with the inputs of each cycle. *)
Fixpoint simulate (inputs : list (ident_t → value_t)) (s : Simulator)
    : result Simulator :=
  match inputs with
  | [] => Ok s
  | i :: rest => s' ← cycle i s; simulate rest s'
  end.

(** The value of [var] in the environment after each cycle. *)
Fixpoint trace (var : ident_t) (inputs : list (ident_t → value_t))
    (s : Simulator) : list (option value_t) :=
  match inputs with
  | [] => []
  | i :: rest =>
      match cycle i s with
      | Ok s' => env s' !! var :: trace var rest s'
      | Err _ => []
      end
  end.

(** The driver's [Simulate] action ([main]): the simulator is constructed,
    then [cycle] is called once per requested cycle. *)
Definition run_simulation (dep_list : list Variable_)
    (memory_blocks : list (ident_t * list value_t))
    (garbage : ident_t → Z * Z) (p : Program)
    (inputs : list (ident_t → value_t)) : list Report * result Simulator :=
  match Simulator_new dep_list memory_blocks garbage p with
  | (log, Ok s) => (log, simulate inputs s)
  | (log, Err f) => (log, Err f)
  end.

(** ** The parser *)

Inductive TokenKind :=
| EOI | IDENTIFIER | INTEGER | BINARY_CONSTANT | DECIMAL_CONSTANT
| HEXADECIMAL_CONSTANT | EQUAL | COMMA | COLON
| KEY_INPUT | KEY_OUTPUT | KEY_VAR | KEY_IN
| KEY_NOT | KEY_AND | KEY_NAND | KEY_OR | KEY_XOR
| KEY_MUX | KEY_REG | KEY_CONCAT | KEY_SELECT | KEY_SLICE | KEY_ROM | KEY_RAM.

#[global] Instance TokenKind_eq_dec : EqDecision TokenKind.
Proof. solve_decision. Defined.

(** A token.  Its spelling is a [std::string_view] into the NUL-terminated
    source buffer; [after] is the byte of the buffer that follows the
    spelling, which [parse_int] reads through the pointer [std::from_chars]
    returns. *)
Record Token := mkToken {
  kind : TokenKind;
  spelling : string;
  after : ascii
}.

Definition NUL : ascii := Ascii.zero.
Definition eoi_token : Token := mkToken EOI "" NUL.

Record VariableDeclaration := mkDecl { decl_spelling : string; decl_size : bus_size_t }.

(** The parser's fields: the lexer's remaining output, whose head is
    [m_token], and the tables [var_decl] and [vars]. *)
Record Parser := mkParser {
  tokens : list Token;
  var_decl : list (ident_t * VariableDeclaration);
  vars : list (ident_t * Variable_)
}.

Definition m_token (st : Parser) : Token :=
  match tokens st with
  | [] => eoi_token   (* at the end of the input the lexer keeps returning EOI *)
  | t :: _ => t
  end.

Definition consume (st : Parser) : Parser :=
  mkParser (tail (tokens st)) (var_decl st) (vars st).

Definition parse_error (msg subj : string) : Report := mkReport ERROR None msg subj.

Definition exit {A} (r : Report) : result A := Err (Exited r).

(** Modelled from the spec: the constant [max_bus_size] is declared in a
    header that is not among the sources; the maximum bus width is 64. *)
Definition max_bus_size : bus_size_t := 64.

(** Modelled from the spec: [Bus::max_value] is declared in a header that is
    not among the sources; a value fits a width [w] when it is at most
    [2^w - 1]. *)
Definition Bus_max_value (size : bus_size_t) : value_t := 2 ^ size - 1.

(** *** [parse_int]: [std::from_chars] in the given base *)

Definition digit_of (c : ascii) : option Z :=
  let n := Z.of_N (N_of_ascii c) in
  if decide (48 ≤ n ≤ 57) then Some (n - 48)
  else if decide (97 ≤ n ≤ 122) then Some (n - 87)
  else if decide (65 ≤ n ≤ 90) then Some (n - 55)
  else None.

(** The longest prefix of digits of the base: its value, the number of
    digits and what is left. *)
Fixpoint from_chars (s : string) (base : Z) (acc : Z) (count : nat)
    : Z * nat * string :=
  match s with
  | EmptyString => (acc, count, s)
  | String c s' =>
      match digit_of c with
      | Some d =>
          if decide (d < base) then from_chars s' base (acc * base + d) (S count)
          else (acc, count, s)
      | None => (acc, count, s)
      end
  end.

(** [max] is [std::numeric_limits<T>::max()]. *)
Definition parse_int (max : Z) (token : Token) (base : Z) : result Z :=
  let '(v, count, rest) := from_chars (spelling token) base 0 0 in
  if decide (count = 0%nat)
  then exit (parse_error "Error parsing value '{}' in base {}" (spelling token))
  else if decide (max < v)
  then exit (parse_error
     "The value '{}' (interpreted in base {}) is too big to fit in a {}. Max value authorised : '{}'"
     (spelling token))
  else
    let ptr := match rest with String c _ => c | EmptyString => after token end in
    if decide (ptr ≠ NUL)
    then exit (parse_error
      "Error parsing value '{}' in base {}. Successfully parsed the value '{}' but unable to parse this part : '{}'"
      (spelling token))
    else Ok v.

Definition bus_size_max : Z := 2 ^ 32 - 1.
Definition value_max : Z := 2 ^ 64 - 1.

(** *** Assertions *)

Definition unexpected_token {A} (st : Parser) : result A :=
  exit (parse_error "Unexpected token. Found : '{}', expected : '{}'"
          (spelling (m_token st))).

Definition token_assert (st : Parser) (token : TokenKind) : result () :=
  if decide (kind (m_token st) ≠ token) then unexpected_token st else Ok ().

Definition token_assert_set (st : Parser) (token_set : list TokenKind) : result () :=
  if decide (kind (m_token st) ∈ token_set) then Ok () else unexpected_token st.

Definition assert_same_bus_size (arg1 arg2 : Argument) : result () :=
  if decide (Argument_get_bus_size arg1 ≠ Argument_get_bus_size arg2)
  then exit (parse_error
    "The two arguments '{}' (bus size : {}) and '{}' (bus size : {}) should have the same bus size." "")
  else Ok ().

Definition assert_bus_size_eq (arg : Argument) (size : bus_size_t) : result () :=
  if decide (Argument_get_bus_size arg ≠ size)
  then exit (parse_error
    "The argument '{}' (bus size : {}) should have a bus size of {}." "")
  else Ok ().

Definition assert_bus_size_gt (arg : Argument) (size : bus_size_t) : result () :=
  if decide (Argument_get_bus_size arg ≤ size)
  then exit (parse_error
    "The argument '{}' (bus size : {}) should have a bus size strictly greater than {}." "")
  else Ok ().

(** *** Sizes, constants, variables and arguments *)

Definition parse_bus_size (st : Parser) : result (bus_size_t * Parser) :=
  _ ← token_assert st INTEGER;
  bs ← parse_int bus_size_max (m_token st) 10; (* We parse in base 10 here. *)
  if decide (max_bus_size < bs)
  then exit (parse_error
    "Integer '{}' is too big to be a bus size. Max bus size authorised : '{}'"
    (spelling (m_token st)))
  else Ok (bs, consume st).

Definition parse_size_spec (st : Parser) : result (option bus_size_t * Parser) :=
  if decide (kind (m_token st) = COLON) then
    '(bs, st') ← parse_bus_size (consume st); (* eat ':' *)
    Ok (Some bs, st')
  else Ok (None, st).

Definition spelling_size (t : Token) : bus_size_t :=
  wrap32 (Z.of_nat (String.length (spelling t))).

Definition parse_binary_digits (st : Parser) : result (Constant * Parser) :=
  _ ← token_assert st INTEGER;
  val ← parse_int value_max (m_token st) 2; (* We parse in base 2 here. *)
  let st' := consume st in
  (* the size is read from m_token after consume() *)
  Ok (mkConstant (spelling_size (m_token st')) val, st').

Definition parse_binary_constant (st : Parser) : result (Constant * Parser) :=
  _ ← token_assert st BINARY_CONSTANT;
  let cst_tok := m_token st in
  val ← parse_int value_max (m_token st) 2;
  '(size, st') ← parse_size_spec (consume st);
  match size with
  | Some size =>
      if decide (Bus_max_value size < val)
      then exit (parse_error
        "The binary value '{}' (decimal : {}) is too large to fit in a bus size of {}. The maximum authorised value for the variable is : {}"
        (spelling cst_tok))
      else Ok (mkConstant size val, st')
  | None => Ok (mkConstant (spelling_size cst_tok) val, st')
  end.

Definition parse_decimal_constant (st : Parser) : result (Constant * Parser) :=
  _ ← token_assert st DECIMAL_CONSTANT;
  let cst_tok := m_token st in
  val ← parse_int value_max (m_token st) 10;
  '(size, st') ← parse_size_spec (consume st);
  match size with
  | None => exit (parse_error
      "The decimal constant '{}' should have a size specifier." (spelling cst_tok))
  | Some size =>
      if decide (Bus_max_value size < val)
      then exit (parse_error
        "The decimal value '{}' is too large to fit in a bus size of {}. The maximum authorised value for the variable is : {}"
        (spelling cst_tok))
      else Ok (mkConstant size val, st')
  end.

Definition parse_hexadecimal_constant (st : Parser) : result (Constant * Parser) :=
  _ ← token_assert st HEXADECIMAL_CONSTANT;
  let cst_tok := m_token st in
  val ← parse_int value_max (m_token st) 16;
  '(size, st') ← parse_size_spec (consume st);
  match size with
  | Some size =>
      if decide (Bus_max_value size < val)
      then exit (parse_error
        "The hexadecimal value '{}' (decimal : {}) is too large to fit in a bus size of {}. The maximum authorised value for the variable is : {}"
        (spelling cst_tok))
      else Ok (mkConstant size val, st')
  | None =>
      (* One hexadecimal digit <-> 4 bits *)
      Ok (mkConstant (wrap32 (spelling_size cst_tok * 4)) val, st')
  end.

Definition parse_variable (st : Parser) : result (Variable_ * Parser) :=
  _ ← token_assert st IDENTIFIER;
  match al_find (spelling (m_token st)) (vars st) with
  | None => exit (parse_error "Undefined variable {}." (spelling (m_token st)))
  | Some v => Ok (v, consume st)
  end.

Definition parse_constant_with
    (f : Parser → result (Constant * Parser)) (st : Parser)
    : result (Argument * Parser) :=
  '(c, st') ← f st; Ok (ArgConstant c, st').

Definition parse_argument (st : Parser) : result (Argument * Parser) :=
  match kind (m_token st) with
  | IDENTIFIER => '(v, st') ← parse_variable st; Ok (ArgVariable v, st')
  | INTEGER => parse_constant_with parse_binary_digits st
  | BINARY_CONSTANT => parse_constant_with parse_binary_constant st
  | DECIMAL_CONSTANT => parse_constant_with parse_decimal_constant st
  | HEXADECIMAL_CONSTANT => parse_constant_with parse_hexadecimal_constant st
  | _ => unexpected_token st
  end.

(** *** Expressions *)

Definition parse_binop (k : BinOpKind) (st : Parser)
    : result (Expression * Parser) :=
  '(lhs, st1) ← parse_argument (consume st);
  '(rhs, st2) ← parse_argument st1;
  _ ← assert_same_bus_size lhs rhs;
  Ok (BinOpExpression k lhs rhs, st2).

(** The [KEY_SLICE] case of [parse_expression] once its two indices and its
    argument are parsed. *)
Definition slice_expression (beg end_ : bus_size_t) (arg : Argument)
    : result Expression :=
  if decide (end_ ≤ beg)   (* beg >= end *)
  then exit (parse_error
    "The beginning of the interval ({}) must be less than the end of the interval ({})." "")
  else
    _ ← assert_bus_size_gt arg end_;
    Ok (SliceExpression beg end_ arg).

Definition parse_expression (st : Parser) : result (Expression * Parser) :=
  match kind (m_token st) with
  | IDENTIFIER =>
      '(v, st') ← parse_variable st; Ok (ArgExpression (ArgVariable v), st')
  | INTEGER =>
      '(c, st') ← parse_binary_digits st; Ok (ArgExpression (ArgConstant c), st')
  | BINARY_CONSTANT =>
      '(c, st') ← parse_binary_constant st; Ok (ArgExpression (ArgConstant c), st')
  | DECIMAL_CONSTANT =>
      '(c, st') ← parse_decimal_constant st; Ok (ArgExpression (ArgConstant c), st')
  | HEXADECIMAL_CONSTANT =>
      '(c, st') ← parse_hexadecimal_constant st;
      Ok (ArgExpression (ArgConstant c), st')
  | KEY_NOT =>
      '(a, st') ← parse_argument (consume st); Ok (NotExpression a, st')
  | KEY_AND => parse_binop AND st
  | KEY_NAND => parse_binop NAND st
  | KEY_OR => parse_binop OR st
  | KEY_XOR => parse_binop XOR st
  | KEY_MUX =>
      '(choice, st1) ← parse_argument (consume st);
      '(true_branch, st2) ← parse_argument st1;
      '(false_branch, st3) ← parse_argument st2;
      _ ← assert_bus_size_eq choice 1;
      _ ← assert_same_bus_size true_branch false_branch;
      Ok (MuxExpression choice true_branch false_branch, st3)
  | KEY_REG =>
      '(v, st') ← parse_variable (consume st); Ok (RegExpression v, st')
  | KEY_CONCAT =>
      '(arg_beg, st1) ← parse_argument (consume st);
      '(arg_end, st2) ← parse_argument st1;
      Ok (ConcatExpression arg_beg arg_end, st2)
  | KEY_SELECT =>
      '(index, st1) ← parse_bus_size (consume st);
      '(arg, st2) ← parse_argument st1;
      _ ← assert_bus_size_gt arg index;
      Ok (SelectExpression index arg, st2)
  | KEY_SLICE =>
      '(beg, st1) ← parse_bus_size (consume st);
      '(end_, st2) ← parse_bus_size st1;
      '(arg, st3) ← parse_argument st2;
      e ← slice_expression beg end_ arg;
      Ok (e, st3)
  | KEY_ROM =>
      '(addr_size, st1) ← parse_bus_size (consume st);
      '(word_size, st2) ← parse_bus_size st1;
      '(read_addr, st3) ← parse_argument st2;
      _ ← assert_bus_size_eq read_addr addr_size;
      Ok (RomExpression addr_size word_size read_addr, st3)
  | KEY_RAM =>
      '(addr_size, st1) ← parse_bus_size (consume st);
      '(word_size, st2) ← parse_bus_size st1;
      '(read_addr, st3) ← parse_argument st2;
      '(write_enable, st4) ← parse_argument st3;
      '(write_addr, st5) ← parse_argument st4;
      '(data, st6) ← parse_argument st5;
      _ ← assert_bus_size_eq read_addr addr_size;
      _ ← assert_bus_size_eq write_enable 1;
      _ ← assert_bus_size_eq write_addr addr_size;
      _ ← assert_bus_size_eq data word_size;
      Ok (RamExpression addr_size word_size read_addr write_enable write_addr data,
          st6)
  | EOI => exit (parse_error "Missing expression for assigment." "")
  | EQUAL | COMMA | COLON | KEY_OUTPUT | KEY_INPUT | KEY_VAR | KEY_IN =>
      unexpected_token st
  end.

(** *** The sections of a program

    Every loop consumes at least one token per iteration; the fuel is one
    more than the number of tokens left when the loop is entered. *)

(** The loop shared by [parse_inputs_references] ([stop = KEY_OUTPUT]) and
    [parse_outputs_references] ([stop = KEY_VAR]); [var] is the
    [var_ref_map] under construction, kept as the list of its keys. *)
Fixpoint references_loop (stop : TokenKind) (msg : string) (fuel : nat)
    (var : list ident_t) (st : Parser) : result (list ident_t * Parser) :=
  match fuel with
  | O => Err OutOfFuel
  | S fuel =>
      if decide (kind (m_token st) = stop) then Ok (var, st)
      else
        _ ← token_assert st IDENTIFIER;
        if decide (spelling (m_token st) ∈ var)
        then exit (parse_error msg (spelling (m_token st)))
        else
          let var := var ++ [spelling (m_token st)] in
          let st1 := consume st in (* eat 'IDENTIFIER' *)
          _ ← token_assert_set st1 [COMMA; stop];
          let st2 := if decide (kind (m_token st1) = COMMA)
                     then consume st1 (* eat 'COMMA' *) else st1 in
          references_loop stop msg fuel var st2
  end.

Definition parse_inputs_references (st : Parser) : result (list ident_t * Parser) :=
  _ ← token_assert st KEY_INPUT;
  let st := consume st in (* eat 'INPUT' *)
  references_loop KEY_OUTPUT
    "The variable '{}' has already been marked as input at {}."
    (S (length (tokens st))) [] st.

Definition parse_outputs_references (st : Parser) : result (list ident_t * Parser) :=
  _ ← token_assert st KEY_OUTPUT;
  let st := consume st in (* eat 'OUTPUT' *)
  references_loop KEY_VAR
    "The variable '{}' has already been marked as output at {}."
    (S (length (tokens st))) [] st.

Fixpoint variable_declaration_loop (fuel : nat) (st : Parser) : result Parser :=
  match fuel with
  | O => Err OutOfFuel
  | S fuel =>
      if decide (kind (m_token st) = KEY_IN) then Ok st
      else
        _ ← token_assert st IDENTIFIER;
        let v_spelling := spelling (m_token st) in
        let st1 := consume st in (* eat 'IDENTIFIER' *)
        '(v_size, st2) ←
          (if decide (kind (m_token st1) = COLON)
           then parse_bus_size (consume st1) (* eat ':' *)
           else Ok (1, st1));
        if al_contains v_spelling (var_decl st2)
        then exit (parse_error
               "The variable '{}' has already been declared at {}." v_spelling)
        else
          let st3 :=
            mkParser (tokens st2)
              (al_emplace v_spelling (mkDecl v_spelling v_size) (var_decl st2))
              (al_emplace v_spelling (mkVariable v_size v_spelling) (vars st2)) in
          _ ← token_assert_set st3 [COMMA; KEY_IN];
          if decide (kind (m_token st3) = COMMA) then
            let st4 := consume st3 in (* eat 'COMMA' *)
            _ ← token_assert st4 IDENTIFIER;
            variable_declaration_loop fuel st4
          else variable_declaration_loop fuel st3
  end.

Definition parse_variable_declaration (st : Parser) : result Parser :=
  _ ← token_assert st KEY_VAR;
  let st := consume st in (* eat 'VAR' *)
  variable_declaration_loop (S (length (tokens st))) st.

(** One loop of [build_intput_output_list]. *)
Fixpoint resolve_references (msg : string) (st : Parser) (refs : list ident_t)
    : result (list Variable_) :=
  match refs with
  | [] => Ok []
  | r :: rest =>
      match al_find r (vars st) with
      | None => exit (parse_error msg r)
      | Some v => vs ← resolve_references msg st rest; Ok (v :: vs)
      end
  end.

Definition build_intput_output_list (st : Parser) (p : Program)
    (in_refs out_refs : list ident_t) : result Program :=
  ins ← resolve_references
         "Missing declaration of input '{}' in the variable section." st in_refs;
  outs ← resolve_references
         "Missing declaration of output '{}' in the variable section." st out_refs;
  Ok (mkProgram (m_input p ++ ins) (m_output p ++ outs) (m_vars p) (m_eq p)).

(** One iteration of the loop of [parse_equations]: the equation at the
    current token is parsed and recorded with [try_emplace]. *)
Definition parse_equation (st : Parser) (p : Program) : result (Program * Parser) :=
  _ ← token_assert st IDENTIFIER;
  match al_find (spelling (m_token st)) (vars st) with
  | None => exit (parse_error "Assigment of undefined variable '{}'"
                    (spelling (m_token st)))
  | Some assigment_var =>
      let st1 := consume st in (* eat the variable *)
      _ ← token_assert st1 EQUAL;
      let st2 := consume st1 in (* eat '=' *)
      '(eq, st3) ← parse_expression st2;
      let p :=
        if decide (Expression_get_bus_size eq ≠ var_bus_size assigment_var)
        then (* Wrong bus size. *) p
        else p in
      Ok (mkProgram (m_input p) (m_output p) (m_vars p)
            (al_emplace (var_name assigment_var) eq (m_eq p)),
          st3)
  end.

Fixpoint equations_loop (fuel : nat) (st : Parser) (p : Program)
    : result (Program * Parser) :=
  match fuel with
  | O => Err OutOfFuel
  | S fuel =>
      if decide (kind (m_token st) = EOI) then Ok (p, st)
      else '(p', st') ← parse_equation st p; equations_loop fuel st' p'
  end.

Definition parse_equations (st : Parser) (p : Program) : result (Program * Parser) :=
  _ ← token_assert st KEY_IN;
  let st := consume st in (* eat 'IN' *)
  equations_loop (S (length (tokens st))) st p.

(** The last loop of [parse_program]: every declared variable is an input
    or has an equation. *)
Fixpoint check_declared (in_refs : list ident_t) (p : Program)
    (decls : list (ident_t * Variable_)) : result Program :=
  match decls with
  | [] => Ok p
  | (_, declared_var) :: rest =>
      if bool_decide (var_name declared_var ∈ in_refs)
         || al_contains (var_name declared_var) (m_eq p)
      then check_declared in_refs
             (mkProgram (m_input p) (m_output p) (m_vars p ++ [declared_var]) (m_eq p))
             rest
      else exit (parse_error
             "Declared variable '{}' does not have an associated equation."
             (var_name declared_var))
  end.

(** [Parser::parse_program] on the token stream the lexer produces. *)
Definition parse_program (toks : list Token) : result Program :=
  let st := mkParser toks [] [] in
  let p := mkProgram [] [] [] [] in
  '(in_refs, st) ← parse_inputs_references st;
  '(out_refs, st) ← parse_outputs_references st;
  st ← parse_variable_declaration st;
  p ← build_intput_output_list st p in_refs out_refs;
  (* Now we parse each equation *)
  '(p, st) ← parse_equations st p;
  check_declared in_refs p (vars st).

(** ** Well-formedness conditions used by the theorems *)

(** The slot or block a visit allocates fits below [2^64], for every
    equation in turn: the size of the memory vector does not overflow
    [size_t] while the mapper lays it out. *)
Definition visit_size (e : Expression) (mm : MemoryMapper) : Z :=
  match e with
  | RegExpression v => if al_contains (var_name v) (reg_info mm) then 0 else 1
  | RamExpression addr_size _ _ _ _ _ => block_size_of addr_size
  | RomExpression addr_size _ _ => block_size_of addr_size
  | _ => 0
  end.

Fixpoint layout_fits (eqs : list (ident_t * Expression)) (mm : MemoryMapper)
    : Prop :=
  match eqs with
  | [] => True
  | (var, e) :: rest =>
      current_index mm + visit_size e mm < 2 ^ 64 ∧
      layout_fits rest (MemoryMapper_visit var e mm)
  end.

Definition memory_fits (p : Program) : Prop :=
  layout_fits (get_equations p) (mkMemoryMapper [] [] [] 0).

(** The layout the mapper maintains: every REG slot and every block lies
    below [current_index], the slots are pairwise distinct and no slot lies
    inside a block. *)
Record layout_ok (mm : MemoryMapper) : Prop := mkLayoutOk {
  lo_index : 0 ≤ current_index mm < 2 ^ 64;
  lo_reg : ∀ u i, (u, i) ∈ reg_info mm → 0 ≤ i < current_index mm;
  lo_ram : ∀ k info, (k, info) ∈ ram_info mm →
    0 ≤ ram_block_index info ∧ 0 ≤ ram_block_size info ∧
    ram_block_index info + ram_block_size info ≤ current_index mm;
  lo_rom : ∀ k info, (k, info) ∈ rom_info mm →
    0 ≤ rom_block_index info ∧ 0 ≤ rom_block_size info ∧
    rom_block_index info + rom_block_size info ≤ current_index mm;
  lo_reg_nodup : NoDup (reg_info mm).*2;
  lo_reg_ram : ∀ u i k info, (u, i) ∈ reg_info mm → (k, info) ∈ ram_info mm →
    ¬ (ram_block_index info ≤ i < ram_block_index info + ram_block_size info);
  lo_reg_rom : ∀ u i k info, (u, i) ∈ reg_info mm → (k, info) ∈ rom_info mm →
    ¬ (rom_block_index info ≤ i < rom_block_index info + rom_block_size info)
}.

(** Every memory chunk supplied by the input manager names a RAM or a ROM
    block of the program. *)
Definition chunks_declared (mm : MemoryMapper)
    (memory_blocks : list (ident_t * list value_t)) : Prop :=
  ∀ chunk_name memory_chunks,
    (chunk_name, memory_chunks) ∈ memory_blocks →
    al_contains chunk_name (ram_info mm) = true ∨
    al_contains chunk_name (rom_info mm) = true.

(** The RAM writes decided by the environment [env] stay inside their
    blocks: an enabled write has an address below the block's size. *)
Definition ram_writes_in_range (env : var_env) (mm : MemoryMapper) : Prop :=
  ∀ var info we wa,
    (var, info) ∈ ram_info mm →
    eval_arg env (write_enable info) = Ok we → we ≠ 0 →
    eval_arg env (write_addr info) = Ok wa →
    0 ≤ wa < ram_block_size info.


(** The tokens left to the parser. *)
Definition remaining (st : Parser) : nat := length (tokens st).

(** A step that succeeds consumes tokens ([strict]: at least one) and fails
    otherwise by leaving the process, not for lack of fuel. *)
Definition consumes {A} (strict : bool) (st : Parser) (r : result (A * Parser))
    : Prop :=
  match r with
  | Ok (_, st') =>
      if strict then (remaining st' < remaining st)%nat
      else (remaining st' ≤ remaining st)%nat
  | Err f => f ≠ OutOfFuel
  end.

(** ** Scenarios *)

Definition no_garbage : ident_t → Z * Z := λ _, (0, 0).

(** The inputs of successive cycles when the input [var] is fed [values]
    and every other input is fed 0. *)
Definition feed (var : ident_t) (values : list value_t)
    : list (ident_t → value_t) :=
  map (λ v name, if decide (name = var) then v else 0) values.

Definition kw (k : TokenKind) (s : string) : Token := mkToken k s " ".
Definition ident (s : string) : Token := mkToken IDENTIFIER s " ".
Definition last_ident (s : string) : Token := mkToken IDENTIFIER s NUL.

(** *** Identity register: INPUT a OUTPUT o VAR a, o IN o = REG a *)

Definition idreg_source : list Token :=
  [kw KEY_INPUT "INPUT"; ident "a"; kw KEY_OUTPUT "OUTPUT"; ident "o";
   kw KEY_VAR "VAR"; mkToken IDENTIFIER "a" ","; kw COMMA ","; ident "o";
   kw KEY_IN "IN"; ident "o"; kw EQUAL "="; kw KEY_REG "REG"; last_ident "a"].
Definition idreg_a := mkVariable 1 "a".
Definition idreg_o := mkVariable 1 "o".
Definition idreg_program : Program :=
  mkProgram [idreg_a] [idreg_o] [idreg_a; idreg_o] [("o", RegExpression idreg_a)].
Definition idreg_schedule : list Variable_ := [idreg_o].

(** *** NOT gate: INPUT x OUTPUT z VAR x, z IN z = NOT x *)

Definition notgate_source : list Token :=
  [kw KEY_INPUT "INPUT"; ident "x"; kw KEY_OUTPUT "OUTPUT"; ident "z";
   kw KEY_VAR "VAR"; mkToken IDENTIFIER "x" ","; kw COMMA ","; ident "z";
   kw KEY_IN "IN"; ident "z"; kw EQUAL "="; kw KEY_NOT "NOT"; last_ident "x"].
Definition notgate_x := mkVariable 1 "x".
Definition notgate_z := mkVariable 1 "z".
Definition notgate_program : Program :=
  mkProgram [notgate_x] [notgate_z] [notgate_x; notgate_z]
    [("z", NotExpression (ArgVariable notgate_x))].
Definition notgate_schedule : list Variable_ := [notgate_z].

(** *** Concatenation: INPUT a, b OUTPUT o VAR a, b, o:2 IN o = CONCAT a b *)

Definition concat_a := mkVariable 1 "a".
Definition concat_b := mkVariable 1 "b".
Definition concat_o := mkVariable 2 "o".
Definition concat_expression : Expression :=
  ConcatExpression (ArgVariable concat_a) (ArgVariable concat_b).
Definition concat_program : Program :=
  mkProgram [concat_a; concat_b] [concat_o] [concat_a; concat_b; concat_o]
    [("o", concat_expression)].
Definition concat_schedule : list Variable_ := [concat_o].
Definition concat_inputs : ident_t → value_t := λ _, 1.

(** *** Two-entry ROM: INPUT addr OUTPUT d VAR addr:1, d:4 IN d = ROM 1 4 addr *)

Definition rom_addr := mkVariable 1 "addr".
Definition rom_d := mkVariable 4 "d".
Definition rom_program : Program :=
  mkProgram [rom_addr] [rom_d] [rom_addr; rom_d]
    [("d", RomExpression 1 4 (ArgVariable rom_addr))].
Definition rom_schedule : list Variable_ := [rom_d].

(** *** RAM read-before-write:
    INPUT ra, we, wa, wd OUTPUT r VAR ra, we, wa, wd:4, r:4
    IN r = RAM 1 4 ra we wa wd *)

Definition ram_ra := mkVariable 1 "ra".
Definition ram_we := mkVariable 1 "we".
Definition ram_wa := mkVariable 1 "wa".
Definition ram_wd := mkVariable 4 "wd".
Definition ram_r := mkVariable 4 "r".
Definition ram_expression : Expression :=
  RamExpression 1 4 (ArgVariable ram_ra) (ArgVariable ram_we)
    (ArgVariable ram_wa) (ArgVariable ram_wd).
Definition ram_program : Program :=
  mkProgram [ram_ra; ram_we; ram_wa; ram_wd] [ram_r]
    [ram_ra; ram_we; ram_wa; ram_wd; ram_r] [("r", ram_expression)].
Definition ram_schedule : list Variable_ := [ram_r].
(** Cycle 1 of the scenario: we=1, wa=0, wd=0b1111, ra=0. *)
Definition ram_cycle1 : ident_t → value_t :=
  λ name, if decide (name = "we") then 1
          else if decide (name = "wd") then 15 else 0.
(** Cycle 2 of the scenario: we=0, ra=0. *)
Definition ram_cycle2 : ident_t → value_t := λ _, 0.

(** *** A register next to a RAM block:
    v = REG u and r = RAM 1 4 ra we wa wd, the RAM initialised to [3; 4] *)

Definition regram_u := mkVariable 1 "u".
Definition regram_v := mkVariable 1 "v".
Definition regram_program : Program :=
  mkProgram [regram_u; ram_ra; ram_we; ram_wa; ram_wd] [regram_v; ram_r]
    [regram_u; ram_ra; ram_we; ram_wa; ram_wd; regram_v; ram_r]
    [("v", RegExpression regram_u); ("r", ram_expression)].
Definition regram_schedule : list Variable_ := [regram_v; ram_r].
Definition regram_memory_blocks : list (ident_t * list value_t) := [("r", [3; 4])].
(** The simulator as constructed: slot 0 backs [REG u], the RAM block is at
    [1, 3). *)
Definition regram_initial : Simulator :=
  mkSimulator regram_program regram_schedule (MemoryMapper_new regram_program)
    [0; 3; 4] (<["r" := 0]> (<["v" := 0]> ∅)).
(** u=1, we=1, wa=0, wd=9, ra=0 *)
Definition regram_inputs : ident_t → value_t :=
  λ name, if decide (name = "wd") then 9
          else if decide (name = "u") then 1
          else if decide (name = "we") then 1 else 0.

(** *** A width mismatch: INPUT a OUTPUT o VAR a, o IN o = CONCAT a a *)

Definition mismatch_source : list Token :=
  [kw KEY_INPUT "INPUT"; ident "a"; kw KEY_OUTPUT "OUTPUT"; ident "o";
   kw KEY_VAR "VAR"; mkToken IDENTIFIER "a" ","; kw COMMA ","; ident "o";
   kw KEY_IN "IN"; ident "o"; kw EQUAL "="; kw KEY_CONCAT "CONCAT";
   ident "a"; last_ident "a"].
Definition mismatch_expression : Expression :=
  ConcatExpression (ArgVariable idreg_a) (ArgVariable idreg_a).

(** *** A duplicate equation: INPUT a OUTPUT o VAR a, o IN o = a o = NOT a *)

Definition duplicate_source : list Token :=
  [kw KEY_INPUT "INPUT"; ident "a"; kw KEY_OUTPUT "OUTPUT"; ident "o";
   kw KEY_VAR "VAR"; mkToken IDENTIFIER "a" ","; kw COMMA ","; ident "o";
   kw KEY_IN "IN"; ident "o"; kw EQUAL "="; ident "a";
   ident "o"; kw EQUAL "="; kw KEY_NOT "NOT"; last_ident "a"].

(** *** The identity register with a memory chunk named after no block *)

Definition unused_memory_blocks : list (ident_t * list value_t) := [("nope", [7])].
(** What the uninitialised locals happen to hold: a size of 1, index 0. *)
Definition unused_garbage : ident_t → Z * Z := λ _, (1, 0).

(** ** Further conditions on the memory mapper and on programs *)

(** Two ranges [a, a + la) and [b, b + lb) of the memory vector do not
    overlap. *)
Definition ranges_apart (a la b lb : Z) : Prop := a + la ≤ b ∨ b + lb ≤ a.

(** The tables of the mapper have one entry per name, and blocks of
    different names do not overlap. *)
Record blocks_disjoint (mm : MemoryMapper) : Prop := mkBlocksDisjoint {
  bd_reg_keys : NoDup (reg_info mm).*1;
  bd_ram_keys : NoDup (ram_info mm).*1;
  bd_rom_keys : NoDup (rom_info mm).*1;
  bd_ram_ram : ∀ k info k' info',
    (k, info) ∈ ram_info mm → (k', info') ∈ ram_info mm → k ≠ k' →
    ranges_apart (ram_block_index info) (ram_block_size info)
                 (ram_block_index info') (ram_block_size info');
  bd_rom_rom : ∀ k info k' info',
    (k, info) ∈ rom_info mm → (k', info') ∈ rom_info mm → k ≠ k' →
    ranges_apart (rom_block_index info) (rom_block_size info)
                 (rom_block_index info') (rom_block_size info');
  bd_ram_rom : ∀ k info k' info',
    (k, info) ∈ ram_info mm → (k', info') ∈ rom_info mm →
    ranges_apart (ram_block_index info) (ram_block_size info)
                 (rom_block_index info') (rom_block_size info')
}.

(** The variables an argument and an expression read. *)
Definition argument_vars (a : Argument) : list ident_t :=
  match a with
  | ArgConstant _ => []
  | ArgVariable v => [var_name v]
  end.

Definition expression_vars (e : Expression) : list ident_t :=
  match e with
  | ArgExpression a => argument_vars a
  | RegExpression v => [var_name v]
  | NotExpression a => argument_vars a
  | BinOpExpression _ lhs rhs => argument_vars lhs ++ argument_vars rhs
  | MuxExpression c t f => argument_vars c ++ argument_vars t ++ argument_vars f
  | RomExpression _ _ ra => argument_vars ra
  | RamExpression _ _ ra we wa wd =>
      argument_vars ra ++ argument_vars we ++ argument_vars wa ++ argument_vars wd
  | ConcatExpression a b => argument_vars a ++ argument_vars b
  | SliceExpression _ _ a => argument_vars a
  | SelectExpression _ a => argument_vars a
  end.

(** A program is closed when every variable its equations read is an input
    or has an equation; a schedule is defined when every variable it lists
    has an equation. *)
Definition program_closed (p : Program) : Prop :=
  ∀ k e x, (k, e) ∈ get_equations p → x ∈ expression_vars e →
    x ∈ map var_name (get_inputs p) ∨ al_contains x (get_equations p) = true.

Definition schedule_defined (p : Program) (deps : list Variable_) : Prop :=
  ∀ v, v ∈ deps → al_contains (var_name v) (get_equations p) = true.

(** The range of the memory vector that [fill_block] gives to a chunk name:
    the RAM table is searched first, then the ROM table. *)
Definition block_range (mm : MemoryMapper) (name : ident_t) : option (Z * Z) :=
  match al_find name (ram_info mm) with
  | Some info => Some (ram_block_index info, ram_block_size info)
  | None =>
      match al_find name (rom_info mm) with
      | Some info => Some (rom_block_index info, rom_block_size info)
      | None => None
      end
  end.

(** The mapper's traversal of a list of equations, from a given state. *)
Abbreviation mapper_fold :=
  (foldl (λ mm '(var, eq), MemoryMapper_visit var eq mm)).

(** Every input and every equation target of the program is bound. *)
Definition env_covers (p : Program) (env : var_env) : Prop :=
  ∀ x, x ∈ map var_name (get_inputs p) ∨
       al_contains x (get_equations p) = true → is_Some (env !! x).

(** Every equation target of the program is bound. *)
Definition equations_bound (p : Program) (env : var_env) : Prop :=
  ∀ x, al_contains x (get_equations p) = true → is_Some (env !! x).

(** *** More on the scenarios *)

(** The entry of the RAM table for [r] in the register-and-RAM scenario. *)
Definition regram_ram_info : RamInfo :=
  mkRamInfo (ArgVariable ram_we) (ArgVariable ram_wa) (ArgVariable ram_wd) 1 2.

(** The two-entry ROM constructed with the chunk [5; 6]. *)
Definition rom_memory_blocks : list (ident_t * list value_t) := [("d", [5; 6])].
Definition rom_loaded : Simulator :=
  mkSimulator rom_program rom_schedule (MemoryMapper_new rom_program)
    [5; 6] (<["d" := 0]> ∅).

(** An environment binding [a] to 13 (binary 1101). *)
Definition bits_env : var_env := <["a" := 13]> ∅.
Definition bits_a : Argument := ArgVariable (mkVariable 4 "a").

(** ** What the parser checks *)

(** The constraints [parse_expression] enforces with its assertions, and the
    range [parse_bus_size] gives to sizes and indices. *)
Definition expression_checked (e : Expression) : Prop :=
  match e with
  | BinOpExpression _ lhs rhs =>
      Argument_get_bus_size lhs = Argument_get_bus_size rhs
  | MuxExpression choice true_arg false_arg =>
      Argument_get_bus_size choice = 1 ∧
      Argument_get_bus_size true_arg = Argument_get_bus_size false_arg
  | RomExpression addr_size word_size read_addr =>
      0 ≤ addr_size ≤ max_bus_size ∧ 0 ≤ word_size ≤ max_bus_size ∧
      Argument_get_bus_size read_addr = addr_size
  | RamExpression addr_size word_size read_addr write_enable write_addr data =>
      0 ≤ addr_size ≤ max_bus_size ∧ 0 ≤ word_size ≤ max_bus_size ∧
      Argument_get_bus_size read_addr = addr_size ∧
      Argument_get_bus_size write_enable = 1 ∧
      Argument_get_bus_size write_addr = addr_size ∧
      Argument_get_bus_size data = word_size
  | SliceExpression begin_index end_index a =>
      0 ≤ begin_index < end_index ∧ end_index < Argument_get_bus_size a
  | SelectExpression index a => 0 ≤ index < Argument_get_bus_size a
  | _ => True
  end.

(** Every entry of the table [vars] is filed under the name of its
    variable. *)
Definition vars_named (vars : list (ident_t * Variable_)) : Prop :=
  ∀ k v, (k, v) ∈ vars → var_name v = k.

(** [x] is the name of a variable of the table. *)
Definition declared (vars : list (ident_t * Variable_)) (x : ident_t) : Prop :=
  ∃ k v, al_find k vars = Some v ∧ var_name v = x.

(** A parser state reading an AND of [a] with itself, [a] being declared
    with width 1. *)
Definition and_state : Parser :=
  mkParser [kw KEY_AND "AND"; ident "a"; last_ident "a"] [] [("a", idreg_a)].

(** The table of declared variables is in order: entries are filed under
    their names, names are unique and widths are at most [max_bus_size]. *)
Definition table_ok (vars : list (ident_t * Variable_)) : Prop :=
  vars_named vars ∧ NoDup vars.*1 ∧
  ∀ k v, (k, v) ∈ vars → 0 ≤ var_bus_size v ≤ max_bus_size.

(** The equations recorded so far have distinct, declared targets, and
    their expressions passed the checks and read declared variables only. *)
Definition equations_ok (vars : list (ident_t * Variable_))
    (eqs : list (ident_t * Expression)) : Prop :=
  NoDup eqs.*1 ∧
  ∀ k e, (k, e) ∈ eqs →
    al_contains k vars = true ∧ expression_checked e ∧
    ∀ x, x ∈ expression_vars e → al_contains x vars = true.

(** A parser state reading the binary constant [0b101] at the end of the
    input (the prefix is not part of the spelling). *)
Definition constant_state : Parser :=
  mkParser [mkToken BINARY_CONSTANT "101" NUL] [] [].

(** A failure that is an exit with an error diagnostic, or the model's
    lack of fuel. *)
Definition diagnostic (f : fault) : Prop :=
  ∃ r, f = Exited r ∧ severity r = ERROR.

Definition diagnostic_or_fuel (f : fault) : Prop :=
  f = OutOfFuel ∨ diagnostic f.

(** An expression whose evaluation involves no memory block and no shift by
    64 or more. *)
Definition shift_safe (e : Expression) : Prop :=
  match e with
  | RomExpression _ _ _ | RamExpression _ _ _ _ _ _ => False
  | ConcatExpression _ _ => 0 ≤ Expression_get_bus_size e < 64
  | SliceExpression begin_index end_index _ =>
      0 ≤ begin_index ≤ end_index ∧ begin_index < 64 ∧
      end_index - begin_index + 1 < 64
  | SelectExpression index _ => 0 ≤ index < 64
  | _ => True
  end.

(** *** A two-bit slice of a register: o = SLICE 0 1 a, a = REG o *)

Definition loop_a := mkVariable 4 "a".
Definition loop_o := mkVariable 2 "o".
Definition loop_program : Program :=
  mkProgram [] [loop_o] [loop_a; loop_o]
    [("o", SliceExpression 0 1 (ArgVariable loop_a));
     ("a", RegExpression loop_o)].
Definition loop_schedule : list Variable_ := [loop_a; loop_o].
Definition loop_initial : Simulator :=
  mkSimulator loop_program loop_schedule (MemoryMapper_new loop_program)
    [0] (<["a" := 0]> (<["o" := 0]> ∅)).

(** ** The lexer ([lexer.cpp])

    The parser obtains each token from [Lexer::tokenize]; the token kinds of
    this lexer include the two brackets, which the parser above does not
    know. *)

Module Lexer.

Inductive TokenKind :=
| EOI | IDENTIFIER | INTEGER | BINARY_CONSTANT | DECIMAL_CONSTANT
| HEXADECIMAL_CONSTANT | EQUAL | COMMA | COLON | LEFT_BRACKET | RIGHT_BRACKET
| KEY_INPUT | KEY_OUTPUT | KEY_VAR | KEY_IN
| KEY_NOT | KEY_AND | KEY_NAND | KEY_OR | KEY_XOR
| KEY_MUX | KEY_REG | KEY_CONCAT | KEY_SELECT | KEY_SLICE | KEY_ROM | KEY_RAM.

#[global] Instance TokenKind_eq_dec : EqDecision TokenKind.
Proof. solve_decision. Defined.

Record SourcePosition := mkPosition { line : Z; column : Z }.

Record Token := mkToken {
  kind : TokenKind;
  spelling : string;
  position : SourcePosition
}.

(** Modelled from the spec: [lexer.hpp], which declares [DataBuffer], is not
    among the sources, and the specification leaves the lexer to its
    environment; the buffer is taken as [lexer.cpp] uses it.  [m_cur] is the
    text from the current position to the terminating NUL (the empty string
    stands for the terminator), [m_line] and [m_col] are 32-bit counters,
    [current_char] reads [*m_cur] and [is_eof] tests it for NUL. *)
Record DataBuffer := mkDataBuffer { m_cur : string; m_line : Z; m_col : Z }.

Definition current_char (b : DataBuffer) : ascii :=
  match m_cur b with
  | EmptyString => NUL
  | String c _ => c
  end.

Definition is_eof (b : DataBuffer) : bool := bool_decide (current_char b = NUL).

Definition current_position (b : DataBuffer) : SourcePosition :=
  mkPosition (m_line b) (m_col b).

Definition advance (s : string) : string :=
  match s with
  | EmptyString => EmptyString
  | String _ s' => s'
  end.

Definition next_char (b : DataBuffer) : DataBuffer :=
  let b :=
    if decide (current_char b = "010"%char)
    then (* We pass a new line *)
         mkDataBuffer (m_cur b) (wrap32 (m_line b + 1)) 0
    else b in
  if is_eof b then b (* If EOF do nothing *)
  else mkDataBuffer (advance (m_cur b)) (m_line b) (wrap32 (m_col b + 1)).

Definition char_code (c : ascii) : Z := Z.of_N (N_of_ascii c).

Definition between (lo hi c : ascii) : bool :=
  bool_decide (char_code lo ≤ char_code c ≤ char_code hi).

Definition is_whitespace (b : DataBuffer) : bool :=
  bool_decide (current_char b = " "%char)
  || bool_decide (current_char b = "009"%char)
  || bool_decide (current_char b = "010"%char)
  || bool_decide (current_char b = "013"%char).

Definition is_binary_digit (b : DataBuffer) : bool :=
  bool_decide (current_char b = "0"%char) || bool_decide (current_char b = "1"%char).

Definition is_decimal_digit (b : DataBuffer) : bool :=
  between "0" "9" (current_char b).

Definition is_hexadecimal_digit (b : DataBuffer) : bool :=
  between "0" "9" (current_char b)
  || between "a" "f" (current_char b)
  || between "A" "F" (current_char b).

Definition is_ident_start (b : DataBuffer) : bool :=
  between "a" "z" (current_char b)
  || between "A" "Z" (current_char b)
  || bool_decide (current_char b = "_"%char).

Definition is_ident_body (b : DataBuffer) : bool :=
  is_ident_start b || is_decimal_digit b
  || bool_decide (current_char b = "'"%char).

(** [while (cond(m_buf)) m_buf.next_char();] with the fuel of the loop. *)
Fixpoint while_next (cond : DataBuffer → bool) (fuel : nat) (b : DataBuffer)
    : DataBuffer :=
  match fuel with
  | O => b
  | S fuel => if cond b then while_next cond fuel (next_char b) else b
  end.

(** Every loop of the lexer advances by one character per iteration, so one
    more than the number of characters left is enough fuel. *)
Definition loop_fuel (b : DataBuffer) : nat := S (String.length (m_cur b)).

Definition skip_whitespace (b : DataBuffer) : DataBuffer :=
  while_next is_whitespace (loop_fuel b) b.

(* Eat a whole line after '#' *)
Definition skip_comment (b : DataBuffer) : DataBuffer :=
  while_next (λ b, negb (is_eof b) && negb (bool_decide (current_char b = "010"%char)))
    (loop_fuel b) b.

Definition spelling2keyword : list (ident_t * TokenKind) :=
  [("INPUT", KEY_INPUT); ("OUTPUT", KEY_OUTPUT); ("VAR", KEY_VAR); ("IN", KEY_IN);
   ("NOT", KEY_NOT); ("AND", KEY_AND); ("NAND", KEY_NAND); ("OR", KEY_OR);
   ("XOR", KEY_XOR);
   ("MUX", KEY_MUX); ("REG", KEY_REG); ("CONCAT", KEY_CONCAT);
   ("SELECT", KEY_SELECT); ("SLICE", KEY_SLICE); ("ROM", KEY_ROM); ("RAM", KEY_RAM)].

(** [std::toupper] in the C locale. *)
Definition toupper (c : ascii) : ascii :=
  if between "a" "z" c
  then ascii_of_N (N_of_ascii c - 32)
  else c.

Fixpoint str_toupper (s : string) : string :=
  match s with
  | EmptyString => EmptyString
  | String c s' => String (toupper c) (str_toupper s')
  end.

(** [std::string_view(begin, std::distance(begin, end))]: the characters
    between the position of [from] and that of [to]. *)
Definition view (from to : DataBuffer) : string :=
  String.substring 0 (String.length (m_cur from) - String.length (m_cur to)) (m_cur from).

Definition tokenize_identifier (b : DataBuffer) : result (Token * DataBuffer) :=
  let begin := b in
  let column_begin := m_col b in
  let b := next_char b in (* eat the first character *)
  let b := while_next is_ident_body (loop_fuel b) b in
  let spelling := view begin b in
  let uppercase_keyword := str_toupper spelling in
  kind ← (if al_contains uppercase_keyword spelling2keyword
          then al_at spelling spelling2keyword
          else Ok IDENTIFIER);
  Ok (mkToken kind spelling (mkPosition (m_line b) column_begin), b).

Definition tokenize_integer (b : DataBuffer) : Token * DataBuffer :=
  let begin := b in
  let column_begin := m_col b in
  let b := next_char b in (* eat the first character *)
  let b := while_next is_decimal_digit (loop_fuel b) b in
  (mkToken INTEGER (view begin b) (mkPosition (m_line b) column_begin), b).

(** The three prefixed constants: the two characters of the prefix are
    eaten, the spelling starts after them. *)
Definition tokenize_constant (k : TokenKind) (digit : DataBuffer → bool)
    (b : DataBuffer) : Token * DataBuffer :=
  let column_begin := m_col b in
  let b := next_char b in
  let b := next_char b in
  let begin := b in
  let b := while_next digit (loop_fuel b) b in
  (mkToken k (view begin b) (mkPosition (m_line b) column_begin), b).

Definition tokenize_decimal_constant :=
  tokenize_constant DECIMAL_CONSTANT is_decimal_digit.
Definition tokenize_hexadecimal_constant :=
  tokenize_constant HEXADECIMAL_CONSTANT is_hexadecimal_digit.
Definition tokenize_binary_constant :=
  tokenize_constant BINARY_CONSTANT is_binary_digit.

Definition unknown_character (c : ascii) : Report :=
  mkReport ERROR (Some 2) "Unknown character found : '" (String c EmptyString).

(** A token of one character. *)
Definition punctuation (k : TokenKind) (b : DataBuffer) : Token * DataBuffer :=
  (mkToken k (String (current_char b) EmptyString) (current_position b),
   next_char b (* eat the character *)).

(** [Lexer::tokenize]; the fuel bounds the iterations of its [for (;;)],
    which is re-entered after a comment only. *)
Fixpoint tokenize (fuel : nat) (b : DataBuffer) : result (Token * DataBuffer) :=
  match fuel with
  | O => Err OutOfFuel
  | S fuel =>
      let b := skip_whitespace b in
      let c := current_char b in
      if decide (c = NUL) then Ok (mkToken EOI "" (current_position b), b)
      else if decide (c = "="%char) then Ok (punctuation EQUAL b)
      else if decide (c = ","%char) then Ok (punctuation COMMA b)
      else if decide (c = ":"%char) then Ok (punctuation COLON b)
      else if decide (c = "["%char) then Ok (punctuation LEFT_BRACKET b)
      else if decide (c = "]"%char) then Ok (punctuation RIGHT_BRACKET b)
      else if decide (c = "#"%char) then
        tokenize fuel (skip_comment b) (* get the next valid token *)
      else if decide (c = "0"%char) then
        let buf := next_char b in (* Copy of the buffer to test the next char *)
        if decide (current_char buf = "b"%char)
        then Ok (tokenize_binary_constant b)
        else if decide (current_char buf = "d"%char)
        then Ok (tokenize_decimal_constant b)
        else if decide (current_char buf = "x"%char)
        then Ok (tokenize_hexadecimal_constant b)
        else Ok (tokenize_integer b)
      else if between "1" "9" c then Ok (tokenize_integer b)
      else if is_ident_start b then tokenize_identifier b
      else (* Bad, we reached an unknown character. *)
           exit (unknown_character c)
  end.

(** Characters and texts, for the statements about the lexer. *)
Definition first_char (s : string) : ascii :=
  match s with
  | EmptyString => NUL
  | String c _ => c
  end.

Fixpoint all_chars (q : ascii → bool) (s : string) : bool :=
  match s with
  | EmptyString => true
  | String c s' => q c && all_chars q s'
  end.

Definition is_letter (c : ascii) : bool := between "a" "z" c || between "A" "Z" c.
Definition is_upper (c : ascii) : bool := between "A" "Z" c.
Definition ident_body (c : ascii) : bool :=
  is_letter c || bool_decide (c = "_"%char) || between "0" "9" c
  || bool_decide (c = "'"%char).

Definition not_NUL (c : ascii) : bool := negb (bool_decide (c = NUL)).

(** The kinds of the tokens that [parse_int] reads. *)
Definition numeric (k : TokenKind) : bool :=
  match k with
  | INTEGER | BINARY_CONSTANT | DECIMAL_CONSTANT | HEXADECIMAL_CONSTANT => true
  | _ => false
  end.

End Lexer.

(** The token the parser receives: the kinds it knows, and the byte that
    follows the spelling in the buffer, which is the current character of
    the lexer once the token is read. *)
Definition parser_kind (k : Lexer.TokenKind) : option TokenKind :=
  match k with
  | Lexer.EOI => Some EOI
  | Lexer.IDENTIFIER => Some IDENTIFIER
  | Lexer.INTEGER => Some INTEGER
  | Lexer.BINARY_CONSTANT => Some BINARY_CONSTANT
  | Lexer.DECIMAL_CONSTANT => Some DECIMAL_CONSTANT
  | Lexer.HEXADECIMAL_CONSTANT => Some HEXADECIMAL_CONSTANT
  | Lexer.EQUAL => Some EQUAL
  | Lexer.COMMA => Some COMMA
  | Lexer.COLON => Some COLON
  | Lexer.LEFT_BRACKET | Lexer.RIGHT_BRACKET => None
  | Lexer.KEY_INPUT => Some KEY_INPUT
  | Lexer.KEY_OUTPUT => Some KEY_OUTPUT
  | Lexer.KEY_VAR => Some KEY_VAR
  | Lexer.KEY_IN => Some KEY_IN
  | Lexer.KEY_NOT => Some KEY_NOT
  | Lexer.KEY_AND => Some KEY_AND
  | Lexer.KEY_NAND => Some KEY_NAND
  | Lexer.KEY_OR => Some KEY_OR
  | Lexer.KEY_XOR => Some KEY_XOR
  | Lexer.KEY_MUX => Some KEY_MUX
  | Lexer.KEY_REG => Some KEY_REG
  | Lexer.KEY_CONCAT => Some KEY_CONCAT
  | Lexer.KEY_SELECT => Some KEY_SELECT
  | Lexer.KEY_SLICE => Some KEY_SLICE
  | Lexer.KEY_ROM => Some KEY_ROM
  | Lexer.KEY_RAM => Some KEY_RAM
  end.

Definition parser_token (t : Lexer.Token) (rest : Lexer.DataBuffer)
    : option Token :=
  k ← parser_kind (Lexer.kind t);
  Some (mkToken k (Lexer.spelling t) (Lexer.current_char rest)).

(** A buffer at the start of the given text, at line 1 and column 1 (the
    positions only decorate the diagnostics). *)
Definition buffer_of (s : string) : Lexer.DataBuffer := Lexer.mkDataBuffer s 1 1.

(** ** The program builder ([program.cpp])

    [ProgramBuilder] and the accessors of [Program] for the register-based
    representation: registers with a name, a width and flags, instructions
    over register indices, and a table of memories.  The header of this
    representation is not among the sources; the fields are those the
    functions of [program.cpp] read and write.  An [assert] that fails
    aborts the process, which the builder functions render as [None]. *)

Module Builder.

(** [reg_t]: an index into [registers] ([std::uint_least32_t]). *)
Definition reg_t := Z.

Definition UINT_LEAST32_MAX : Z := 2 ^ 32 - 1.

Record RegisterInfo := mkRegisterInfo {
  name : string;
  bus_size : bus_size_t;
  flags : Z
}.

Inductive Instruction :=
| ConstInstruction (output : reg_t) (value : value_t)
| LoadInstruction (output input : reg_t)
| NotInstruction (output input : reg_t)
| AndInstruction (output lhs rhs : reg_t)
| NandInstruction (output lhs rhs : reg_t)
| OrInstruction (output lhs rhs : reg_t)
| NorInstruction (output lhs rhs : reg_t)
| XorInstruction (output lhs rhs : reg_t)
| XnorInstruction (output lhs rhs : reg_t)
| ConcatInstruction (output lhs rhs : reg_t) (offset : bus_size_t)
| RegInstruction (output input : reg_t)
| MuxInstruction (output choice first second : reg_t)
| SelectInstruction (output : reg_t) (i : bus_size_t) (input : reg_t)
| SliceInstruction (output : reg_t) (start end_ : bus_size_t) (input : reg_t)
| RomInstruction (output : reg_t) (memory_block : nat) (read_addr : reg_t)
| RamInstruction (output : reg_t) (memory_block : nat)
    (read_addr write_enable write_addr write_data : reg_t).

(** [parent] points to the ROM or RAM instruction of the memory; the
    pointer is rendered as the position of that instruction in
    [instructions]. *)
Record MemoryInfo := mkMemoryInfo {
  parent : nat;
  addr_size : bus_size_t;
  word_size : bus_size_t
}.

Record Program := mkProgram {
  registers : list RegisterInfo;
  instructions : list Instruction;
  memories : list MemoryInfo
}.

Definition empty : Program := mkProgram [] [] [].

Section flags.
(** The flag bits [RIF_INPUT] and [RIF_OUTPUT] are declared in the header. *)
Variables RIF_INPUT RIF_OUTPUT : Z.

Definition flagged (flag : Z) (register_info : RegisterInfo) : bool :=
  bool_decide (Z.land (flags register_info) flag ≠ 0).

(** The loop of [get_inputs] and [get_outputs], from index [i]. *)
Fixpoint flagged_from (flag : Z) (i : Z) (regs : list RegisterInfo) : list reg_t :=
  match regs with
  | [] => []
  | register_info :: rest =>
      if flagged flag register_info then i :: flagged_from flag (i + 1) rest
      else flagged_from flag (i + 1) rest
  end.

Definition has_inputs (p : Program) : bool :=
  existsb (flagged RIF_INPUT) (registers p).

Definition get_inputs (p : Program) : list reg_t :=
  flagged_from RIF_INPUT 0 (registers p).

Definition has_outputs (p : Program) : bool :=
  existsb (flagged RIF_OUTPUT) (registers p).

Definition get_outputs (p : Program) : list reg_t :=
  flagged_from RIF_OUTPUT 0 (registers p).
End flags.

Definition check_reg (p : Program) (reg : reg_t) : bool :=
  bool_decide (0 ≤ reg < Z.of_nat (length (registers p))).

Definition add_register (bus_size : bus_size_t) (name : string) (flags : Z)
    (p : Program) : option (reg_t * Program) :=
  if bool_decide (Z.of_nat (length (registers p)) < UINT_LEAST32_MAX) then
    let reg := Z.of_nat (length (registers p)) in
    Some (reg, mkProgram (registers p ++ [mkRegisterInfo name bus_size flags])
                 (instructions p) (memories p))
  else None.

Definition get_register_bus_size (p : Program) (reg : reg_t) : option bus_size_t :=
  if check_reg p reg
  then bus_size <$> registers p !! Z.to_nat reg
  else None.

(** [m_program->instructions.push_back(inst)] *)
Definition push_back (inst : Instruction) (p : Program) : Program :=
  mkProgram (registers p) (instructions p ++ [inst]) (memories p).

Definition add_const (output : reg_t) (value : value_t) (p : Program)
    : option Program :=
  if check_reg p output then Some (push_back (ConstInstruction output value) p)
  else None.

Definition add_load (output input : reg_t) (p : Program) : option Program :=
  if check_reg p output && check_reg p input
  then Some (push_back (LoadInstruction output input) p) else None.

Definition add_not (output input : reg_t) (p : Program) : option Program :=
  if check_reg p output && check_reg p input
  then Some (push_back (NotInstruction output input) p) else None.

Definition add_and (output lhs rhs : reg_t) (p : Program) : option Program :=
  if check_reg p output && check_reg p lhs && check_reg p rhs
  then Some (push_back (AndInstruction output lhs rhs) p) else None.

Definition add_nand (output lhs rhs : reg_t) (p : Program) : option Program :=
  if check_reg p output && check_reg p lhs && check_reg p rhs
  then Some (push_back (NandInstruction output lhs rhs) p) else None.

Definition add_or (output lhs rhs : reg_t) (p : Program) : option Program :=
  if check_reg p output && check_reg p lhs && check_reg p rhs
  then Some (push_back (OrInstruction output lhs rhs) p) else None.

Definition add_nor (output lhs rhs : reg_t) (p : Program) : option Program :=
  if check_reg p output && check_reg p lhs && check_reg p rhs
  then Some (push_back (NorInstruction output lhs rhs) p) else None.

Definition add_xor (output lhs rhs : reg_t) (p : Program) : option Program :=
  if check_reg p output && check_reg p lhs && check_reg p rhs
  then Some (push_back (XorInstruction output lhs rhs) p) else None.

Definition add_xnor (output lhs rhs : reg_t) (p : Program) : option Program :=
  if check_reg p output && check_reg p lhs && check_reg p rhs
  then Some (push_back (XnorInstruction output lhs rhs) p) else None.

Definition add_concat (output lhs rhs : reg_t) (p : Program) : option Program :=
  if check_reg p output && check_reg p lhs && check_reg p rhs
  then
    offset ← bus_size <$> registers p !! Z.to_nat lhs;
    Some (push_back (ConcatInstruction output lhs rhs offset) p)
  else None.

Definition add_reg (output input : reg_t) (p : Program) : option Program :=
  if check_reg p output && check_reg p input
  then Some (push_back (RegInstruction output input) p) else None.

Definition add_mux (output choice first second : reg_t) (p : Program)
    : option Program :=
  if check_reg p output && check_reg p choice && check_reg p first
     && check_reg p second
  then Some (push_back (MuxInstruction output choice first second) p)
  else None.

Definition add_select (output : reg_t) (i : bus_size_t) (input : reg_t)
    (p : Program) : option Program :=
  if check_reg p output && check_reg p input
  then Some (push_back (SelectInstruction output i input) p) else None.

Definition add_slice (output : reg_t) (start end_ : bus_size_t) (input : reg_t)
    (p : Program) : option Program :=
  if check_reg p output && check_reg p input
  then Some (push_back (SliceInstruction output start end_ input) p) else None.

(** The instruction is pushed, then its memory is appended with [parent]
    pointing to it. *)
Definition add_memory (inst : Instruction) (addr_size word_size : bus_size_t)
    (p : Program) : Program :=
  mkProgram (registers p) (instructions p ++ [inst])
    (memories p ++ [mkMemoryInfo (length (instructions p)) addr_size word_size]).

Definition add_rom (output : reg_t) (addr_size word_size : bus_size_t)
    (read_addr : reg_t) (p : Program) : option Program :=
  if check_reg p output && check_reg p read_addr
  then Some (add_memory (RomInstruction output (length (memories p)) read_addr)
               addr_size word_size p)
  else None.

Definition add_ram (output : reg_t) (addr_size word_size : bus_size_t)
    (read_addr write_enable write_addr write_data : reg_t) (p : Program)
    : option Program :=
  if check_reg p output && check_reg p read_addr && check_reg p write_enable
     && check_reg p write_addr && check_reg p write_data
  then Some (add_memory
               (RamInstruction output (length (memories p)) read_addr
                  write_enable write_addr write_data)
               addr_size word_size p)
  else None.

(** A call of the builder, and a sequence of calls followed by [build]. *)
Inductive Call :=
| CallRegister (bus_size : bus_size_t) (name : string) (flags : Z)
| CallConst (output : reg_t) (value : value_t)
| CallLoad (output input : reg_t)
| CallNot (output input : reg_t)
| CallAnd (output lhs rhs : reg_t)
| CallNand (output lhs rhs : reg_t)
| CallOr (output lhs rhs : reg_t)
| CallNor (output lhs rhs : reg_t)
| CallXor (output lhs rhs : reg_t)
| CallXnor (output lhs rhs : reg_t)
| CallConcat (output lhs rhs : reg_t)
| CallReg (output input : reg_t)
| CallMux (output choice first second : reg_t)
| CallSelect (output : reg_t) (i : bus_size_t) (input : reg_t)
| CallSlice (output : reg_t) (start end_ : bus_size_t) (input : reg_t)
| CallRom (output : reg_t) (addr_size word_size : bus_size_t) (read_addr : reg_t)
| CallRam (output : reg_t) (addr_size word_size : bus_size_t)
    (read_addr write_enable write_addr write_data : reg_t).

Definition call (c : Call) (p : Program) : option Program :=
  match c with
  | CallRegister bus_size name flags => snd <$> add_register bus_size name flags p
  | CallConst output value => add_const output value p
  | CallLoad output input => add_load output input p
  | CallNot output input => add_not output input p
  | CallAnd output lhs rhs => add_and output lhs rhs p
  | CallNand output lhs rhs => add_nand output lhs rhs p
  | CallOr output lhs rhs => add_or output lhs rhs p
  | CallNor output lhs rhs => add_nor output lhs rhs p
  | CallXor output lhs rhs => add_xor output lhs rhs p
  | CallXnor output lhs rhs => add_xnor output lhs rhs p
  | CallConcat output lhs rhs => add_concat output lhs rhs p
  | CallReg output input => add_reg output input p
  | CallMux output choice first second => add_mux output choice first second p
  | CallSelect output i input => add_select output i input p
  | CallSlice output start end_ input => add_slice output start end_ input p
  | CallRom output addr_size word_size read_addr =>
      add_rom output addr_size word_size read_addr p
  | CallRam output addr_size word_size read_addr write_enable write_addr
      write_data =>
      add_ram output addr_size word_size read_addr write_enable write_addr
        write_data p
  end.

Fixpoint build (calls : list Call) (p : Program) : option Program :=
  match calls with
  | [] => Some p
  | c :: rest => p' ← call c p; build rest p'
  end.

(** The registers an instruction names, and its memory block. *)
Definition operands (inst : Instruction) : list reg_t :=
  match inst with
  | ConstInstruction output _ => [output]
  | LoadInstruction output input | NotInstruction output input
  | RegInstruction output input => [output; input]
  | AndInstruction output lhs rhs | NandInstruction output lhs rhs
  | OrInstruction output lhs rhs | NorInstruction output lhs rhs
  | XorInstruction output lhs rhs | XnorInstruction output lhs rhs
  | ConcatInstruction output lhs rhs _ => [output; lhs; rhs]
  | MuxInstruction output choice first second => [output; choice; first; second]
  | SelectInstruction output _ input | SliceInstruction output _ _ input =>
      [output; input]
  | RomInstruction output _ read_addr => [output; read_addr]
  | RamInstruction output _ read_addr write_enable write_addr write_data =>
      [output; read_addr; write_enable; write_addr; write_data]
  end.

Definition memory_block_of (inst : Instruction) : option nat :=
  match inst with
  | RomInstruction _ memory_block _ => Some memory_block
  | RamInstruction _ memory_block _ _ _ _ => Some memory_block
  | _ => None
  end.

(** A program without dangling references: every instruction names
    registers that exist, a CONCAT holds the width of its left operand, a
    ROM or RAM instruction names a memory whose parent it is, and every
    memory has such a parent. *)
Record well_formed (p : Program) : Prop := mkWellFormed {
  wf_operands : ∀ i inst reg,
    instructions p !! i = Some inst → reg ∈ operands inst →
    check_reg p reg = true;
  wf_concat : ∀ i output lhs rhs offset,
    instructions p !! i = Some (ConcatInstruction output lhs rhs offset) →
    get_register_bus_size p lhs = Some offset;
  wf_block : ∀ i inst m,
    instructions p !! i = Some inst → memory_block_of inst = Some m →
    ∃ info, memories p !! m = Some info ∧ parent info = i;
  wf_parent : ∀ m info,
    memories p !! m = Some info →
    ∃ inst, instructions p !! parent info = Some inst ∧
            memory_block_of inst = Some m
}.

(** A list of indices in strictly increasing order. *)
Definition ascending (l : list reg_t) : Prop :=
  ∀ i j a b, (i < j)%nat → l !! i = Some a → l !! j = Some b → a < b.

(** A scenario: two registers, their concatenation and a ROM. *)
Definition scenario : list Call :=
  [CallRegister 2 "a" 0; CallRegister 4 "b" 0; CallRegister 6 "c" 0;
   CallConcat 2 0 1; CallRom 1 2 4 0].

End Builder.

(** ** Breakpoints of the bytecode simulator ([instruction.cpp])

    A breakpoint replaces the word of the bytecode at its offset by the
    opcode BREAK and keeps the word it replaced.  The header declaring
    [BreakPoint], [ByteCode] and [OpCode] is not among the sources: the
    fields are those the two functions use, and the number of the opcode is
    a parameter.  Indexing [words] outside the vector is undefined
    behaviour. *)

Module Debugger.

Record BreakPoint := mkBreakPoint {
  offset : nat;
  saved_word : Z;
  oneshot : bool;
  is_active : bool
}.

Section opcode.
Variable BREAK : Z.

Definition activate (bp : BreakPoint) (words : list Z)
    : result (BreakPoint * list Z) :=
  saved ← of_option (words !! offset bp) Undefined;
  Ok (mkBreakPoint (offset bp) saved (oneshot bp) true,
      <[offset bp := BREAK]> words).

Definition deactivate (bp : BreakPoint) (words : list Z)
    : result (BreakPoint * list Z) :=
  if decide (offset bp < length words)%nat
  then Ok (mkBreakPoint (offset bp) (saved_word bp) (oneshot bp) false,
           <[offset bp := saved_word bp]> words)
  else Err Undefined.
End opcode.

End Debugger.

(** * Properties *)

(** ** Basic facts on machine integers and the result monad *)

Lemma wrap64_range z : 0 ≤ wrap64 z < 2 ^ 64.
Proof. unfold wrap64. apply Z.mod_pos_bound. lia. Qed.

Lemma wrap64_small z : 0 ≤ z < 2 ^ 64 → wrap64 z = z.
Proof. intros. unfold wrap64. by apply Z.mod_small. Qed.

Lemma not64_spec x : 0 ≤ x < 2 ^ 64 → not64 x = 2 ^ 64 - 1 - x.
Proof.
  intros Hx. unfold not64, wrap64, Z.lnot.
  replace (Z.pred (- x)) with (2 ^ 64 - 1 - x + -1 * 2 ^ 64) by lia.
  rewrite Z.mod_add by lia. apply Z.mod_small. lia.
Qed.

Lemma bind_Ok {A B} (r : result A) (k : A → result B) b :
  r ≫= k = Ok b → ∃ a, r = Ok a ∧ k a = Ok b.
Proof. destruct r as [a|f]; [eauto | discriminate]. Qed.

Ltac inv_bind H :=
  let a := fresh "a" in
  let Ha := fresh "Ha" in
  apply bind_Ok in H as (a & Ha & H).

(** ** The input-binding step *)

Lemma env_emplace_bound k v (env : var_env) k' x :
  env !! k' = Some x → env_emplace k v env !! k' = Some x.
Proof.
  intros Hx. unfold env_emplace. destruct (env !! k) eqn:Hk; [done|].
  rewrite lookup_insert_ne; [done|]. intros ->. congruence.
Qed.

(** A variable that is already bound keeps its value through the loop that
    sets the inputs: [emplace] does not overwrite. *)
Lemma set_inputs_bound inputs ins (env : var_env) k x :
  env !! k = Some x → set_inputs inputs ins env !! k = Some x.
Proof.
  unfold set_inputs. revert env.
  induction ins as [|i ins IH]; intros env Hx; [done|].
  simpl. apply IH. by apply env_emplace_bound.
Qed.

Lemma idreg_parsed : parse_program idreg_source = Ok idreg_program.
Proof. vm_compute. reflexivity. Qed.

(** C1 (violated by the code): the identity register [o = REG a] is fed
    [a = 1, 0, 1, 1] over four cycles.  The input-binding step uses
    [emplace], which keeps the binding made in the first cycle: [a] reads 1
    in every cycle and [o] is 0, 1, 1, 1 where 0, 1, 0, 1 is expected. *)
Theorem identity_register_keeps_first_input :
  ∃ s, Simulator_new idreg_schedule [] no_garbage idreg_program = ([], Ok s) ∧
       trace "a" (feed "a" [1; 0; 1; 1]) s = [Some 1; Some 1; Some 1; Some 1] ∧
       trace "o" (feed "a" [1; 0; 1; 1]) s = [Some 0; Some 1; Some 1; Some 1].
Proof. eexists. split; [vm_compute; reflexivity|]. split; vm_compute; reflexivity. Qed.

(** ** Masking *)

Lemma notgate_parsed : parse_program notgate_source = Ok notgate_program.
Proof. vm_compute. reflexivity. Qed.

(** The complement of a value of width [w < 64] is never below [2^w]:
    [visit_not_expr] flips all 64 bits and nothing masks the result. *)
Lemma not64_exceeds_width x w :
  0 ≤ w < 64 → 0 ≤ x < 2 ^ w → 2 ^ w ≤ not64 x.
Proof.
  intros Hw Hx.
  assert (2 ^ w * 2 ≤ 2 ^ 64).
  { replace 64 with (w + (64 - w)) by lia. rewrite Z.pow_add_r by lia.
    apply Z.mul_le_mono_nonneg_l; [lia|].
    change 2 with (2 ^ 1) at 1. apply Z.pow_le_mono_r; lia. }
  rewrite not64_spec by lia. lia.
Qed.

Lemma eval_not env mem mm var a x :
  visit_argument env a = Ok x →
  eval env mem mm var (NotExpression a) = Ok (not64 x).
Proof. intros Ha. unfold eval. by rewrite Ha. Qed.

(** C4 (violated by the code): [z = NOT x] with [x = 1], both of width 1.
    [visit_not_expr] stores [~1] un-masked, and reading [z] back through
    [visit_variable] yields [2^64 - 2], which is not below [2^1]. *)
Theorem not_result_is_not_masked :
  ∃ s s', Simulator_new notgate_schedule [] no_garbage notgate_program = ([], Ok s) ∧
          cycle (λ _, 1) s = Ok s' ∧
          visit_argument (env s') (ArgVariable notgate_z) = Ok (2 ^ 64 - 2) ∧
          ¬ (2 ^ 64 - 2 < 2 ^ var_bus_size notgate_z).
Proof.
  do 2 eexists. split; [vm_compute; reflexivity|].
  split; [vm_compute; reflexivity|].
  split; [vm_compute; reflexivity|]. vm_compute. discriminate.
Qed.

(** ** Concatenation *)

(** What [visit_concat_expr] computes: the last part is shifted by the bus
    size of the whole expression. *)
Lemma eval_concat env mem mm var a b x y :
  visit_argument env a = Ok x → visit_argument env b = Ok y →
  0 ≤ Expression_get_bus_size (ConcatExpression a b) < 64 →
  eval env mem mm var (ConcatExpression a b) =
    Ok (Z.lor (wrap64 (Z.shiftl y (Expression_get_bus_size (ConcatExpression a b)))) x).
Proof.
  intros Ha Hb Hs. unfold eval. rewrite Ha, Hb. simpl.
  unfold shl64. by rewrite decide_True.
Qed.

(** C5 (violated by the code): [o = CONCAT a b] with [a] and [b] of width 1
    and [a = b = 1].  The code shifts [b] by the bus size of the whole
    expression (2), giving 5; the claimed value [a | (b << width a)] is 3. *)
Theorem concat_shifts_by_total_width :
  ∃ s s', Simulator_new concat_schedule [] no_garbage concat_program = ([], Ok s) ∧
          cycle concat_inputs s = Ok s' ∧
          env s' !! "a" = Some 1 ∧ env s' !! "b" = Some 1 ∧
          env s' !! "o" = Some 5 ∧
          Z.lor 1 (Z.shiftl 1 (var_bus_size concat_a)) = 3.
Proof.
  do 2 eexists. split; [vm_compute; reflexivity|].
  split; [vm_compute; reflexivity|].
  repeat split; vm_compute; reflexivity.
Qed.

(** ** Uninitialised ROM blocks *)

(** C6 (violated by the code): the ROM of [d = ROM 1 4 addr] is given no
    contents.  The constructor prints the error (code 52) with [print] and
    returns, and the cycle that follows is executed, reading 0. *)
Theorem uninitialised_rom_still_simulates :
  ∃ s', run_simulation rom_schedule [] no_garbage rom_program [λ _, 0]
          = ([rom_not_initialised "d"], Ok s') ∧
        severity (rom_not_initialised "d") = ERROR ∧
        env s' !! "d" = Some 0.
Proof. eexists. split; [vm_compute; reflexivity|]. split; vm_compute; reflexivity. Qed.

(** An uninitialised RAM block is reported as a warning and the simulation
    proceeds. *)
Lemma uninitialised_ram_warns :
  ∃ s', run_simulation ram_schedule [] no_garbage ram_program [ram_cycle1]
          = ([ram_not_initialised "r"], Ok s') ∧
        severity (ram_not_initialised "r") = WARNING.
Proof. eexists. split; vm_compute; reflexivity. Qed.


(** ** Unused memory chunks *)

(** C10: a memory chunk named after neither a RAM nor a ROM block only adds
    the warning (code 50) to the log; the size check then compares the
    indeterminate content of [block_size] with the chunk's size, and when
    they happen to agree the copy writes the chunk at the indeterminate
    [block_index]. *)
Theorem unused_chunk_uses_uninitialised_locals
    mm (garbage : Z * Z) chunk_name (memory_chunks : list value_t) st :
  al_find chunk_name (ram_info mm) = None →
  al_find chunk_name (rom_info mm) = None →
  fill_block mm garbage chunk_name memory_chunks st =
    let log := init_log st ++ [unused_chunk_warning chunk_name] in
    if decide (garbage.1 ≠ Z.of_nat (length memory_chunks))
    then (log ++ [chunk_size_error chunk_name],
          Err (Exited (chunk_size_error chunk_name)))
    else match copy_into (init_memory st) garbage.2 memory_chunks with
         | Ok mem' =>
             (log, Ok (mkInit log mem'
                         (set_erase chunk_name (init_uninitialised st))))
         | Err f => (log, Err f)
         end.
Proof. intros Hram Hrom. unfold fill_block. rewrite Hram, Hrom. reflexivity. Qed.

(** The theorem at work: the chunk [nope] names no block of the identity
    register; with locals holding (1, 0) it replaces the word at index 0. *)
Lemma unused_chunk_uses_uninitialised_locals_witness :
  fill_block (MemoryMapper_new idreg_program) (1, 0) "nope" [7] (mkInit [] [0] [])
  = ([unused_chunk_warning "nope"],
     Ok (mkInit [unused_chunk_warning "nope"] [7] [])).
Proof.
  rewrite (unused_chunk_uses_uninitialised_locals
             (MemoryMapper_new idreg_program) (1, 0) "nope" [7] (mkInit [] [0] []));
    reflexivity.
Defined.

(** The copy is reached from the constructor: with the identity register,
    an unused chunk and locals that happen to hold (1, 0), the chunk
    overwrites the slot backing [REG a], and [o] reads 7 in the first cycle. *)
Lemma unused_chunk_overwrites_register :
  ∃ s s', Simulator_new idreg_schedule unused_memory_blocks unused_garbage
            idreg_program = ([unused_chunk_warning "nope"], Ok s) ∧
          memory s = [7] ∧
          cycle (λ _, 0) s = Ok s' ∧ env s' !! "o" = Some 7.
Proof.
  do 2 eexists. split; [vm_compute; reflexivity|].
  split; [reflexivity|]. split; vm_compute; reflexivity.
Qed.

(** ** The evaluation loop *)


(** Evaluating equations leaves the variables they do not define alone. *)
Lemma eval_equations_other p mm mem l env env' v :
  eval_equations p mm mem l env = Ok env' →
  (∀ w, w ∈ l → var_name w ≠ v) →
  env' !! v = env !! v.
Proof.
  revert env. induction l as [|var l IH]; intros env H Hne.
  - by injection H as <-.
  - simpl in H. inv_bind H. inv_bind H.
    rewrite (IH _ H) by (intros w Hw; apply Hne; by right).
    apply lookup_insert_ne, Hne. by left.
Qed.

(** An input that is already bound and that no scheduled equation defines
    keeps its value through a cycle, whatever value is supplied for it. *)
Lemma cycle_keeps_bound_input inputs s s' a x :
  cycle inputs s = Ok s' →
  env s !! a = Some x →
  (∀ w, w ∈ dep_list s → var_name w ≠ a) →
  env s' !! a = Some x.
Proof.
  unfold cycle. intros H Hx Hne.
  apply bind_Ok in H as (env2 & Heval & H).
  apply bind_Ok in H as (mem1 & _ & H).
  apply bind_Ok in H as (mem2 & _ & H).
  injection H as <-. simpl.
  rewrite (eval_equations_other _ _ _ _ _ _ a Heval Hne).
  by apply set_inputs_bound.
Qed.




(** The RAM scenario: a RAM of two 4-bit words, initially [0; 0].  In the
    first cycle (we=1, wa=0, wd=15, ra=0) the read yields the old word 0 and
    the memory holds 15 afterwards; the read of the second cycle yields 15. *)
Lemma ram_scenario :
  ∃ s s1 s2, Simulator_new ram_schedule [] no_garbage ram_program
               = ([ram_not_initialised "r"], Ok s) ∧
             memory s = [0; 0] ∧
             cycle ram_cycle1 s = Ok s1 ∧
             env s1 !! "r" = Some 0 ∧ memory s1 = [15; 0] ∧
             cycle ram_cycle2 s1 = Ok s2 ∧
             env s2 !! "r" = Some 15.
Proof.
  do 3 eexists. split; [vm_compute; reflexivity|].
  split; [reflexivity|]. split; [vm_compute; reflexivity|].
  split; [vm_compute; reflexivity|]. split; [reflexivity|].
  split; vm_compute; reflexivity.
Qed.

(** ** Association lists *)

Section alist_facts.
Context {V : Type}.
Implicit Types (l : list (ident_t * V)) (k : ident_t) (v : V).

Lemma al_find_elem_of k l v : al_find k l = Some v → (k, v) ∈ l.
Proof.
  induction l as [|[k' v'] l IH]; [done|]. simpl.
  destruct (decide (k' = k)) as [->|]; [intros [= ->]; by left|].
  intros H. right. by apply IH.
Qed.

Lemma al_emplace_elem_of k v l k' v' :
  (k', v') ∈ al_emplace k v l → (k', v') ∈ l ∨ (k', v') = (k, v).
Proof.
  unfold al_emplace. destruct (al_contains k l); [by left|].
  rewrite elem_of_app, list_elem_of_singleton. tauto.
Qed.

Lemma al_contains_true k l : al_contains k l = true → ∃ v, (k, v) ∈ l.
Proof.
  unfold al_contains. destruct (al_find k l) as [v|] eqn:H; [|done].
  intros _. exists v. by apply al_find_elem_of.
Qed.
End alist_facts.

(** ** The layout of the memory vector *)

Lemma block_size_of_range addr_size : 0 ≤ block_size_of addr_size < 2 ^ 64.
Proof. apply wrap64_range. Qed.

Lemma visit_size_nonneg e mm : 0 ≤ visit_size e mm.
Proof.
  destruct e; simpl; try lia; try apply block_size_of_range.
  destruct (al_contains _ _); lia.
Qed.

Lemma layout_ok_empty : layout_ok (mkMemoryMapper [] [] [] 0).
Proof.
  split; simpl; try (intros; exfalso; eapply not_elem_of_nil; eassumption).
  - lia.
  - constructor.
Qed.

Lemma layout_ok_visit var e mm :
  layout_ok mm →
  current_index mm + visit_size e mm < 2 ^ 64 →
  layout_ok (MemoryMapper_visit var e mm).
Proof.
  intros [Hi Hreg Hram Hrom Hnd Hrr Hro] Hfit.
  destruct e; simpl in *; try (by split).
  - (* REG *)
    destruct (al_contains (var_name v) (reg_info mm)) eqn:Hc; [by split|].
    unfold al_emplace. rewrite Hc.
    rewrite wrap64_small by lia.
    split; simpl.
    + lia.
    + intros u i [Hin|Hin%list_elem_of_singleton]%elem_of_app.
      * apply Hreg in Hin. lia.
      * injection Hin as -> ->. lia.
    + intros k info Hin. apply Hram in Hin. lia.
    + intros k info Hin. apply Hrom in Hin. lia.
    + rewrite fmap_app. apply NoDup_app. split; [done|]. split.
      * intros i Hin Hi'. simpl in Hi'. apply list_elem_of_singleton in Hi'.
        apply list_elem_of_fmap in Hin as ([u j] & Hj & Hin).
        apply Hreg in Hin. simpl in *. lia.
      * apply NoDup_singleton.
    + intros u i k info [Hin|Hin%list_elem_of_singleton]%elem_of_app Hk.
      * by eapply Hrr.
      * injection Hin as -> ->. apply Hram in Hk. lia.
    + intros u i k info [Hin|Hin%list_elem_of_singleton]%elem_of_app Hk.
      * by eapply Hro.
      * injection Hin as -> ->. apply Hrom in Hk. lia.
  - (* ROM *)
    pose proof (block_size_of_range addr_size) as Hb.
    rewrite wrap64_small by lia.
    split; simpl.
    + lia.
    + intros u i Hin. apply Hreg in Hin. lia.
    + intros k info Hin. apply Hram in Hin. lia.
    + intros k info [Hin|Hin]%al_emplace_elem_of.
      * apply Hrom in Hin. lia.
      * injection Hin as -> ->. simpl. lia.
    + done.
    + done.
    + intros u i k info Hu [Hin|Hin]%al_emplace_elem_of.
      * by eapply Hro.
      * injection Hin as -> ->. simpl. apply Hreg in Hu. lia.
  - (* RAM *)
    pose proof (block_size_of_range addr_size) as Hb.
    rewrite wrap64_small by lia.
    split; simpl.
    + lia.
    + intros u i Hin. apply Hreg in Hin. lia.
    + intros k info [Hin|Hin]%al_emplace_elem_of.
      * apply Hram in Hin. lia.
      * injection Hin as -> ->. simpl. lia.
    + intros k info Hin. apply Hrom in Hin. lia.
    + done.
    + intros u i k info Hu [Hin|Hin]%al_emplace_elem_of.
      * by eapply Hrr.
      * injection Hin as -> ->. simpl. apply Hreg in Hu. lia.
    + done.
Qed.

Lemma layout_ok_fold eqs mm :
  layout_ok mm → layout_fits eqs mm →
  layout_ok (foldl (λ mm '(var, eq), MemoryMapper_visit var eq mm) mm eqs).
Proof.
  revert mm. induction eqs as [|[var e] eqs IH]; intros mm Hok Hfit; [done|].
  simpl in *. destruct Hfit as [Hfit Hrest].
  apply IH; [by apply layout_ok_visit | done].
Qed.

(** When the memory vector fits [size_t], the mapper's layout is sound. *)
Lemma MemoryMapper_new_layout p : memory_fits p → layout_ok (MemoryMapper_new p).
Proof. intros H. apply layout_ok_fold; [apply layout_ok_empty | done]. Qed.

(** ** The memory vector *)

Lemma vec_get_Ok mem i x :
  vec_get mem i = Ok x ↔ 0 ≤ i ∧ mem !! Z.to_nat i = Some x.
Proof.
  unfold vec_get. destruct (decide (0 ≤ i)) as [Hi|Hi].
  - destruct (mem !! Z.to_nat i) as [y|]; simpl; split.
    + intros [= ->]. done.
    + intros [_ [= ->]]. done.
    + discriminate.
    + intros [_ [=]].
  - split; [discriminate|]. intros [? _]. lia.
Qed.

Lemma vec_set_Ok mem i v mem' :
  vec_set mem i v = Ok mem' →
  0 ≤ i < Z.of_nat (length mem) ∧ mem' = <[Z.to_nat i := v]> mem.
Proof.
  unfold vec_set. destruct (decide _) as [Hi|]; [|discriminate].
  intros [= <-]. done.
Qed.

Lemma copy_into_Ok mem idx chunk mem' :
  copy_into mem idx chunk = Ok mem' →
  length mem' = length mem ∧
  ∀ j, ¬ (idx ≤ Z.of_nat j < idx + Z.of_nat (length chunk)) → mem' !! j = mem !! j.
Proof.
  unfold copy_into. destruct (decide _) as [[H0 Hle]|]; [|discriminate].
  intros [= <-]. split.
  - rewrite !length_app, length_take, length_drop. lia.
  - intros j Hj. destruct (decide (Z.of_nat j < idx)) as [Hlt|Hge].
    + rewrite lookup_app_l by (rewrite length_take; lia).
      apply lookup_take_lt. lia.
    + rewrite lookup_app_r by (rewrite length_take; lia).
      rewrite length_take.
      rewrite lookup_app_r by lia.
      rewrite lookup_drop. f_equal. lia.
Qed.

(** ** Saving the registers and writing the RAM *)

Lemma save_registers_length env regs mem mem' :
  save_registers env regs mem = Ok mem' → length mem' = length mem.
Proof.
  revert mem. induction regs as [|[u i] regs IH]; intros mem H.
  - by injection H as <-.
  - simpl in H. apply bind_Ok in H as (x & Hx & H).
    apply bind_Ok in H as (mem1 & Hset & H).
    apply vec_set_Ok in Hset as [_ ->].
    rewrite (IH _ H). apply length_insert.
Qed.

Lemma save_registers_frame env regs mem mem' i :
  save_registers env regs mem = Ok mem' →
  0 ≤ i → i ∉ regs.*2 →
  mem' !! Z.to_nat i = mem !! Z.to_nat i.
Proof.
  revert mem. induction regs as [|[u j] regs IH]; intros mem H Hi Hnot.
  - by injection H as <-.
  - simpl in H. apply bind_Ok in H as (x & Hx & H).
    apply bind_Ok in H as (mem1 & Hset & H).
    apply vec_set_Ok in Hset as [Hj ->].
    simpl in Hnot. apply not_elem_of_cons in Hnot as [Hne Hnot].
    rewrite (IH _ H Hi Hnot).
    apply list_lookup_insert_ne. lia.
Qed.


Lemma ram_writes_length env rams mem mem' :
  ram_writes env rams mem = Ok mem' → length mem' = length mem.
Proof.
  revert mem. induction rams as [|[k info] rams IH]; intros mem H.
  - by injection H as <-.
  - simpl in H. apply bind_Ok in H as (we & Hwe & H).
    destruct (decide (we ≠ 0)); [|by apply IH].
    apply bind_Ok in H as (d & Hd & H).
    apply bind_Ok in H as (wa & Hwa & H).
    apply bind_Ok in H as (mem1 & Hset & H).
    apply vec_set_Ok in Hset as [_ ->].
    rewrite (IH _ H). apply length_insert.
Qed.

(** A word that no enabled write addresses is left alone by the loop that
    performs the RAM writes. *)
Lemma ram_writes_frame env rams mem mem' i :
  ram_writes env rams mem = Ok mem' →
  0 ≤ i →
  (∀ k info we wa, (k, info) ∈ rams →
     eval_arg env (write_enable info) = Ok we → we ≠ 0 →
     eval_arg env (write_addr info) = Ok wa →
     wrap64 (ram_block_index info + wa) ≠ i) →
  mem' !! Z.to_nat i = mem !! Z.to_nat i.
Proof.
  revert mem. induction rams as [|[k info] rams IH]; intros mem H Hi Hne.
  - by injection H as <-.
  - simpl in H. apply bind_Ok in H as (we & Hwe & H).
    assert (Hrest : ∀ k info we wa, (k, info) ∈ rams →
              eval_arg env (write_enable info) = Ok we → we ≠ 0 →
              eval_arg env (write_addr info) = Ok wa →
              wrap64 (ram_block_index info + wa) ≠ i).
    { intros k' info' we' wa' Hin. apply (Hne k'). by right. }
    destruct (decide (we ≠ 0)) as [Hen|]; [|by apply IH].
    apply bind_Ok in H as (d & Hd & H).
    apply bind_Ok in H as (wa & Hwa & H).
    apply bind_Ok in H as (mem1 & Hset & H).
    apply vec_set_Ok in Hset as [Hr ->].
    rewrite (IH _ H Hi Hrest).
    apply list_lookup_insert_ne.
    specialize (Hne k info we wa (list_elem_of_here _ _) Hwe Hen Hwa). lia.
Qed.


(** ** Registers *)


Lemma cycle_fields inputs s s' :
  cycle inputs s = Ok s' →
  prog s' = prog s ∧ dep_list s' = dep_list s ∧ mem_map s' = mem_map s.
Proof.
  unfold cycle. intros H.
  apply bind_Ok in H as (env2 & _ & H).
  apply bind_Ok in H as (mem1 & _ & H).
  apply bind_Ok in H as (mem2 & _ & H).
  by injection H as <-.
Qed.

Lemma simulate_fields ins s s' :
  simulate ins s = Ok s' →
  prog s' = prog s ∧ dep_list s' = dep_list s ∧ mem_map s' = mem_map s.
Proof.
  revert s. induction ins as [|i ins IH]; intros s H.
  - by injection H as <-.
  - simpl in H. apply bind_Ok in H as (s1 & Hc & H).
    destruct (cycle_fields _ _ _ Hc) as (Hp & Hd & Hm).
    destruct (IH _ H) as (Hp' & Hd' & Hm'). repeat split; congruence.
Qed.



(** ** Construction *)

Lemma al_contains_find {V} k (l : list (ident_t * V)) :
  al_contains k l = true → ∃ v, al_find k l = Some v.
Proof. unfold al_contains. destruct (al_find k l); [eauto|done]. Qed.



Lemma Simulator_new_fields dep blocks garbage p log s :
  Simulator_new dep blocks garbage p = (log, Ok s) →
  prog s = p ∧ dep_list s = dep ∧ mem_map s = MemoryMapper_new p.
Proof.
  unfold Simulator_new. intros H.
  destruct (fill_blocks _ _ _ _) as [log1 [st|f]]; [|done].
  by injection H as _ <-.
Qed.




(** ** The parser *)

(** C7 (violated by the code): [o] has width 1 and [CONCAT a a] has width 2,
    yet the program is accepted: the comparison of the two bus sizes in
    [parse_equations] guards an empty block. *)
Theorem width_mismatch_is_accepted :
  ∃ p, parse_program mismatch_source = Ok p ∧
       al_find "o" (m_eq p) = Some mismatch_expression ∧
       al_find "o" (map (λ v, (var_name v, v)) (m_vars p)) = Some idreg_o ∧
       Expression_get_bus_size mismatch_expression = 2 ∧
       var_bus_size idreg_o = 1.
Proof. eexists. split; [vm_compute; reflexivity|]. repeat split. Qed.

(** C8 (violated by the code): [o] is assigned twice.  The program is
    accepted and [try_emplace] drops the second equation. *)
Theorem duplicate_equation_is_dropped :
  ∃ p, parse_program duplicate_source = Ok p ∧
       m_eq p = [("o", ArgExpression (ArgVariable idreg_a))].
Proof. eexists. split; vm_compute; reflexivity. Qed.

(** The bus-size comparison of [parse_equations] has no effect: both of its
    branches continue with the same program. *)
Lemma parse_equation_ignores_width st p p' st' :
  parse_equation st p = Ok (p', st') →
  ∃ v eq, al_find (spelling (m_token st)) (vars st) = Some v ∧
          parse_expression (consume (consume st)) = Ok (eq, st') ∧
          m_eq p' = al_emplace (var_name v) eq (m_eq p).
Proof.
  unfold parse_equation. intros H.
  inv_bind H. destruct (al_find _ (vars st)) as [v|]; [|discriminate].
  inv_bind H. inv_bind H. destruct a1 as [eq st3].
  destruct (decide _); injection H as <- <-; eauto.
Qed.

(** An equation for a variable that already has one is parsed and then
    dropped: [try_emplace] leaves the equations as they were. *)
Lemma parse_equation_duplicate st p p' st' :
  parse_equation st p = Ok (p', st') →
  al_contains (spelling (m_token st)) (m_eq p) = true →
  (∀ v, al_find (spelling (m_token st)) (vars st) = Some v →
        var_name v = spelling (m_token st)) →
  m_eq p' = m_eq p.
Proof.
  intros H Hc Hname.
  apply parse_equation_ignores_width in H as (v & eq & Hv & _ & ->).
  unfold al_emplace. by rewrite (Hname v Hv), Hc.
Qed.

(** C9 as the code has it: once its indices and its argument are parsed, a
    slice is accepted exactly when [beg < end < width arg]; it is then the
    slice expression of these operands, of width [end - beg + 1]; any other
    slice ends the parse with an error report. *)
Theorem slice_accepted_iff beg end_ arg :
  (slice_expression beg end_ arg = Ok (SliceExpression beg end_ arg)
     ↔ beg < end_ < Argument_get_bus_size arg) ∧
  (∀ e, slice_expression beg end_ arg = Ok e →
        e = SliceExpression beg end_ arg ∧
        (0 ≤ beg → end_ ≤ max_bus_size →
         Expression_get_bus_size e = end_ - beg + 1)) ∧
  (¬ (beg < end_ < Argument_get_bus_size arg) →
        ∃ r, slice_expression beg end_ arg = Err (Exited r) ∧ severity r = ERROR).
Proof.
  unfold slice_expression, assert_bus_size_gt, exit.
  destruct (decide (end_ ≤ beg)) as [Hle|Hlt].
  - split; [split; [discriminate|lia]|]. split; [discriminate|].
    intros _. eexists. split; reflexivity.
  - destruct (decide (Argument_get_bus_size arg ≤ end_)) as [Hge|Hok]; simpl.
    + split; [split; [discriminate|lia]|]. split; [discriminate|].
      intros _. eexists. split; reflexivity.
    + split; [split; [intros _; lia|done]|]. split.
      * intros e [= <-]. split; [done|]. intros Hb He. simpl.
        unfold wrap32, max_bus_size in *. apply Z.mod_small. lia.
      * intros Hn. lia.
Qed.

(** C9 as stated fails at [SLICE 0 0 a] with [a] of width 1: the bounds
    satisfy [s ≤ e < width a], and the slice is rejected. *)
Lemma slice_equal_bounds_rejected :
  (0 ≤ 0 ∧ 0 < Argument_get_bus_size (ArgVariable idreg_a)) ∧
  slice_expression 0 0 (ArgVariable idreg_a) =
    Err (Exited (parse_error
      "The beginning of the interval ({}) must be less than the end of the interval ({})."
      "")).
Proof. split; [split; [done|reflexivity]|reflexivity]. Qed.

(** In [parse_expression], the [SLICE] keyword leads to [slice_expression]
    on the operands that follow. *)
Lemma parse_expression_slice st beg st1 end_ st2 arg st3 :
  kind (m_token st) = KEY_SLICE →
  parse_bus_size (consume st) = Ok (beg, st1) →
  parse_bus_size st1 = Ok (end_, st2) →
  parse_argument st2 = Ok (arg, st3) →
  parse_expression st = e ← slice_expression beg end_ arg; Ok (e, st3).
Proof.
  intros Hk H1 H2 H3. unfold parse_expression. rewrite Hk, H1. simpl.
  rewrite H2. simpl. rewrite H3. reflexivity.
Qed.

(** ** The fuel of the parser's loops

    Every parsing function consumes at least one token when it succeeds and
    never runs out of fuel, so the fuel given to the loops of
    [parse_program] is never exhausted. *)

Lemma consume_lt st :
  kind (m_token st) ≠ EOI → (remaining (consume st) < remaining st)%nat.
Proof.
  unfold remaining, consume, m_token. destruct (tokens st); simpl; [done|lia].
Qed.

Lemma consume_le st : (remaining (consume st) ≤ remaining st)%nat.
Proof. unfold remaining, consume. destruct (tokens st); simpl; lia. Qed.

Lemma token_assert_spec st k :
  match token_assert st k with
  | Ok _ => kind (m_token st) = k
  | Err f => f ≠ OutOfFuel
  end.
Proof.
  unfold token_assert, unexpected_token, exit.
  destruct (decide _) as [|Hk]; [done|]. by apply dec_stable.
Qed.

Lemma token_assert_set_no_fuel st ks : token_assert_set st ks ≠ Err OutOfFuel.
Proof. unfold token_assert_set, unexpected_token, exit. by case_decide. Qed.

Lemma parse_int_no_fuel max token base :
  parse_int max token base ≠ Err OutOfFuel.
Proof.
  unfold parse_int, exit. destruct (from_chars _ _ _ _) as [[v count] rest].
  repeat case_decide; done.
Qed.

Ltac use_token_assert st k :=
  let H := fresh "Hk" in
  pose proof (token_assert_spec st k) as H;
  destruct (token_assert st k) as [[]|?]; simpl; [|exact H].

Ltac use_parse_int :=
  match goal with
  | |- context [parse_int ?m ?t ?b] =>
      let H := fresh "Hint" in
      pose proof (parse_int_no_fuel m t b) as H;
      destruct (parse_int m t b) as [?|?]; simpl; [|congruence]
  end.

Lemma parse_bus_size_consumes st : consumes true st (parse_bus_size st).
Proof.
  unfold parse_bus_size. use_token_assert st INTEGER. use_parse_int.
  unfold exit. case_decide; simpl; [done|].
  apply consume_lt. by rewrite Hk.
Qed.

Lemma parse_size_spec_consumes st : consumes false st (parse_size_spec st).
Proof.
  unfold parse_size_spec. case_decide as Hk; simpl; [|done].
  pose proof (parse_bus_size_consumes (consume st)) as H.
  destruct (parse_bus_size (consume st)) as [[bs st']|f]; simpl in *; [|done].
  pose proof (consume_le st). lia.
Qed.

Lemma parse_binary_digits_consumes st : consumes true st (parse_binary_digits st).
Proof.
  unfold parse_binary_digits. use_token_assert st INTEGER. use_parse_int.
  apply consume_lt. by rewrite Hk.
Qed.

Ltac use_size_spec st :=
  let H := fresh "Hspec" in
  let Hlt := fresh "Hlt" in
  assert (Hlt : (remaining (consume st) < remaining st)%nat)
    by (apply consume_lt; congruence);
  pose proof (parse_size_spec_consumes (consume st)) as H;
  destruct (parse_size_spec (consume st)) as [[[size|] st']|f]; simpl in *;
  [| |done]; unfold exit; repeat case_decide; simpl; try done; try lia.

Lemma parse_binary_constant_consumes st :
  consumes true st (parse_binary_constant st).
Proof.
  unfold parse_binary_constant. use_token_assert st BINARY_CONSTANT.
  use_parse_int. use_size_spec st.
Qed.

Lemma parse_decimal_constant_consumes st :
  consumes true st (parse_decimal_constant st).
Proof.
  unfold parse_decimal_constant. use_token_assert st DECIMAL_CONSTANT.
  use_parse_int. use_size_spec st.
Qed.

Lemma parse_hexadecimal_constant_consumes st :
  consumes true st (parse_hexadecimal_constant st).
Proof.
  unfold parse_hexadecimal_constant. use_token_assert st HEXADECIMAL_CONSTANT.
  use_parse_int. use_size_spec st.
Qed.

Lemma parse_variable_consumes st : consumes true st (parse_variable st).
Proof.
  unfold parse_variable. use_token_assert st IDENTIFIER.
  destruct (al_find _ _); simpl; [|done]. apply consume_lt. by rewrite Hk.
Qed.

Lemma parse_constant_with_consumes f st :
  consumes true st (f st) → consumes true st (parse_constant_with f st).
Proof.
  unfold parse_constant_with. destruct (f st) as [[c st']|e]; simpl; done.
Qed.

Lemma parse_argument_consumes st : consumes true st (parse_argument st).
Proof.
  unfold parse_argument.
  destruct (kind (m_token st)); try done.
  - pose proof (parse_variable_consumes st) as H.
    by destruct (parse_variable st) as [[v st']|e].
  - apply parse_constant_with_consumes, parse_binary_digits_consumes.
  - apply parse_constant_with_consumes, parse_binary_constant_consumes.
  - apply parse_constant_with_consumes, parse_decimal_constant_consumes.
  - apply parse_constant_with_consumes, parse_hexadecimal_constant_consumes.
Qed.

Ltac use_consumes lem st :=
  let H := fresh "Hc" in
  pose proof (lem st) as H;
  match type of H with
  | consumes _ _ ?r => destruct r as [[? ?]|?]; simpl in H |- *; [|exact H]
  end.

Ltac use_assert :=
  unfold assert_bus_size_eq, assert_bus_size_gt, assert_same_bus_size, exit;
  repeat case_decide; simpl; try done.

Ltac finish := unfold remaining, consume in *; simpl in *; lia.

Ltac parse_step :=
  match goal with
  | |- context [parse_argument ?st] => use_consumes parse_argument_consumes st
  | |- context [parse_bus_size ?st] => use_consumes parse_bus_size_consumes st
  | |- context [parse_variable ?st] => use_consumes parse_variable_consumes st
  | |- context [assert_bus_size_eq _ _] => use_assert
  | |- context [assert_bus_size_gt _ _] => use_assert
  | |- context [assert_same_bus_size _ _] => use_assert
  end.

Lemma parse_expression_consumes st : consumes true st (parse_expression st).
Proof.
  pose proof (consume_le st) as Hle.
  unfold parse_expression, parse_binop, slice_expression, unexpected_token.
  destruct (kind (m_token st)) eqn:Hk; try done.
  - use_consumes parse_variable_consumes st. done.
  - use_consumes parse_binary_digits_consumes st. done.
  - use_consumes parse_binary_constant_consumes st. done.
  - use_consumes parse_decimal_constant_consumes st. done.
  - use_consumes parse_hexadecimal_constant_consumes st. done.
  - repeat parse_step. finish.
  - repeat parse_step. finish.
  - repeat parse_step. finish.
  - repeat parse_step. finish.
  - repeat parse_step. finish.
  - repeat parse_step. finish.
  - repeat parse_step. finish.
  - repeat parse_step. finish.
  - repeat parse_step. finish.
  - repeat parse_step. unfold exit. repeat case_decide; simpl; try done.
    finish.
  - repeat parse_step. finish.
  - repeat parse_step. finish.
Qed.

Lemma parse_equation_consumes st p :
  match parse_equation st p with
  | Ok (_, st') => (remaining st' < remaining st)%nat
  | Err f => f ≠ OutOfFuel
  end.
Proof.
  unfold parse_equation. use_token_assert st IDENTIFIER.
  destruct (al_find _ _) as [v|]; simpl; [|done].
  use_token_assert (consume st) EQUAL.
  use_consumes parse_expression_consumes (consume (consume st)).
  pose proof (consume_le st). pose proof (consume_le (consume st)). lia.
Qed.

Lemma equations_loop_fuel fuel st p :
  (remaining st < fuel)%nat →
  match equations_loop fuel st p with
  | Ok (_, st') => (remaining st' ≤ remaining st)%nat
  | Err f => f ≠ OutOfFuel
  end.
Proof.
  revert st p. induction fuel as [|fuel IH]; intros st p Hf; [lia|].
  simpl. case_decide as Hkind; [done|].
  pose proof (parse_equation_consumes st p) as Hpe.
  destruct (parse_equation st p) as [[p' st']|f]; simpl; [|done].
  specialize (IH st' p' ltac:(lia)).
  destruct (equations_loop fuel st' p') as [[p'' st'']|f]; [lia|done].
Qed.

Lemma references_loop_fuel stop msg fuel var st :
  (remaining st < fuel)%nat →
  match references_loop stop msg fuel var st with
  | Ok (_, st') => (remaining st' ≤ remaining st)%nat
  | Err f => f ≠ OutOfFuel
  end.
Proof.
  revert st var. induction fuel as [|fuel IH]; intros st var Hf; [lia|].
  simpl. case_decide as Hstop; [done|].
  use_token_assert st IDENTIFIER.
  unfold exit. case_decide as Hdup; [done|].
  pose proof (token_assert_set_no_fuel (consume st) [COMMA; stop]) as Hset.
  destruct (token_assert_set (consume st) [COMMA; stop]) as [[]|f]; simpl;
    [|congruence].
  assert (Hlt : (remaining (consume st) < remaining st)%nat)
    by (apply consume_lt; congruence).
  pose proof (consume_le (consume st)) as Hle.
  match goal with
  | |- context [references_loop stop msg fuel ?v ?s] =>
      specialize (IH s v);
      destruct (references_loop stop msg fuel v s) as [[? ?]|?]
  end.
  - case_decide; (lapply IH; [lia | lia]).
  - case_decide; (lapply IH; [done | lia]).
Qed.

Lemma variable_declaration_loop_fuel fuel st :
  (remaining st < fuel)%nat →
  match variable_declaration_loop fuel st with
  | Ok st' => (remaining st' ≤ remaining st)%nat
  | Err f => f ≠ OutOfFuel
  end.
Proof.
  revert st. induction fuel as [|fuel IH]; intros st Hf; [lia|].
  simpl. case_decide as Hin; [done|].
  use_token_assert st IDENTIFIER.
  assert (Hlt : (remaining (consume st) < remaining st)%nat)
    by (apply consume_lt; congruence).
  assert (Hsize : match (if decide (kind (m_token (consume st)) = COLON)
                         then parse_bus_size (consume (consume st))
                         else Ok (1, consume st)) with
                  | Ok (_, st2) => (remaining st2 ≤ remaining (consume st))%nat
                  | Err f => f ≠ OutOfFuel
                  end).
  { case_decide; simpl; [|done].
    pose proof (parse_bus_size_consumes (consume (consume st))) as H'.
    pose proof (consume_le (consume st)).
    destruct (parse_bus_size _) as [[? ?]|?]; simpl in *; [lia|done]. }
  destruct (if decide (kind (m_token (consume st)) = COLON) then _ else _)
    as [[v_size st2]|f]; simpl; [|done].
  unfold exit. destruct (al_contains _ _); [done|].
  match goal with
  | |- context [token_assert_set ?s ?ks] =>
      pose proof (token_assert_set_no_fuel s ks) as Hset;
      destruct (token_assert_set s ks) as [[]|f]; simpl; [|congruence]
  end.
  case_decide as Hcomma.
  - match goal with
    | |- context [token_assert ?s IDENTIFIER] =>
        use_token_assert s IDENTIFIER;
        pose proof (consume_le s); specialize (IH s)
    end.
    pose proof (consume_le st2).
    unfold remaining in *. simpl in *.
    destruct (variable_declaration_loop fuel _) as [?|?];
      (lapply IH; [intros; lia || done | lia]).
  - match goal with
    | |- context [variable_declaration_loop fuel ?s] => specialize (IH s)
    end.
    unfold remaining in *. simpl in *.
    destruct (variable_declaration_loop fuel _) as [?|?];
      (lapply IH; [intros; lia || done | lia]).
Qed.

Lemma resolve_references_no_fuel msg st refs :
  resolve_references msg st refs ≠ Err OutOfFuel.
Proof.
  induction refs as [|r refs IH]; simpl; [done|].
  destruct (al_find r (vars st)); [|done].
  destruct (resolve_references msg st refs); simpl; [done|congruence].
Qed.

Lemma check_declared_no_fuel in_refs p decls :
  check_declared in_refs p decls ≠ Err OutOfFuel.
Proof.
  revert p. induction decls as [|[k v] decls IH]; intros p; simpl; [done|].
  destruct (_ || _); [apply IH|done].
Qed.

#[local] Arguments references_loop : simpl never.
#[local] Arguments variable_declaration_loop : simpl never.
#[local] Arguments equations_loop : simpl never.

Lemma parse_program_fuel_aux toks :
  match parse_program toks with
  | Ok _ => True
  | Err f => f ≠ OutOfFuel
  end.
Proof.
  unfold parse_program, parse_inputs_references, parse_outputs_references,
    parse_variable_declaration, parse_equations, build_intput_output_list.
  set (st0 := mkParser toks [] []).
  use_token_assert st0 KEY_INPUT.
  pose proof (references_loop_fuel KEY_OUTPUT
    "The variable '{}' has already been marked as input at {}."
    (S (length (tokens (consume st0)))) [] (consume st0)) as H1.
  destruct (references_loop KEY_OUTPUT _ _ _ _) as [[in_refs st1]|f]; simpl;
    [clear H1|apply H1; unfold remaining, consume; simpl; lia].
  use_token_assert st1 KEY_OUTPUT.
  pose proof (references_loop_fuel KEY_VAR
    "The variable '{}' has already been marked as output at {}."
    (S (length (tokens (consume st1)))) [] (consume st1)) as H2.
  destruct (references_loop KEY_VAR _ _ _ _) as [[out_refs st2]|f]; simpl;
    [clear H2|apply H2; unfold remaining, consume; simpl; lia].
  use_token_assert st2 KEY_VAR.
  pose proof (variable_declaration_loop_fuel
    (S (length (tokens (consume st2)))) (consume st2)) as H3.
  destruct (variable_declaration_loop _ _) as [st3|f]; simpl;
    [clear H3|apply H3; unfold remaining, consume; simpl; lia].
  pose proof (resolve_references_no_fuel
    "Missing declaration of input '{}' in the variable section." st3 in_refs).
  destruct (resolve_references _ st3 in_refs) as [ins|f]; simpl; [|congruence].
  pose proof (resolve_references_no_fuel
    "Missing declaration of output '{}' in the variable section." st3 out_refs).
  destruct (resolve_references _ st3 out_refs) as [outs|f]; simpl; [|congruence].
  use_token_assert st3 KEY_IN.
  match goal with
  | |- context [equations_loop ?n ?s ?p] =>
      pose proof (equations_loop_fuel n s p) as H4;
      destruct (equations_loop n s p) as [[p' st4]|f]; simpl;
        [|apply H4; unfold remaining, consume; simpl; lia]
  end.
  pose proof (check_declared_no_fuel in_refs p' (vars st4)).
  destruct (check_declared in_refs p' (vars st4)); [done|congruence].
Qed.

(** The fuel is a device of the model only: parsing never fails for lack of
    fuel, on any token stream. *)
Theorem parse_program_fuel toks : parse_program toks ≠ Err OutOfFuel.
Proof.
  pose proof (parse_program_fuel_aux toks) as H.
  destruct (parse_program toks); [done|congruence].
Qed.

(** * Further properties of the simulator *)

(** ** More on association lists *)

Section alist_more.
Context {V : Type}.
Implicit Types (l : list (ident_t * V)) (k : ident_t) (v : V).

Lemma al_find_None k l : al_find k l = None ↔ k ∉ l.*1.
Proof.
  induction l as [|[k' v'] l IH]; simpl.
  - split; [intros _; apply not_elem_of_nil | done].
  - destruct (decide (k' = k)) as [->|Hne].
    + split; [done|]. intros H. exfalso. apply H. by left.
    + rewrite IH. rewrite not_elem_of_cons. naive_solver.
Qed.

Lemma al_contains_false k l : al_contains k l = false ↔ k ∉ l.*1.
Proof.
  rewrite <- al_find_None. unfold al_contains.
  destruct (al_find k l); split; congruence.
Qed.

Lemma al_find_app_l k l l' v :
  al_find k l = Some v → al_find k (l ++ l') = Some v.
Proof.
  induction l as [|[k' v'] l IH]; simpl; [done|].
  destruct (decide (k' = k)); [done|apply IH].
Qed.

Lemma al_find_app_r k l l' :
  al_find k l = None → al_find k (l ++ l') = al_find k l'.
Proof.
  induction l as [|[k' v'] l IH]; simpl; [done|].
  destruct (decide (k' = k)); [done|apply IH].
Qed.

Lemma al_find_emplace_same k v l :
  al_find k l = None → al_find k (al_emplace k v l) = Some v.
Proof.
  intros H. unfold al_emplace, al_contains. rewrite H.
  rewrite al_find_app_r by done. simpl. by rewrite decide_True.
Qed.

Lemma al_find_emplace_Some k v l k' x :
  al_find k' l = Some x → al_find k' (al_emplace k v l) = Some x.
Proof.
  intros H. unfold al_emplace. destruct (al_contains k l); [done|].
  by apply al_find_app_l.
Qed.

Lemma al_find_emplace_ne k v l k' :
  k ≠ k' → al_find k' (al_emplace k v l) = al_find k' l.
Proof.
  intros Hne. unfold al_emplace. destruct (al_contains k l); [done|].
  destruct (al_find k' l) as [x|] eqn:Hf.
  - by apply al_find_app_l.
  - rewrite al_find_app_r by done. simpl. by rewrite decide_False.
Qed.

Lemma al_emplace_keys k v l : NoDup l.*1 → NoDup (al_emplace k v l).*1.
Proof.
  intros Hnd. unfold al_emplace. destruct (al_contains k l) eqn:Hc; [done|].
  apply al_contains_false in Hc.
  rewrite fmap_app. apply NoDup_app. split; [done|]. split.
  - intros x Hx Hx'. simpl in Hx'. apply list_elem_of_singleton in Hx'.
    congruence.
  - apply NoDup_singleton.
Qed.

Lemma al_find_NoDup k v l : NoDup l.*1 → (k, v) ∈ l → al_find k l = Some v.
Proof.
  induction l as [|[k' v'] l IH]; simpl; intros Hnd Hin.
  - by apply not_elem_of_nil in Hin.
  - apply NoDup_cons in Hnd as [Hk' Hnd].
    apply elem_of_cons in Hin as [[= -> ->]|Hin]; [by rewrite decide_True|].
    destruct (decide (k' = k)) as [->|]; [|by apply IH].
    exfalso. apply Hk'. apply list_elem_of_fmap. by exists (k, v).
Qed.
End alist_more.

(** ** Blocks of the memory vector do not overlap *)

Lemma blocks_disjoint_empty : blocks_disjoint (mkMemoryMapper [] [] [] 0).
Proof.
  split; simpl; try constructor;
    intros; exfalso; eapply not_elem_of_nil; eassumption.
Qed.

Lemma blocks_disjoint_visit var e mm :
  layout_ok mm → blocks_disjoint mm →
  current_index mm + visit_size e mm < 2 ^ 64 →
  blocks_disjoint (MemoryMapper_visit var e mm).
Proof.
  intros [Hi Hreg Hram Hrom _ _ _] [Kreg Kram Krom Haa Hoo Hao] Hfit.
  destruct e; simpl in *; try (by split).
  - (* REG *)
    destruct (al_contains (var_name v) (reg_info mm)) eqn:Hc; [by split|].
    split; simpl; try done.
    apply al_emplace_keys, Kreg.
  - (* ROM *)
    pose proof (block_size_of_range addr_size) as Hb.
    split; simpl; try done.
    + apply al_emplace_keys, Krom.
    + intros k info k' info' [Hin|Hin]%al_emplace_elem_of
        [Hin'|Hin']%al_emplace_elem_of Hne.
      * by eapply Hoo.
      * injection Hin' as -> ->. apply Hrom in Hin. left. simpl. lia.
      * injection Hin as -> ->. apply Hrom in Hin'. right. simpl. lia.
      * congruence.
    + intros k info k' info' Hin [Hin'|Hin']%al_emplace_elem_of.
      * by eapply Hao.
      * injection Hin' as -> ->. apply Hram in Hin. left. simpl. lia.
  - (* RAM *)
    pose proof (block_size_of_range addr_size) as Hb.
    split; simpl; try done.
    + apply al_emplace_keys, Kram.
    + intros k info k' info' [Hin|Hin]%al_emplace_elem_of
        [Hin'|Hin']%al_emplace_elem_of Hne.
      * by eapply Haa.
      * injection Hin' as -> ->. apply Hram in Hin. left. simpl. lia.
      * injection Hin as -> ->. apply Hram in Hin'. right. simpl. lia.
      * congruence.
    + intros k info k' info' [Hin|Hin]%al_emplace_elem_of Hin'.
      * by eapply Hao.
      * injection Hin as -> ->. apply Hrom in Hin'. right. simpl. lia.
Qed.

Lemma blocks_disjoint_fold eqs mm :
  layout_ok mm → blocks_disjoint mm → layout_fits eqs mm →
  blocks_disjoint (foldl (λ mm '(var, eq), MemoryMapper_visit var eq mm) mm eqs).
Proof.
  revert mm. induction eqs as [|[var e] eqs IH]; intros mm Hok Hd Hfit; [done|].
  simpl in *. destruct Hfit as [Hfit Hrest].
  apply IH; [by apply layout_ok_visit | by apply blocks_disjoint_visit | done].
Qed.

Lemma MemoryMapper_new_disjoint p :
  memory_fits p → blocks_disjoint (MemoryMapper_new p).
Proof.
  intros H. apply blocks_disjoint_fold;
    [apply layout_ok_empty | apply blocks_disjoint_empty | done].
Qed.

(** ** What the mapper records *)

Lemma visit_keeps var e mm :
  (∀ k x, al_find k (reg_info mm) = Some x →
          al_find k (reg_info (MemoryMapper_visit var e mm)) = Some x) ∧
  (∀ k x, al_find k (ram_info mm) = Some x →
          al_find k (ram_info (MemoryMapper_visit var e mm)) = Some x) ∧
  (∀ k x, al_find k (rom_info mm) = Some x →
          al_find k (rom_info (MemoryMapper_visit var e mm)) = Some x).
Proof.
  destruct e; simpl; try done.
  - destruct (al_contains _ _); [done|]. simpl.
    split; [|done]. intros k x. apply al_find_emplace_Some.
  - split; [done|]. split; [done|]. intros k x. apply al_find_emplace_Some.
  - split; [done|]. split; [|done]. intros k x. apply al_find_emplace_Some.
Qed.

Lemma fold_keeps eqs mm :
  (∀ k x, al_find k (reg_info mm) = Some x →
          al_find k (reg_info (mapper_fold mm eqs)) = Some x) ∧
  (∀ k x, al_find k (ram_info mm) = Some x →
          al_find k (ram_info (mapper_fold mm eqs)) = Some x) ∧
  (∀ k x, al_find k (rom_info mm) = Some x →
          al_find k (rom_info (mapper_fold mm eqs)) = Some x).
Proof.
  revert mm. induction eqs as [|[var e] eqs IH]; intros mm; [done|]. simpl.
  destruct (IH (MemoryMapper_visit var e mm)) as (Hreg & Hram & Hrom).
  destruct (visit_keeps var e mm) as (Hreg' & Hram' & Hrom').
  repeat split; intros k x H; auto.
Qed.

(** The source of every REG equation has a slot. *)
Lemma mapper_reg_complete eqs mm k u :
  (k, RegExpression u) ∈ eqs →
  ∃ i, al_find (var_name u) (reg_info (mapper_fold mm eqs)) = Some i.
Proof.
  revert mm. induction eqs as [|[var e] eqs IH]; intros mm Hin.
  - by apply not_elem_of_nil in Hin.
  - apply elem_of_cons in Hin as [[= <- <-]|Hin]; [|by apply IH].
    simpl. destruct (al_find (var_name u) (reg_info mm)) as [i|] eqn:Hf.
    + exists i. apply fold_keeps.
      unfold al_contains. by rewrite Hf.
    + exists (current_index mm). apply fold_keeps.
      unfold al_contains. rewrite Hf. simpl.
      by apply al_find_emplace_same.
Qed.

(** The first equation of a name, when it is a RAM, gives the name its
    entry of the RAM table, with the equation's write arguments and a block
    of [2^addr_size] words. *)
Lemma mapper_ram_complete eqs mm v addr_size word_size ra we wa wd :
  al_find v eqs = Some (RamExpression addr_size word_size ra we wa wd) →
  al_find v (ram_info mm) = None →
  ∃ idx, al_find v (ram_info (mapper_fold mm eqs))
           = Some (mkRamInfo we wa wd idx (block_size_of addr_size)).
Proof.
  revert mm. induction eqs as [|[var e] eqs IH]; intros mm Hf Hnone; [done|].
  simpl in Hf. destruct (decide (var = v)) as [->|Hne].
  - injection Hf as ->. exists (current_index mm). simpl.
    apply fold_keeps. simpl. by apply al_find_emplace_same.
  - simpl. apply IH; [done|].
    destruct e; simpl; try done.
    + by destruct (al_contains _ _).
    + by rewrite al_find_emplace_ne.
Qed.

Lemma mapper_rom_complete eqs mm v addr_size word_size ra :
  al_find v eqs = Some (RomExpression addr_size word_size ra) →
  al_find v (rom_info mm) = None →
  ∃ idx, al_find v (rom_info (mapper_fold mm eqs))
           = Some (mkRomInfo idx (block_size_of addr_size)).
Proof.
  revert mm. induction eqs as [|[var e] eqs IH]; intros mm Hf Hnone; [done|].
  simpl in Hf. destruct (decide (var = v)) as [->|Hne].
  - injection Hf as ->. exists (current_index mm). simpl.
    apply fold_keeps. simpl. by apply al_find_emplace_same.
  - simpl. apply IH; [done|].
    destruct e; simpl; try done.
    + by destruct (al_contains _ _).
    + by rewrite al_find_emplace_ne.
Qed.

(** Every entry of the tables comes from an equation. *)
Lemma mapper_reg_sound eqs mm u i :
  (u, i) ∈ reg_info (mapper_fold mm eqs) →
  (u, i) ∈ reg_info mm ∨ ∃ k v, (k, RegExpression v) ∈ eqs ∧ var_name v = u.
Proof.
  revert mm. induction eqs as [|[var e] eqs IH]; intros mm Hin; [by left|].
  simpl in Hin. apply IH in Hin as [Hin|(k & v & Hin & Hv)].
  - destruct e; simpl in Hin; try (by left).
    destruct (al_contains _ _); [by left|]. simpl in Hin.
    apply al_emplace_elem_of in Hin as [Hin|[= -> ->]]; [by left|].
    right. exists var, v. split; [by left|done].
  - right. exists k, v. split; [by right|done].
Qed.

Lemma mapper_ram_sound eqs mm k info :
  (k, info) ∈ ram_info (mapper_fold mm eqs) →
  (k, info) ∈ ram_info mm ∨
  ∃ addr_size word_size ra,
    (k, RamExpression addr_size word_size ra (write_enable info)
          (write_addr info) (data info)) ∈ eqs ∧
    ram_block_size info = block_size_of addr_size.
Proof.
  revert mm. induction eqs as [|[var e] eqs IH]; intros mm Hin; [by left|].
  simpl in Hin. apply IH in Hin as [Hin|(a & w & ra & Hin & Hs)].
  - destruct e; simpl in Hin; try (by left).
    + destruct (al_contains _ _); by left.
    + apply al_emplace_elem_of in Hin as [Hin|[= -> ->]]; [by left|].
      right. exists addr_size, word_size, read_addr. split; [by left|done].
  - right. exists a, w, ra. split; [by right|done].
Qed.

Lemma mapper_rom_sound eqs mm k info :
  (k, info) ∈ rom_info (mapper_fold mm eqs) →
  (k, info) ∈ rom_info mm ∨
  ∃ addr_size word_size ra,
    (k, RomExpression addr_size word_size ra) ∈ eqs ∧
    rom_block_size info = block_size_of addr_size.
Proof.
  revert mm. induction eqs as [|[var e] eqs IH]; intros mm Hin; [by left|].
  simpl in Hin. apply IH in Hin as [Hin|(a & w & ra & Hin & Hs)].
  - destruct e; simpl in Hin; try (by left).
    + destruct (al_contains _ _); by left.
    + apply al_emplace_elem_of in Hin as [Hin|[= -> ->]]; [by left|].
      right. exists addr_size, word_size, read_addr. split; [by left|done].
  - right. exists a, w, ra. split; [by right|done].
Qed.

(** X1: when the memory vector fits [size_t], the mapper gives every REG
    source one slot and every RAM and ROM name one block, all below
    [current_index] (the length of the memory vector); slots are pairwise
    distinct, no slot lies in a block, and blocks of different names do not
    overlap. *)
Theorem mapper_blocks_do_not_overlap p :
  memory_fits p →
  layout_ok (MemoryMapper_new p) ∧ blocks_disjoint (MemoryMapper_new p).
Proof.
  intros Hfit. split.
  - apply layout_ok_fold; [apply layout_ok_empty | exact Hfit].
  - apply blocks_disjoint_fold;
      [apply layout_ok_empty | apply blocks_disjoint_empty | exact Hfit].
Qed.

(** The theorem at work on the register next to a RAM block. *)
Lemma mapper_blocks_do_not_overlap_witness :
  layout_ok (MemoryMapper_new regram_program) ∧
  blocks_disjoint (MemoryMapper_new regram_program).
Proof.
  apply (mapper_blocks_do_not_overlap regram_program).
  unfold memory_fits. simpl. repeat split; vm_compute; reflexivity.
Defined.

Lemma mapper_complete p :
  (∀ k u, (k, RegExpression u) ∈ get_equations p →
     al_contains (var_name u) (reg_info (MemoryMapper_new p)) = true) ∧
  (∀ v addr_size word_size ra we wa wd,
     al_find v (get_equations p)
       = Some (RamExpression addr_size word_size ra we wa wd) →
     ∃ idx, al_find v (ram_info (MemoryMapper_new p))
              = Some (mkRamInfo we wa wd idx (block_size_of addr_size))) ∧
  (∀ v addr_size word_size ra,
     al_find v (get_equations p) = Some (RomExpression addr_size word_size ra) →
     ∃ idx, al_find v (rom_info (MemoryMapper_new p))
              = Some (mkRomInfo idx (block_size_of addr_size))).
Proof.
  unfold MemoryMapper_new. repeat split.
  - intros k u Hin.
    destruct (mapper_reg_complete _ (mkMemoryMapper [] [] [] 0) _ _ Hin)
      as [i Hi].
    unfold al_contains. by rewrite Hi.
  - intros v addr_size word_size ra we wa wd Hf.
    by eapply mapper_ram_complete.
  - intros v addr_size word_size ra Hf.
    by eapply mapper_rom_complete.
Qed.


(** ** Memory chunks given to the constructor *)

Lemma block_range_apart mm n i s n' i' s' :
  blocks_disjoint mm →
  block_range mm n = Some (i, s) → block_range mm n' = Some (i', s') →
  n ≠ n' → ranges_apart i s i' s'.
Proof.
  intros Hd Hn Hn' Hne. unfold block_range in *.
  destruct (al_find n (ram_info mm)) as [a|] eqn:Ha;
    [|destruct (al_find n (rom_info mm)) as [o|] eqn:Ho; [|done]];
    injection Hn as <- <-;
    (destruct (al_find n' (ram_info mm)) as [a'|] eqn:Ha';
      [|destruct (al_find n' (rom_info mm)) as [o'|] eqn:Ho'; [|done]]);
    injection Hn' as <- <-;
    repeat match goal with
           | H : al_find _ _ = Some _ |- _ => apply al_find_elem_of in H
           end.
  - by eapply (bd_ram_ram _ Hd).
  - by eapply (bd_ram_rom _ Hd).
  - destruct (bd_ram_rom _ Hd _ _ _ _ Ha' Ho); [by right|by left].
  - by eapply (bd_rom_rom _ Hd).
Qed.

Lemma block_range_declared mm n :
  al_contains n (ram_info mm) = true ∨ al_contains n (rom_info mm) = true →
  ∃ i s, block_range mm n = Some (i, s).
Proof.
  unfold block_range, al_contains. intros [H|H].
  - destruct (al_find n (ram_info mm)); [eauto|done].
  - destruct (al_find n (ram_info mm)); [eauto|].
    destruct (al_find n (rom_info mm)); [eauto|done].
Qed.

Lemma block_range_bounds mm n i s :
  layout_ok mm → block_range mm n = Some (i, s) →
  0 ≤ i ∧ 0 ≤ s ∧ i + s ≤ current_index mm.
Proof.
  intros Hok. unfold block_range.
  destruct (al_find n (ram_info mm)) as [a|] eqn:Ha.
  - intros [= <- <-]. apply al_find_elem_of in Ha. by eapply (lo_ram _ Hok).
  - destruct (al_find n (rom_info mm)) as [o|] eqn:Ho; [|done].
    intros [= <- <-]. apply al_find_elem_of in Ho. by eapply (lo_rom _ Hok).
Qed.

Lemma copy_into_loaded mem idx chunk mem' j x :
  copy_into mem idx chunk = Ok mem' →
  chunk !! j = Some x → mem' !! (Z.to_nat idx + j)%nat = Some x.
Proof.
  unfold copy_into. case_decide as Hr; [|done]. intros [= <-] Hj.
  rewrite lookup_app_r by (rewrite length_take; lia).
  rewrite length_take.
  replace (Z.to_nat idx + j - Z.to_nat idx `min` length mem)%nat with j by lia.
  by apply lookup_app_l_Some.
Qed.

(** A chunk that names a block is checked against the block's size and
    copied at the block's index; the rest of the memory is left alone. *)
Lemma fill_block_declared mm g n c st log st' i s :
  block_range mm n = Some (i, s) →
  fill_block mm g n c st = (log, Ok st') →
  s = Z.of_nat (length c) ∧
  copy_into (init_memory st) i c = Ok (init_memory st').
Proof.
  unfold block_range, fill_block. intros Hr H.
  destruct (al_find n (ram_info mm)) as [a|];
    [|destruct (al_find n (rom_info mm)) as [o|]; [|done]];
    injection Hr as <- <-;
    (case_decide as Hs; [done|]);
    (destruct (copy_into _ _ _) as [mem'|] eqn:Hc; [|done]);
    injection H as _ <-; split; (lia || done).
Qed.

Lemma fill_blocks_frame mm garbage blocks st log st' i s (j : nat) :
  layout_ok mm → blocks_disjoint mm →
  fill_blocks mm garbage blocks st = (log, Ok st') →
  (∀ n c, (n, c) ∈ blocks →
     ∃ i' s', block_range mm n = Some (i', s') ∧ ranges_apart i s i' s') →
  i ≤ Z.of_nat j < i + s →
  init_memory st' !! j = init_memory st !! j.
Proof.
  intros Hok Hd. revert st.
  induction blocks as [|[n c] blocks IH]; intros st H Hall Hj.
  - by injection H as _ <-.
  - simpl in H.
    destruct (fill_block mm (garbage n) n c st) as [l [st1|]] eqn:Hb; [|done].
    destruct (Hall n c) as (i' & s' & Hr & Hap); [by left|].
    destruct (fill_block_declared _ _ _ _ _ _ _ _ _ Hr Hb) as [-> Hcopy].
    rewrite (IH st1 H) by
      (try done; intros n' c' Hin'; apply (Hall n' c'); by right).
    apply copy_into_Ok in Hcopy as [_ Hframe]. apply Hframe.
    unfold ranges_apart in Hap. lia.
Qed.

Lemma fill_blocks_loaded mm garbage blocks st log st' name chunk idx size :
  layout_ok mm → blocks_disjoint mm →
  chunks_declared mm blocks → NoDup blocks.*1 →
  fill_blocks mm garbage blocks st = (log, Ok st') →
  (name, chunk) ∈ blocks →
  block_range mm name = Some (idx, size) →
  size = Z.of_nat (length chunk) ∧
  ∀ j x, chunk !! j = Some x →
         init_memory st' !! (Z.to_nat idx + j)%nat = Some x.
Proof.
  intros Hok Hd. revert st.
  induction blocks as [|[n c] blocks IH]; intros st Hdecl Hnd H Hin Hr.
  - by apply not_elem_of_nil in Hin.
  - simpl in H.
    destruct (fill_block mm (garbage n) n c st) as [l [st1|]] eqn:Hb; [|done].
    simpl in Hnd. apply NoDup_cons in Hnd as [Hn Hnd].
    apply elem_of_cons in Hin as [[= <- <-]|Hin].
    + destruct (fill_block_declared _ _ _ _ _ _ _ _ _ Hr Hb) as [-> Hcopy].
      split; [done|]. intros j x Hj.
      pose proof (block_range_bounds _ _ _ _ Hok Hr) as Hbound.
      pose proof (lookup_lt_Some _ _ _ Hj) as Hlt.
      rewrite (fill_blocks_frame _ _ _ _ _ _ idx (Z.of_nat (length chunk))
                 _ Hok Hd H).
      * by eapply copy_into_loaded.
      * intros n' c' Hin'.
        destruct (block_range_declared mm n') as (i' & s' & Hr').
        { apply (Hdecl n' c'). by right. }
        exists i', s'. split; [done|].
        eapply block_range_apart; [done..|].
        intros ->. apply Hn. apply list_elem_of_fmap. by exists (n', c').
      * lia.
    + apply (IH st1); try done.
      intros n' c' Hin'. apply (Hdecl n' c'). by right.
Qed.

(** X3: a successful construction has loaded every supplied chunk into the
    block of its name: the chunk has exactly the block's size, and word [j]
    of the chunk is the word of the memory at the block's index plus [j].
    The chunks are those of a map (one per name), each naming a block. *)
Theorem construction_loads_chunks
    dep blocks garbage p log s name chunk idx size :
  Simulator_new dep blocks garbage p = (log, Ok s) →
  memory_fits p →
  chunks_declared (MemoryMapper_new p) blocks →
  NoDup blocks.*1 →
  (name, chunk) ∈ blocks →
  block_range (MemoryMapper_new p) name = Some (idx, size) →
  size = Z.of_nat (length chunk) ∧
  ∀ j x, chunk !! j = Some x →
         vec_get (memory s) (idx + Z.of_nat j) = Ok x.
Proof.
  intros Hnew Hfit Hdecl Hnd Hin Hr.
  pose proof (MemoryMapper_new_layout _ Hfit) as Hok.
  pose proof (MemoryMapper_new_disjoint _ Hfit) as Hd.
  unfold Simulator_new in Hnew.
  destruct (fill_blocks _ _ _ _) as [l [st|]] eqn:Hfill; [|done].
  injection Hnew as _ <-. simpl.
  destruct (fill_blocks_loaded _ _ _ _ _ _ _ _ _ _ Hok Hd Hdecl Hnd Hfill Hin Hr)
    as [Hsize Hload].
  split; [done|]. intros j x Hj.
  pose proof (block_range_bounds _ _ _ _ Hok Hr) as Hbound.
  apply vec_get_Ok. split; [lia|].
  replace (Z.to_nat (idx + Z.of_nat j)) with (Z.to_nat idx + j)%nat by lia.
  by apply Hload.
Qed.

(** The theorem at work: the chunk [3; 4] of the RAM [r] next to a register
    is found at indices 1 and 2 of the memory. *)
Lemma construction_loads_chunks_witness :
  2 = Z.of_nat (length [3; 4]) ∧
  ∀ j x, [3; 4] !! j = Some x →
         vec_get (memory regram_initial) (1 + Z.of_nat j) = Ok x.
Proof.
  apply (construction_loads_chunks regram_schedule regram_memory_blocks
           no_garbage regram_program [] regram_initial "r" [3; 4] 1 2).
  - vm_compute; reflexivity.
  - unfold memory_fits. simpl. repeat split; vm_compute; reflexivity.
  - intros chunk_name memory_chunks Hin.
    apply list_elem_of_singleton in Hin. injection Hin as -> ->.
    left. reflexivity.
  - simpl. apply NoDup_singleton.
  - apply list_elem_of_singleton. reflexivity.
  - reflexivity.
Defined.

(** ** What a cycle writes *)

Lemma ram_writes_app env l1 l2 mem :
  ram_writes env (l1 ++ l2) mem =
    mem1 ← ram_writes env l1 mem; ram_writes env l2 mem1.
Proof.
  revert mem. induction l1 as [|[k info] l1 IH]; intros mem; [done|].
  simpl. destruct (eval_arg env (write_enable info)) as [we|]; [|done]. simpl.
  case_decide; [|apply IH].
  destruct (eval_arg env (data info)) as [d|]; [|done]. simpl.
  destruct (eval_arg env (write_addr info)) as [wa|]; [|done]. simpl.
  destruct (vec_set _ _ _) as [mem'|]; [|done]. simpl. apply IH.
Qed.

(** In-range writes to RAM blocks leave alone every word of a range that
    none of those blocks overlaps. *)
Lemma ram_writes_outside env mm rams mem mem' lo len j :
  layout_ok mm → ram_writes_in_range env mm →
  (∀ k info, (k, info) ∈ rams →
     (k, info) ∈ ram_info mm ∧
     ranges_apart lo len (ram_block_index info) (ram_block_size info)) →
  ram_writes env rams mem = Ok mem' →
  0 ≤ lo → lo ≤ j < lo + len →
  mem' !! Z.to_nat j = mem !! Z.to_nat j.
Proof.
  intros Hok Hrange Hall H Hlo Hj.
  apply (ram_writes_frame _ _ _ _ _ H); [lia|].
  intros k info we wa Hin Hwe Hen Hwa.
  destruct (Hall k info Hin) as [Hmm Hap].
  pose proof (Hrange _ _ _ _ Hmm Hwe Hen Hwa) as Hwr.
  pose proof (lo_ram _ Hok _ _ Hmm) as Hb.
  pose proof (lo_index _ Hok) as Hi.
  rewrite wrap64_small by lia.
  unfold ranges_apart in Hap. lia.
Qed.

(** The effect of the RAM writes on the block of one RAM. *)
Lemma ram_writes_block env mm mem mem' k info :
  layout_ok mm → blocks_disjoint mm → ram_writes_in_range env mm →
  (k, info) ∈ ram_info mm →
  ram_writes env (ram_info mm) mem = Ok mem' →
  ∃ we, eval_arg env (write_enable info) = Ok we ∧
    (we = 0 →
       ∀ j, ram_block_index info ≤ j < ram_block_index info + ram_block_size info →
            mem' !! Z.to_nat j = mem !! Z.to_nat j) ∧
    (we ≠ 0 →
       ∃ wa d, eval_arg env (write_addr info) = Ok wa ∧
               eval_arg env (data info) = Ok d ∧
               0 ≤ wa < ram_block_size info ∧
       ∀ j, ram_block_index info ≤ j < ram_block_index info + ram_block_size info →
            mem' !! Z.to_nat j =
              if decide (j = ram_block_index info + wa) then Some d
              else mem !! Z.to_nat j).
Proof.
  intros Hok Hd Hrange Hin H.
  pose proof (lo_ram _ Hok _ _ Hin) as Hb.
  pose proof (lo_index _ Hok) as Hi.
  pose proof (bd_ram_keys _ Hd) as Hnd.
  destruct (list_elem_of_split _ _ Hin) as (l1 & l2 & Hsplit).
  rewrite Hsplit in H, Hnd.
  rewrite fmap_app, fmap_cons in Hnd. simpl in Hnd.
  apply NoDup_app in Hnd as (_ & Hl1 & Hnd).
  apply NoDup_cons in Hnd as [Hl2 _].
  assert (Hother : ∀ l, l = l1 ∨ l = l2 → ∀ k' info', (k', info') ∈ l →
            (k', info') ∈ ram_info mm ∧
            ranges_apart (ram_block_index info) (ram_block_size info)
              (ram_block_index info') (ram_block_size info')).
  { intros l Hl k' info' Hin'.
    assert (Hmm : (k', info') ∈ ram_info mm).
    { rewrite Hsplit. destruct Hl as [-> | ->].
      - apply elem_of_app. by left.
      - apply elem_of_app. right. by right. }
    split; [done|].
    apply (bd_ram_ram _ Hd k info k' info' Hin Hmm).
    intros <-. destruct Hl as [-> | ->].
    - apply (Hl1 k); [|by left]. apply list_elem_of_fmap. by exists (k, info').
    - apply Hl2. apply list_elem_of_fmap. by exists (k, info'). }
  rewrite ram_writes_app in H. apply bind_Ok in H as (m1 & H1 & H).
  simpl in H. apply bind_Ok in H as (we & Hwe & H).
  exists we. split; [done|]. split.
  - intros ->. rewrite decide_False in H by (intros Hne; by apply Hne).
    intros j Hj.
    rewrite (ram_writes_outside _ _ _ _ _ _ _ j Hok Hrange
               (Hother l2 (or_intror eq_refl)) H) by lia.
    by rewrite (ram_writes_outside _ _ _ _ _ _ _ j Hok Hrange
                  (Hother l1 (or_introl eq_refl)) H1) by lia.
  - intros Hen. rewrite decide_True in H by done.
    apply bind_Ok in H as (d & Hdata & H).
    apply bind_Ok in H as (wa & Hwa & H).
    apply bind_Ok in H as (m2 & Hset & H).
    pose proof (Hrange _ _ _ _ Hin Hwe Hen Hwa) as Hwr.
    exists wa, d. repeat split; try done; try lia.
    intros j Hj.
    rewrite (ram_writes_outside _ _ _ _ _ _ _ j Hok Hrange
               (Hother l2 (or_intror eq_refl)) H) by lia.
    rewrite wrap64_small in Hset by lia.
    apply vec_set_Ok in Hset as [Hlen ->].
    case_decide as Hjw.
    + subst j. apply list_lookup_insert_eq. lia.
    + rewrite list_lookup_insert_ne by lia.
      by rewrite (ram_writes_outside _ _ _ _ _ _ _ j Hok Hrange
                    (Hother l1 (or_introl eq_refl)) H1) by lia.
Qed.

(** X4: what a cycle does to the block of a RAM, when the enabled writes of
    the cycle stay inside their blocks.  With a write enable of 0 the block
    is unchanged; otherwise the word at the write address holds the data
    (both taken in the environment reached at the end of the cycle) and the
    other words of the block are unchanged: neither saving the registers nor
    the writes of another RAM touch it. *)
Theorem cycle_writes_ram_block inputs s s' k info :
  cycle inputs s = Ok s' →
  layout_ok (mem_map s) → blocks_disjoint (mem_map s) →
  ram_writes_in_range (env s') (mem_map s) →
  (k, info) ∈ ram_info (mem_map s) →
  ∃ we, eval_arg (env s') (write_enable info) = Ok we ∧
    (we = 0 →
       ∀ j, ram_block_index info ≤ j < ram_block_index info + ram_block_size info →
            memory s' !! Z.to_nat j = memory s !! Z.to_nat j) ∧
    (we ≠ 0 →
       ∃ wa d, eval_arg (env s') (write_addr info) = Ok wa ∧
               eval_arg (env s') (data info) = Ok d ∧
               0 ≤ wa < ram_block_size info ∧
       ∀ j, ram_block_index info ≤ j < ram_block_index info + ram_block_size info →
            memory s' !! Z.to_nat j =
              if decide (j = ram_block_index info + wa) then Some d
              else memory s !! Z.to_nat j).
Proof.
  intros Hc Hok Hd Hrange Hin. unfold cycle in Hc.
  apply bind_Ok in Hc as (env2 & Heval & Hc).
  apply bind_Ok in Hc as (mem1 & Hsave & Hc).
  apply bind_Ok in Hc as (mem2 & Hwrite & Hc).
  injection Hc as <-. simpl in *.
  pose proof (lo_ram _ Hok _ _ Hin) as Hb.
  assert (Hsaved : ∀ j,
            ram_block_index info ≤ j < ram_block_index info + ram_block_size info →
            mem1 !! Z.to_nat j = memory s !! Z.to_nat j).
  { intros j Hj. apply (save_registers_frame _ _ _ _ _ Hsave); [lia|].
    intros Hjr. apply list_elem_of_fmap in Hjr as ([u i] & -> & Hu).
    by apply (lo_reg_ram _ Hok _ _ _ _ Hu Hin). }
  destruct (ram_writes_block _ _ _ _ _ _ Hok Hd Hrange Hin Hwrite)
    as (we & Hwe & Hoff & Hon).
  exists we. split; [done|]. split.
  - intros Hz j Hj. rewrite (Hoff Hz j Hj). by apply Hsaved.
  - intros Hen. destruct (Hon Hen) as (wa & d & Hwa & Hdata & Hwr & Hblock).
    exists wa, d. repeat split; try done; try lia.
    intros j Hj. rewrite (Hblock j Hj). case_decide; [done|]. by apply Hsaved.
Qed.

(** X5: a cycle whose enabled RAM writes stay inside their blocks leaves
    every word of every ROM block as it was. *)
Theorem cycle_keeps_rom_blocks inputs s s' k info j :
  cycle inputs s = Ok s' →
  layout_ok (mem_map s) → blocks_disjoint (mem_map s) →
  ram_writes_in_range (env s') (mem_map s) →
  (k, info) ∈ rom_info (mem_map s) →
  rom_block_index info ≤ j < rom_block_index info + rom_block_size info →
  memory s' !! Z.to_nat j = memory s !! Z.to_nat j.
Proof.
  intros Hc Hok Hd Hrange Hin Hj. unfold cycle in Hc.
  apply bind_Ok in Hc as (env2 & Heval & Hc).
  apply bind_Ok in Hc as (mem1 & Hsave & Hc).
  apply bind_Ok in Hc as (mem2 & Hwrite & Hc).
  injection Hc as <-. simpl in *.
  pose proof (lo_rom _ Hok _ _ Hin) as Hb.
  assert (Hall : ∀ k' info', (k', info') ∈ ram_info (mem_map s) →
            (k', info') ∈ ram_info (mem_map s) ∧
            ranges_apart (rom_block_index info) (rom_block_size info)
              (ram_block_index info') (ram_block_size info')).
  { intros k' info' Hin'. split; [done|].
    destruct (bd_ram_rom _ Hd _ _ _ _ Hin' Hin); [by right|by left]. }
  rewrite (ram_writes_outside _ _ _ _ _ _ _ j Hok Hrange Hall Hwrite) by lia.
  apply (save_registers_frame _ _ _ _ _ Hsave); [lia|].
  intros Hjr. apply list_elem_of_fmap in Hjr as ([u i] & -> & Hu).
  by apply (lo_reg_rom _ Hok _ _ _ _ Hu Hin).
Qed.

Lemma regram_layout :
  layout_ok (mem_map regram_initial) ∧ blocks_disjoint (mem_map regram_initial).
Proof.
  assert (Hfit : memory_fits regram_program).
  { unfold memory_fits. simpl. repeat split; vm_compute; reflexivity. }
  split; [by apply MemoryMapper_new_layout | by apply MemoryMapper_new_disjoint].
Qed.

Lemma regram_in_range s1 :
  cycle regram_inputs regram_initial = Ok s1 →
  ram_writes_in_range (env s1) (mem_map regram_initial).
Proof.
  intros Hs1. vm_compute in Hs1. injection Hs1 as <-.
  intros var info we wa Hin Hwe Hen Hwa.
  apply list_elem_of_singleton in Hin. injection Hin as -> ->.
  vm_compute in Hwa. injection Hwa as <-. vm_compute. split; [discriminate|done].
Qed.

(** The theorem at work: the cycle with we=1, wa=0, wd=9 on the RAM at
    [1, 3) next to a register. *)
Lemma cycle_writes_ram_block_witness :
  ∃ s', cycle regram_inputs regram_initial = Ok s' ∧
  ∃ we, eval_arg (env s') (write_enable regram_ram_info) = Ok we ∧
    (we = 0 →
       ∀ j, 1 ≤ j < 1 + 2 →
            memory s' !! Z.to_nat j = memory regram_initial !! Z.to_nat j) ∧
    (we ≠ 0 →
       ∃ wa d, eval_arg (env s') (write_addr regram_ram_info) = Ok wa ∧
               eval_arg (env s') (data regram_ram_info) = Ok d ∧
               0 ≤ wa < 2 ∧
       ∀ j, 1 ≤ j < 1 + 2 →
            memory s' !! Z.to_nat j =
              if decide (j = 1 + wa) then Some d
              else memory regram_initial !! Z.to_nat j).
Proof.
  eexists. split; [vm_compute; reflexivity|].
  apply (cycle_writes_ram_block regram_inputs regram_initial _ "r"
           regram_ram_info).
  - vm_compute; reflexivity.
  - apply regram_layout.
  - apply regram_layout.
  - apply regram_in_range. vm_compute; reflexivity.
  - apply list_elem_of_singleton. reflexivity.
Defined.

(** The theorem at work: a cycle reading address 1 of the loaded ROM. *)
Lemma cycle_keeps_rom_blocks_witness :
  ∃ s', cycle (λ _, 1) rom_loaded = Ok s' ∧
        env s' !! "d" = Some 6 ∧
        memory s' !! Z.to_nat 1 = memory rom_loaded !! Z.to_nat 1.
Proof.
  eexists. split; [vm_compute; reflexivity|]. split; [vm_compute; reflexivity|].
  assert (Hfit : memory_fits rom_program).
  { unfold memory_fits. simpl. repeat split; vm_compute; reflexivity. }
  apply (cycle_keeps_rom_blocks (λ _, 1) rom_loaded _ "d" (mkRomInfo 0 2) 1).
  - vm_compute; reflexivity.
  - by apply MemoryMapper_new_layout.
  - by apply MemoryMapper_new_disjoint.
  - intros var info we wa Hin. by apply not_elem_of_nil in Hin.
  - apply list_elem_of_singleton. reflexivity.
  - simpl. lia.
Defined.

(** ** Closed programs never miss a variable *)

Lemma visit_argument_bound (env : var_env) a :
  (∀ x, x ∈ argument_vars a → is_Some (env !! x)) →
  ∃ y, visit_argument env a = Ok y.
Proof.
  destruct a as [c|v]; simpl; intros H; [eauto|].
  destruct (H (var_name v)) as [y Hy]; [by left|].
  exists y. unfold env_at. by rewrite Hy.
Qed.

Lemma eval_arg_bound (env : var_env) a :
  (∀ x, x ∈ argument_vars a → is_Some (env !! x)) →
  ∃ y, eval_arg env a = Ok y.
Proof. destruct a; apply visit_argument_bound. Qed.

Lemma vec_get_fault mem i f : vec_get mem i = Err f → f = Undefined.
Proof.
  unfold vec_get. case_decide; [|congruence].
  destruct (mem !! Z.to_nat i); simpl; congruence.
Qed.

Lemma vec_set_fault mem i v f : vec_set mem i v = Err f → f = Undefined.
Proof. unfold vec_set. case_decide; congruence. Qed.

Lemma shl64_fault x n f : shl64 x n = Err f → f = Undefined.
Proof. unfold shl64. case_decide; congruence. Qed.

Lemma shr64_fault x n f : shr64 x n = Err f → f = Undefined.
Proof. unfold shr64. case_decide; congruence. Qed.

Ltac bound_arg env H a :=
  let y := fresh "y" in
  let Hy := fresh "Hy" in
  destruct (visit_argument_bound env a) as [y Hy];
    [intros ? ?; apply H; simpl; rewrite ?elem_of_app; tauto|];
  rewrite Hy; simpl.

(** An expression whose variables are bound and whose table entry exists
    can only fail by undefined behaviour. *)
Lemma eval_fault (env : var_env) mem mm var e f :
  (∀ x, x ∈ expression_vars e → is_Some (env !! x)) →
  (∀ u, e = RegExpression u → is_Some (al_find (var_name u) (reg_info mm))) →
  (∀ a w ra we wa wd, e = RamExpression a w ra we wa wd →
     is_Some (al_find (var_name var) (ram_info mm))) →
  (∀ a w ra, e = RomExpression a w ra →
     is_Some (al_find (var_name var) (rom_info mm))) →
  eval env mem mm var e = Err f → f = Undefined.
Proof.
  intros Hvars Hreg Hram Hrom.
  destruct e; simpl.
  - bound_arg env Hvars a. done.
  - destruct (Hreg v eq_refl) as [i Hi]. unfold al_at. rewrite Hi. simpl.
    apply vec_get_fault.
  - bound_arg env Hvars a. done.
  - bound_arg env Hvars lhs. bound_arg env Hvars rhs. done.
  - bound_arg env Hvars choice. bound_arg env Hvars true_arg. bound_arg env Hvars false_arg.
    by case_decide.
  - bound_arg env Hvars read_addr.
    destruct (Hrom _ _ _ eq_refl) as [i Hi]. unfold al_at. rewrite Hi. simpl.
    apply vec_get_fault.
  - bound_arg env Hvars read_addr.
    destruct (Hram _ _ _ _ _ _ eq_refl) as [i Hi]. unfold al_at. rewrite Hi.
    simpl. apply vec_get_fault.
  - bound_arg env Hvars beginning_part. bound_arg env Hvars last_part.
    destruct (shl64 _ _) eqn:Hs; simpl; [done|].
    intros [= <-]. by eapply shl64_fault.
  - bound_arg env Hvars a.
    destruct (shr64 _ _) eqn:Hs; simpl;
      [|intros [= <-]; by eapply shr64_fault].
    destruct (shl64 _ _) eqn:Hl; simpl; [done|].
    intros [= <-]. by eapply shl64_fault.
  - bound_arg env Hvars a.
    destruct (shr64 _ _) eqn:Hs; simpl; [done|].
    intros [= <-]. by eapply shr64_fault.
Qed.

Lemma env_emplace_binds k v (env : var_env) : is_Some (env_emplace k v env !! k).
Proof.
  unfold env_emplace. destruct (env !! k) eqn:H; [by rewrite H|].
  rewrite lookup_insert_eq. eauto.
Qed.

Lemma env_emplace_keeps k v (env : var_env) x :
  is_Some (env !! x) → is_Some (env_emplace k v env !! x).
Proof. intros [y Hy]. exists y. by apply env_emplace_bound. Qed.

Lemma set_inputs_binds inputs ins (env : var_env) v :
  v ∈ ins → is_Some (set_inputs inputs ins env !! var_name v).
Proof.
  unfold set_inputs. revert env.
  induction ins as [|w ins IH]; intros env Hin.
  - by apply not_elem_of_nil in Hin.
  - simpl. apply elem_of_cons in Hin as [->|Hin]; [|by apply IH].
    destruct (env_emplace_binds (var_name w) (inputs (var_name w)) env)
      as [y Hy].
    exists y. by apply (set_inputs_bound inputs ins).
Qed.

Lemma initial_env_keeps (eqs : list (ident_t * Expression)) (env : var_env) x :
  is_Some (env !! x) →
  is_Some (foldl (λ env '(var, _), env_emplace var 0 env) env eqs !! x).
Proof.
  revert env. induction eqs as [|[k e] eqs IH]; intros env H; [done|].
  simpl. by apply IH, env_emplace_keeps.
Qed.

Lemma initial_env_binds (eqs : list (ident_t * Expression)) (env : var_env) x :
  al_contains x eqs = true →
  is_Some (foldl (λ env '(var, _), env_emplace var 0 env) env eqs !! x).
Proof.
  revert env. induction eqs as [|[k e] eqs IH]; intros env H; [done|].
  simpl. unfold al_contains in H. simpl in H.
  destruct (decide (k = x)) as [->|Hne].
  - apply initial_env_keeps, env_emplace_binds.
  - by apply IH.
Qed.

Lemma eval_equations_keeps p mm mem deps (env env' : var_env) x :
  eval_equations p mm mem deps env = Ok env' →
  is_Some (env !! x) → is_Some (env' !! x).
Proof.
  revert env. induction deps as [|var deps IH]; intros env H Hx.
  - by injection H as <-.
  - simpl in H. apply bind_Ok in H as (expr & _ & H).
    apply bind_Ok in H as (v & _ & H).
    apply (IH _ H). destruct (decide (var_name var = x)) as [->|Hne].
    + rewrite lookup_insert_eq. eauto.
    + by rewrite lookup_insert_ne.
Qed.

Lemma cycle_keeps_bound inputs s s' x :
  cycle inputs s = Ok s' → is_Some (env s !! x) → is_Some (env s' !! x).
Proof.
  unfold cycle. intros H [y Hy].
  apply bind_Ok in H as (env2 & Heval & H).
  apply bind_Ok in H as (mem1 & _ & H).
  apply bind_Ok in H as (mem2 & _ & H).
  injection H as <-. simpl.
  apply (eval_equations_keeps _ _ _ _ _ _ _ Heval).
  exists y. by apply set_inputs_bound.
Qed.

Lemma simulate_keeps_bound ins s s' x :
  simulate ins s = Ok s' → is_Some (env s !! x) → is_Some (env s' !! x).
Proof.
  revert s. induction ins as [|i ins IH]; intros s H Hx.
  - by injection H as <-.
  - simpl in H. apply bind_Ok in H as (s1 & Hc & H).
    apply (IH _ H). by eapply cycle_keeps_bound.
Qed.

Lemma Simulator_new_bound dep blocks garbage p log s :
  Simulator_new dep blocks garbage p = (log, Ok s) → equations_bound p (env s).
Proof.
  unfold Simulator_new. intros H.
  destruct (fill_blocks _ _ _ _) as [l [st|]]; [|done].
  injection H as _ <-. simpl. intros x Hx. by apply initial_env_binds.
Qed.

Lemma eval_equations_fault p deps mem (env : var_env) f :
  program_closed p → schedule_defined p deps → env_covers p env →
  eval_equations p (MemoryMapper_new p) mem deps env = Err f → f = Undefined.
Proof.
  intros Hclosed. revert env.
  induction deps as [|var deps IH]; intros env Hsched Hcov H; [done|].
  simpl in H.
  destruct (al_contains_find _ _ (Hsched var ltac:(by left))) as [expr Hexpr].
  unfold al_at in H. rewrite Hexpr in H. simpl in H.
  destruct (eval env mem (MemoryMapper_new p) var expr) as [v|f'] eqn:He.
  - simpl in H. apply (IH (<[var_name var := v]> env)); try done.
    + intros w Hw. apply Hsched. by right.
    + intros x Hx. destruct (decide (var_name var = x)) as [->|Hne].
      * rewrite lookup_insert_eq. eauto.
      * rewrite lookup_insert_ne by done. by apply Hcov.
  - simpl in H. injection H as <-.
    pose proof (al_find_elem_of _ _ _ Hexpr) as Hin.
    destruct (mapper_complete p) as (Hreg & Hram & Hrom).
    apply (eval_fault env mem (MemoryMapper_new p) var expr); try done.
    + intros x Hx. apply Hcov. by eapply Hclosed.
    + intros u ->. destruct (al_contains_find _ _ (Hreg _ _ Hin)) as [i Hi].
      rewrite Hi. eauto.
    + intros a w ra we wa wd ->.
      destruct (Hram _ _ _ _ _ _ _ Hexpr) as [idx Hidx]. rewrite Hidx. eauto.
    + intros a w ra ->.
      destruct (Hrom _ _ _ _ Hexpr) as [idx Hidx]. rewrite Hidx. eauto.
Qed.

Lemma save_registers_fault (env : var_env) regs mem f :
  (∀ u i, (u, i) ∈ regs → is_Some (env !! u)) →
  save_registers env regs mem = Err f → f = Undefined.
Proof.
  revert mem. induction regs as [|[u i] regs IH]; intros mem Hb H; [done|].
  simpl in H. destruct (Hb u i) as [x Hx]; [by left|].
  rewrite Hx in H. simpl in H.
  destruct (vec_set mem i x) as [mem'|f'] eqn:Hs; simpl in H.
  - apply (IH mem'); [|done]. intros u' i' Hin. apply (Hb u' i'). by right.
  - injection H as <-. by eapply vec_set_fault.
Qed.

Lemma ram_writes_fault (env : var_env) rams mem f :
  (∀ k info x, (k, info) ∈ rams →
     x ∈ argument_vars (write_enable info) ++ argument_vars (write_addr info)
           ++ argument_vars (data info) →
     is_Some (env !! x)) →
  ram_writes env rams mem = Err f → f = Undefined.
Proof.
  revert mem. induction rams as [|[k info] rams IH]; intros mem Hb H; [done|].
  assert (Hrest : ∀ k' info' x, (k', info') ∈ rams →
     x ∈ argument_vars (write_enable info') ++ argument_vars (write_addr info')
           ++ argument_vars (data info') →
     is_Some (env !! x)).
  { intros k' info' x Hin. apply (Hb k' info' x). by right. }
  assert (Hhere : ∀ x,
     x ∈ argument_vars (write_enable info) ++ argument_vars (write_addr info)
           ++ argument_vars (data info) → is_Some (env !! x)).
  { intros x. apply (Hb k info x). by left. }
  simpl in H.
  destruct (eval_arg_bound env (write_enable info)) as [we Hwe].
  { intros x Hx. apply Hhere. rewrite !elem_of_app. tauto. }
  destruct (eval_arg_bound env (write_addr info)) as [wa Hwa].
  { intros x Hx. apply Hhere. rewrite !elem_of_app. tauto. }
  destruct (eval_arg_bound env (data info)) as [d Hd].
  { intros x Hx. apply Hhere. rewrite !elem_of_app. tauto. }
  rewrite Hwe in H. simpl in H. case_decide.
  - rewrite Hd in H. simpl in H. rewrite Hwa in H. simpl in H.
    destruct (vec_set _ _ _) as [mem'|f'] eqn:Hs; simpl in H.
    + by apply (IH mem').
    + injection H as <-. by eapply vec_set_fault.
  - by apply (IH mem).
Qed.

Lemma cycle_fault inputs s f :
  program_closed (prog s) → schedule_defined (prog s) (dep_list s) →
  mem_map s = MemoryMapper_new (prog s) →
  equations_bound (prog s) (env s) →
  cycle inputs s = Err f → f = Undefined.
Proof.
  intros Hclosed Hsched Hmm Hbound H. unfold cycle in H. rewrite Hmm in H.
  set (env1 := set_inputs inputs (get_inputs (prog s)) (env s)) in *.
  assert (Hcov : env_covers (prog s) env1).
  { intros x [Hx|Hx].
    - apply list_elem_of_fmap in Hx as (v & -> & Hv).
      by apply set_inputs_binds.
    - destruct (Hbound x Hx) as [y Hy]. exists y. by apply set_inputs_bound. }
  destruct (eval_equations _ _ _ _ env1) as [env2|f'] eqn:Heval; simpl in H;
    [|injection H as <-; by eapply eval_equations_fault].
  assert (Hcov2 : ∀ k e x, (k, e) ∈ get_equations (prog s) →
                           x ∈ expression_vars e → is_Some (env2 !! x)).
  { intros k e x Hin Hx. apply (eval_equations_keeps _ _ _ _ _ _ _ Heval).
    apply Hcov. by eapply Hclosed. }
  destruct (save_registers _ _ _) as [mem1|f'] eqn:Hsave; simpl in H.
  - destruct (ram_writes _ _ _) as [mem2|f'] eqn:Hwrite; simpl in H; [done|].
    injection H as <-. apply (ram_writes_fault _ _ _ _) in Hwrite; [done|].
    intros k info x Hin Hx.
    apply mapper_ram_sound in Hin as [Hin|(a & w & ra & Hin & _)];
      [by apply not_elem_of_nil in Hin|].
    apply (Hcov2 _ _ x Hin). simpl. rewrite !elem_of_app in *. tauto.
  - injection H as <-. apply (save_registers_fault _ _ _ _) in Hsave; [done|].
    intros u i Hin.
    apply mapper_reg_sound in Hin as [Hin|(k & v & Hin & <-)];
      [by apply not_elem_of_nil in Hin|].
    apply (Hcov2 _ _ (var_name v) Hin). simpl. by left.
Qed.

(** X6: for a closed program (every variable read by an equation is an
    input or has an equation) and a schedule listing only variables that
    have an equation, no lookup of a cycle throws [std::out_of_range]: after
    any number of cycles, a cycle either completes or runs into undefined
    behaviour (an access outside the memory vector, a shift by 64 or more). *)
Theorem closed_program_cycle_never_throws
    dep blocks garbage p log s0 ins s inputs :
  Simulator_new dep blocks garbage p = (log, Ok s0) →
  program_closed p → schedule_defined p dep →
  simulate ins s0 = Ok s →
  (∃ s', cycle inputs s = Ok s') ∨ cycle inputs s = Err Undefined.
Proof.
  intros Hnew Hclosed Hsched Hsim.
  destruct (Simulator_new_fields _ _ _ _ _ _ Hnew) as (Hp & Hdep & Hmm).
  destruct (simulate_fields _ _ _ Hsim) as (Hp' & Hdep' & Hmm').
  pose proof (Simulator_new_bound _ _ _ _ _ _ Hnew) as Hbound.
  destruct (cycle inputs s) as [s'|f] eqn:Hc; [left; by exists s'|right].
  f_equal. apply (cycle_fault inputs s); try done.
  - by rewrite Hp', Hp.
  - by rewrite Hp', Hp, Hdep', Hdep.
  - by rewrite Hmm', Hmm, Hp', Hp.
  - rewrite Hp', Hp. intros x Hx.
    by apply (simulate_keeps_bound _ _ _ _ Hsim), Hbound.
Qed.

(** The theorem at work on the register next to a RAM block. *)
Lemma closed_program_cycle_never_throws_witness :
  (∃ s', cycle regram_inputs regram_initial = Ok s') ∨
  cycle regram_inputs regram_initial = Err Undefined.
Proof.
  apply (closed_program_cycle_never_throws regram_schedule regram_memory_blocks
           no_garbage regram_program [] regram_initial [] regram_initial
           regram_inputs).
  - vm_compute; reflexivity.
  - intros k e x Hin Hx. left.
    apply list_elem_of_In in Hin. simpl in Hin.
    destruct Hin as [[= <- <-]|[[= <- <-]|[]]];
      apply list_elem_of_In in Hx; apply list_elem_of_In; simpl in *;
      intuition.
  - intros v Hv. apply list_elem_of_In in Hv. simpl in Hv.
    destruct Hv as [<-|[<-|[]]]; reflexivity.
  - reflexivity.
Defined.

(** ** What the bit operators compute *)

(** X7: SLICE b e yields the bits b..e of its argument, as the number
    (v / 2^b) mod 2^(e-b+1), for 0 <= b <= e < 64, except that a slice of
    all 64 bits shifts 1 by 64, which is undefined; SELECT i yields bit i of
    its argument, 0 or 1. *)
Theorem slice_and_select_extract_bits (env : var_env) mem mm var a v :
  visit_argument env a = Ok v →
  (∀ b e, 0 ≤ b ≤ e → e < 64 →
     eval env mem mm var (SliceExpression b e a) =
       if decide (e - b + 1 = 64) then Err Undefined
       else Ok ((v / 2 ^ b) mod 2 ^ (e - b + 1))) ∧
  (∀ i, 0 ≤ i < 64 →
     eval env mem mm var (SelectExpression i a) = Ok (Z.b2z (Z.testbit v i))).
Proof.
  intros Hv. split.
  - intros b e Hb He. simpl. rewrite Hv. simpl.
    unfold shr64. rewrite decide_True by lia. simpl.
    assert (Hn : wrap32 (e - b + 1) = e - b + 1).
    { unfold wrap32. apply Z.mod_small. lia. }
    rewrite Hn. unfold shl64.
    destruct (decide (e - b + 1 = 64)) as [H64|H64].
    + by rewrite decide_False by lia.
    + rewrite decide_True by lia. simpl.
      assert (Hpow : 2 ^ (e - b + 1) < 2 ^ 64)
        by (apply Z.pow_lt_mono_r; lia).
      assert (Hpos : 0 < 2 ^ (e - b + 1)) by (apply Z.pow_pos_nonneg; lia).
      rewrite Z.shiftl_1_l, (wrap64_small (2 ^ _)) by lia.
      rewrite wrap64_small by lia.
      replace (2 ^ (e - b + 1) - 1) with (Z.ones (e - b + 1))
        by (rewrite Z.ones_equiv; lia).
      rewrite Z.land_ones by lia. by rewrite Z.shiftr_div_pow2 by lia.
  - intros i Hi. simpl. rewrite Hv. simpl.
    unfold shr64. rewrite decide_True by lia. simpl. f_equal.
    change 1 with (Z.ones 1). rewrite Z.land_ones by lia.
    rewrite Z.shiftr_div_pow2 by lia. change (2 ^ 1) with 2.
    by rewrite Z.testbit_spec' by lia.
Qed.

(** The theorem at work on the value 13 (binary 1101). *)
Lemma slice_and_select_extract_bits_witness :
  (∀ b e, 0 ≤ b ≤ e → e < 64 →
     eval bits_env [] (mkMemoryMapper [] [] [] 0) idreg_o
          (SliceExpression b e bits_a) =
       if decide (e - b + 1 = 64) then Err Undefined
       else Ok ((13 / 2 ^ b) mod 2 ^ (e - b + 1))) ∧
  (∀ i, 0 ≤ i < 64 →
     eval bits_env [] (mkMemoryMapper [] [] [] 0) idreg_o
          (SelectExpression i bits_a) = Ok (Z.b2z (Z.testbit 13 i))).
Proof.
  apply (slice_and_select_extract_bits bits_env [] (mkMemoryMapper [] [] [] 0)
           idreg_o bits_a 13).
  reflexivity.
Defined.

Lemma bits_below w x : 0 ≤ w → (0 ≤ x < 2 ^ w ↔
  0 ≤ x ∧ ∀ l, w ≤ l → Z.testbit x l = false).
Proof.
  intros Hw. split.
  - intros H. split; [lia|]. by apply Z.bounded_iff_bits_nonneg'; [lia..|].
  - intros [H0 H]. by apply Z.bounded_iff_bits_nonneg'.
Qed.

(** X8: OR, XOR and AND of two operands below 2^w give a result below 2^w:
    of the four binary operators only NAND leaves the width of its
    operands. *)
Theorem bitwise_operators_keep_width
    (env : var_env) mem mm var k lhs rhs x y w :
  visit_argument env lhs = Ok x → visit_argument env rhs = Ok y →
  0 ≤ w → 0 ≤ x < 2 ^ w → 0 ≤ y < 2 ^ w → k ≠ NAND →
  ∃ r, eval env mem mm var (BinOpExpression k lhs rhs) = Ok r ∧ 0 ≤ r < 2 ^ w.
Proof.
  intros Hx Hy Hw Hxw Hyw Hk. simpl. rewrite Hx, Hy. simpl.
  eexists. split; [reflexivity|].
  apply bits_below in Hxw as [Hx0 Hxb]; [|done].
  apply bits_below in Hyw as [Hy0 Hyb]; [|done].
  apply bits_below; [done|].
  destruct k; simpl; [| | |done].
  - split; [by apply Z.lor_nonneg|].
    intros l Hl. by rewrite Z.lor_spec, Hxb, Hyb.
  - split; [by apply Z.lxor_nonneg|].
    intros l Hl. by rewrite Z.lxor_spec, Hxb, Hyb.
  - split; [apply Z.land_nonneg; by left|].
    intros l Hl. by rewrite Z.land_spec, Hxb, Hyb.
Qed.

(** The theorem at work: 13 XOR 13 on four bits. *)
Lemma bitwise_operators_keep_width_witness :
  ∃ r, eval bits_env [] (mkMemoryMapper [] [] [] 0) idreg_o
         (BinOpExpression XOR bits_a bits_a) = Ok r ∧ 0 ≤ r < 2 ^ 4.
Proof.
  apply (bitwise_operators_keep_width bits_env [] (mkMemoryMapper [] [] [] 0)
           idreg_o XOR bits_a bits_a 13 13 4); try reflexivity; try lia.
  discriminate.
Defined.

(** ** The diagnostics of the constructor *)

Lemma set_insert_elem_of k s x : x ∈ set_insert k s ↔ x ∈ s ∨ x = k.
Proof.
  unfold set_insert. case_decide as Hk.
  - split; [by left|]. intros [H| ->]; done.
  - rewrite elem_of_app, list_elem_of_singleton. done.
Qed.

Lemma set_erase_elem_of k s x : x ∈ set_erase k s ↔ x ∈ s ∧ x ≠ k.
Proof. unfold set_erase. rewrite list_elem_of_filter. tauto. Qed.

Lemma set_insert_keys {V} (l : list (ident_t * V)) s x :
  x ∈ foldl (λ s '(chunk, _), set_insert chunk s) s l ↔ x ∈ s ∨ x ∈ l.*1.
Proof.
  revert s. induction l as [|[k v] l IH]; intros s; simpl.
  - split; [by left|]. intros [H|H]; [done|]. by apply not_elem_of_nil in H.
  - rewrite IH, set_insert_elem_of, elem_of_cons. tauto.
Qed.

(** Chunks that name blocks print nothing, and each strikes its name off
    the set of uninitialised blocks. *)
Lemma fill_blocks_declared mm garbage blocks st log st' :
  chunks_declared mm blocks →
  fill_blocks mm garbage blocks st = (log, Ok st') →
  log = init_log st ∧ init_log st' = init_log st ∧
  ∀ x, x ∈ init_uninitialised st' ↔ x ∈ init_uninitialised st ∧ x ∉ blocks.*1.
Proof.
  revert st. induction blocks as [|[n c] blocks IH]; intros st Hdecl H.
  - injection H as <- <-. split; [done|]. split; [done|]. intros x. split.
    + intros Hx. split; [done|]. apply not_elem_of_nil.
    + by intros [? _].
  - simpl in H.
    destruct (fill_block mm (garbage n) n c st) as [l [st1|]] eqn:Hb; [|done].
    destruct (IH st1) as (-> & Hlog & Hset); [|done|].
    { intros n' c' Hin. apply (Hdecl n' c'). by right. }
    assert (Hst1 : init_log st1 = init_log st ∧
                   init_uninitialised st1 = set_erase n (init_uninitialised st)).
    { unfold fill_block in Hb.
      destruct (Hdecl n c) as [Hc|Hc]; [by left|..];
        apply al_contains_find in Hc as [info Hinfo].
      - rewrite Hinfo in Hb. case_decide; [done|].
        destruct (copy_into _ _ _); [|done]. by injection Hb as _ <-.
      - destruct (al_find n (ram_info mm)); rewrite ?Hinfo in Hb;
          (case_decide; [done|]);
          (destruct (copy_into _ _ _); [|done]); by injection Hb as _ <-. }
    destruct Hst1 as [Hl1 Hu1].
    split; [congruence|]. split; [congruence|]. intros x. split.
    + intros Hx. apply Hset in Hx as [Hx Hnot]. rewrite Hu1 in Hx.
      apply set_erase_elem_of in Hx as [Hx Hne].
      split; [done|]. simpl. rewrite not_elem_of_cons. done.
    + intros [Hx Hnot]. simpl in Hnot.
      apply not_elem_of_cons in Hnot as [Hne Hnot].
      apply Hset. split; [|done]. rewrite Hu1. by apply set_erase_elem_of.
Qed.

(** X9: when every supplied chunk names a block, a successful construction
    prints exactly one kind of report: for each RAM or ROM block that got no
    chunk, the report that it is not initialised (code 52), an error for a
    ROM and a warning for a RAM; construction succeeds all the same. *)
Theorem construction_reports_blocks_without_chunk
    dep blocks garbage p log s :
  Simulator_new dep blocks garbage p = (log, Ok s) →
  chunks_declared (MemoryMapper_new p) blocks →
  (∀ r, r ∈ log ↔
     ∃ name, (name ∈ (ram_info (MemoryMapper_new p)).*1 ∨
              name ∈ (rom_info (MemoryMapper_new p)).*1) ∧
             (name ∉ blocks.*1) ∧
             r = report_uninitialised (MemoryMapper_new p) name) ∧
  (∀ name, code (report_uninitialised (MemoryMapper_new p) name) = Some 52 ∧
     (severity (report_uninitialised (MemoryMapper_new p) name) = ERROR ↔
      name ∈ (rom_info (MemoryMapper_new p)).*1)).
Proof.
  intros Hnew Hdecl. unfold Simulator_new in Hnew.
  destruct (fill_blocks _ _ _ _) as [l [st|]] eqn:Hfill; [|done].
  injection Hnew as <- _.
  destruct (fill_blocks_declared _ _ _ _ _ _ Hdecl Hfill) as (-> & _ & Hset).
  simpl in *. split.
  - intros r. rewrite list_elem_of_fmap. split.
    + intros (name & -> & Hname). exists name.
      apply Hset in Hname as [Hname Hnot].
      apply set_insert_keys in Hname as [Hname|Hname]; [|by auto].
      apply set_insert_keys in Hname as [Hname|Hname]; [|by auto].
      by apply not_elem_of_nil in Hname.
    + intros (name & Hname & Hnot & ->). exists name. split; [done|].
      apply Hset. split; [|done].
      apply set_insert_keys. destruct Hname as [Hname|Hname]; [left|by right].
      apply set_insert_keys. by right.
  - intros name. unfold report_uninitialised.
    destruct (al_contains name (rom_info (MemoryMapper_new p))) eqn:Hc.
    + split; [done|]. split; [intros _|done].
      apply al_contains_true in Hc as [v Hv].
      apply list_elem_of_fmap. by exists (name, v).
    + split; [done|]. split; [done|]. intros Hin.
      by apply al_contains_false in Hc.
Qed.

(** The theorem at work on the RAM scenario, constructed without chunk. *)
Lemma construction_reports_blocks_without_chunk_witness :
  (∀ r, r ∈ [ram_not_initialised "r"] ↔
     ∃ name, (name ∈ (ram_info (MemoryMapper_new ram_program)).*1 ∨
              name ∈ (rom_info (MemoryMapper_new ram_program)).*1) ∧
             (name ∉ ([] : list (ident_t * list value_t)).*1) ∧
             r = report_uninitialised (MemoryMapper_new ram_program) name) ∧
  (∀ name,
     code (report_uninitialised (MemoryMapper_new ram_program) name) = Some 52 ∧
     (severity (report_uninitialised (MemoryMapper_new ram_program) name) = ERROR ↔
      name ∈ (rom_info (MemoryMapper_new ram_program)).*1)).
Proof.
  destruct (Simulator_new ram_schedule [] no_garbage ram_program)
    as [log [s|f]] eqn:Hnew; [|vm_compute in Hnew; discriminate].
  assert (Hlog : log = [ram_not_initialised "r"]).
  { vm_compute in Hnew. by injection Hnew as <- _. }
  rewrite <- Hlog.
  apply (construction_reports_blocks_without_chunk ram_schedule [] no_garbage
           ram_program log s Hnew).
  intros chunk_name memory_chunks Hin. by apply not_elem_of_nil in Hin.
Defined.

(** * Further properties of the parser *)

(** ** What a successful parse of an expression guarantees *)

Lemma from_chars_nonneg s base acc count v n rest :
  from_chars s base acc count = (v, n, rest) → 0 ≤ base → 0 ≤ acc → 0 ≤ v.
Proof.
  revert acc count. induction s as [|c s IH]; intros acc count Hf Hb Hacc.
  - injection Hf as <- _ _. done.
  - simpl in Hf. destruct (digit_of c) as [d|] eqn:Hd.
    + destruct (decide (d < base)) as [Hlt|Hge].
      * apply (IH _ _ Hf Hb).
        assert (0 ≤ d).
        { unfold digit_of in Hd.
          repeat match type of Hd with
                 | context [decide ?P] => destruct (decide P)
                 end; simplify_eq; lia. }
        nia.
      * injection Hf as <- _ _. done.
    + injection Hf as <- _ _. done.
Qed.

Lemma parse_int_Ok max token base v :
  parse_int max token base = Ok v → 0 ≤ base → 0 ≤ v ≤ max.
Proof.
  unfold parse_int, exit. intros Hp Hb.
  destruct (from_chars _ _ _ _) as [[v' count] rest] eqn:Hf.
  repeat case_decide; try done. injection Hp as <-.
  apply from_chars_nonneg in Hf; lia.
Qed.

Lemma parse_bus_size_Ok st bs st' :
  parse_bus_size st = Ok (bs, st') →
  0 ≤ bs ≤ max_bus_size ∧ st' = consume st.
Proof.
  unfold parse_bus_size, exit. intros Hp.
  apply bind_Ok in Hp as (u & _ & Hp). apply bind_Ok in Hp as (v & Hv & Hp).
  apply parse_int_Ok in Hv; [|done].
  case_decide; [done|]. injection Hp as <- <-. split; [lia|done].
Qed.

Lemma parse_size_spec_Ok st size st' :
  parse_size_spec st = Ok (size, st') →
  vars st' = vars st ∧ ∀ bs, size = Some bs → 0 ≤ bs ≤ max_bus_size.
Proof.
  unfold parse_size_spec. case_decide as Hcolon.
  - intros Hp. apply bind_Ok in Hp as ([bs st1] & Hbs & Hp). simpl in Hp.
    injection Hp as <- <-. apply parse_bus_size_Ok in Hbs as [Hbs ->].
    split; [done|]. by intros bs' [= <-].
  - intros [= <- <-]. split; [done|]. by intros bs' [=].
Qed.

Lemma parse_variable_Ok st v st' :
  parse_variable st = Ok (v, st') →
  st' = consume st ∧ al_find (spelling (m_token st)) (vars st) = Some v.
Proof.
  unfold parse_variable, exit. intros H.
  apply bind_Ok in H as (u & _ & H).
  destruct (al_find _ _) as [v'|]; [|done]. by injection H as <- <-.
Qed.

Ltac constant_vars H0 :=
  let H := fresh "Hparse" in
  rename H0 into H;
  unfold exit in H;
  apply bind_Ok in H as (?u & _ & H);
  apply bind_Ok in H as (?val & _ & H);
  apply bind_Ok in H as ([?size ?st1] & ?Hspec & H); simpl in H;
  match goal with
  | Hs : parse_size_spec _ = Ok _ |- _ => apply parse_size_spec_Ok in Hs as [Hs _]
  end;
  repeat case_match; try done; repeat case_decide; try done;
  injection H as _ <-; done.

Lemma parse_constant_vars st c st' :
  parse_binary_digits st = Ok (c, st') ∨
  parse_binary_constant st = Ok (c, st') ∨
  parse_decimal_constant st = Ok (c, st') ∨
  parse_hexadecimal_constant st = Ok (c, st') →
  vars st' = vars st.
Proof.
  intros [Hp|[Hp|[Hp|Hp]]].
  - unfold parse_binary_digits in Hp.
    apply bind_Ok in Hp as (u & _ & Hp). apply bind_Ok in Hp as (val & _ & Hp).
    by injection Hp as _ <-.
  - unfold parse_binary_constant in Hp. constant_vars Hp.
  - unfold parse_decimal_constant in Hp. constant_vars Hp.
  - unfold parse_hexadecimal_constant in Hp. constant_vars Hp.
Qed.

Lemma parse_argument_Ok st a st' :
  parse_argument st = Ok (a, st') →
  vars st' = vars st ∧
  ∀ x, x ∈ argument_vars a → vars_named (vars st) → al_contains x (vars st) = true.
Proof.
  unfold parse_argument, parse_constant_with, unexpected_token, exit.
  intros H. destruct (kind (m_token st)); try done;
    apply bind_Ok in H as ([x st1] & Hx & H); simpl in H;
    injection H as <- <-.
  - apply parse_variable_Ok in Hx as [-> Hx]. split; [done|].
    intros y Hy Hnamed. simpl in Hy. apply list_elem_of_singleton in Hy as ->.
    rewrite (Hnamed _ _ (al_find_elem_of _ _ _ Hx)).
    unfold al_contains. by rewrite Hx.
  - split; [eapply parse_constant_vars; eauto|].
    intros y Hy. by apply not_elem_of_nil in Hy.
  - split; [eapply parse_constant_vars; eauto|].
    intros y Hy. by apply not_elem_of_nil in Hy.
  - split; [eapply parse_constant_vars; eauto|].
    intros y Hy. by apply not_elem_of_nil in Hy.
  - split; [eapply parse_constant_vars; eauto 6|].
    intros y Hy. by apply not_elem_of_nil in Hy.
Qed.

Lemma assert_same_bus_size_Ok a b u :
  assert_same_bus_size a b = Ok u →
  Argument_get_bus_size a = Argument_get_bus_size b.
Proof.
  unfold assert_same_bus_size, exit. by case_decide as Hne.
Qed.

Lemma assert_bus_size_eq_Ok a size u :
  assert_bus_size_eq a size = Ok u → Argument_get_bus_size a = size.
Proof.
  unfold assert_bus_size_eq, exit. by case_decide as Hne.
Qed.

Lemma assert_bus_size_gt_Ok a size u :
  assert_bus_size_gt a size = Ok u → size < Argument_get_bus_size a.
Proof. unfold assert_bus_size_gt, exit. case_decide as H; [done|]. lia. Qed.

Ltac pbind H :=
  let a := fresh "a" in
  let Hp := fresh "Hp" in
  apply bind_Ok in H as (a & Hp & H);
  match type of a with
  | (_ * _)%type => destruct a as [? ?]
  | _ => idtac
  end; simpl in H.

Ltac parse_facts :=
  repeat match goal with
  | H : parse_argument _ = Ok _ |- _ =>
      apply parse_argument_Ok in H as [? ?]
  | H : parse_bus_size _ = Ok _ |- _ =>
      apply parse_bus_size_Ok in H as [? ?]
  | H : parse_variable _ = Ok _ |- _ =>
      apply parse_variable_Ok in H as [? ?]
  | H : assert_same_bus_size _ _ = Ok _ |- _ =>
      apply assert_same_bus_size_Ok in H
  | H : assert_bus_size_eq _ _ = Ok _ |- _ =>
      apply assert_bus_size_eq_Ok in H
  | H : assert_bus_size_gt _ _ = Ok _ |- _ =>
      apply assert_bus_size_gt_Ok in H
  end.

Lemma found_is_declared (vars : list (ident_t * Variable_)) k v x :
  al_find k vars = Some v → x ∈ [var_name v] → vars_named vars →
  al_contains x vars = true.
Proof.
  intros Hf Hx Hnamed. apply list_elem_of_singleton in Hx as ->.
  rewrite (Hnamed _ _ (al_find_elem_of _ _ _ Hf)).
  unfold al_contains. by rewrite Hf.
Qed.

Lemma slice_expression_Ok beg end_ arg e :
  slice_expression beg end_ arg = Ok e →
  e = SliceExpression beg end_ arg ∧ beg < end_ < Argument_get_bus_size arg.
Proof.
  unfold slice_expression, exit. case_decide as Hle; [done|].
  intros Hp. apply bind_Ok in Hp as (u & Hgt & Hp).
  apply assert_bus_size_gt_Ok in Hgt. injection Hp as <-. split; [done|lia].
Qed.

Ltac constant_facts :=
  repeat match goal with
  | H : parse_binary_digits _ = Ok _ |- _ =>
      apply (λ H', parse_constant_vars _ _ _ (or_introl H')) in H
  | H : parse_binary_constant _ = Ok _ |- _ =>
      apply (λ H', parse_constant_vars _ _ _ (or_intror (or_introl H'))) in H
  | H : parse_decimal_constant _ = Ok _ |- _ =>
      apply (λ H', parse_constant_vars _ _ _
                     (or_intror (or_intror (or_introl H')))) in H
  | H : parse_hexadecimal_constant _ = Ok _ |- _ =>
      apply (λ H', parse_constant_vars _ _ _
                     (or_intror (or_intror (or_intror H')))) in H
  end.

(** A parsed expression leaves the tables alone, satisfies the width
    checks and reads declared variables only. *)
Lemma parse_expression_Ok st e st' :
  parse_expression st = Ok (e, st') →
  vars st' = vars st ∧ expression_checked e ∧
  ∀ x, x ∈ expression_vars e → vars_named (vars st) →
       al_contains x (vars st) = true.
Proof.
  unfold parse_expression, parse_binop, unexpected_token, exit.
  intros Hp. destruct (kind (m_token st)); try done;
    repeat pbind Hp; try (injection Hp as <- <-);
    repeat match goal with
    | H : slice_expression _ _ _ = Ok _ |- _ =>
        apply slice_expression_Ok in H as [-> ?]
    end;
    constant_facts; parse_facts; subst; simpl in *.
  all: try (split; [congruence|]).
  all: try (split; [done || lia|]).
  all: try (intros x Hx Hn; by apply not_elem_of_nil in Hx).
  all: try (intros x Hx Hn; by eapply found_is_declared).
  all: try (intros x Hx Hn; rewrite ?elem_of_app in Hx;
            repeat match goal with
            | Hv : vars _ = vars _ |- _ => rewrite Hv in *
            end; intuition eauto; fail).
Qed.

(** X10: an expression that [parse_expression] returns has passed the width
    checks: the operands of a binary operator have one width, the choice of
    a MUX has width 1 and its branches one width, a SELECT index and both
    SLICE indices lie below the width of the argument with begin < end,
    the addresses of a ROM or RAM have the address size, the write enable
    width 1 and the data the word size; sizes and indices are at most 64. *)
Theorem parse_expression_checks_widths st e st' :
  parse_expression st = Ok (e, st') → expression_checked e.
Proof.
  intros Hp. by destruct (parse_expression_Ok _ _ _ Hp) as (_ & Hchecked & _).
Qed.

(** The theorem at work on [AND a a]. *)
Lemma parse_expression_checks_widths_witness :
  expression_checked
    (BinOpExpression AND (ArgVariable idreg_a) (ArgVariable idreg_a)).
Proof.
  apply (parse_expression_checks_widths and_state _ (mkParser [] [] [("a", idreg_a)])).
  vm_compute. reflexivity.
Defined.

(** ** What a successful parse of a program guarantees *)

Lemma references_loop_S stop msg fuel var st :
  references_loop stop msg (S fuel) var st =
    if decide (kind (m_token st) = stop) then Ok (var, st)
    else
      _ ← token_assert st IDENTIFIER;
      if decide (spelling (m_token st) ∈ var)
      then exit (parse_error msg (spelling (m_token st)))
      else
        let var := var ++ [spelling (m_token st)] in
        let st1 := consume st in
        _ ← token_assert_set st1 [COMMA; stop];
        let st2 := if decide (kind (m_token st1) = COMMA)
                   then consume st1 else st1 in
        references_loop stop msg fuel var st2.
Proof. reflexivity. Qed.

Lemma references_loop_Ok stop msg fuel var st refs st' :
  references_loop stop msg fuel var st = Ok (refs, st') →
  NoDup var → NoDup refs ∧ vars st' = vars st.
Proof.
  revert var st. induction fuel as [|fuel IH]; intros var st Hp Hnd; [done|].
  rewrite references_loop_S in Hp.
  destruct (decide (kind (m_token st) = stop)); [by injection Hp as <- <-|].
  apply bind_Ok in Hp as (u & _ & Hp).
  destruct (decide (spelling (m_token st) ∈ var)) as [|Hnew]; [done|].
  simpl in Hp. apply bind_Ok in Hp as (u' & _ & Hp).
  apply IH in Hp as [Hnd' Hv].
  - split; [done|]. rewrite Hv. by destruct (decide _).
  - apply NoDup_app. split; [done|]. split; [|apply NoDup_singleton].
    intros x Hx Hx'. apply list_elem_of_singleton in Hx'. by subst x.
Qed.

Lemma variable_declaration_loop_S fuel st :
  variable_declaration_loop (S fuel) st =
    if decide (kind (m_token st) = KEY_IN) then Ok st
    else
      _ ← token_assert st IDENTIFIER;
      let v_spelling := spelling (m_token st) in
      let st1 := consume st in
      '(v_size, st2) ←
        (if decide (kind (m_token st1) = COLON)
         then parse_bus_size (consume st1)
         else Ok (1, st1));
      if al_contains v_spelling (var_decl st2)
      then exit (parse_error
             "The variable '{}' has already been declared at {}." v_spelling)
      else
        let st3 :=
          mkParser (tokens st2)
            (al_emplace v_spelling (mkDecl v_spelling v_size) (var_decl st2))
            (al_emplace v_spelling (mkVariable v_size v_spelling) (vars st2)) in
        _ ← token_assert_set st3 [COMMA; KEY_IN];
        if decide (kind (m_token st3) = COMMA) then
          let st4 := consume st3 in
          _ ← token_assert st4 IDENTIFIER;
          variable_declaration_loop fuel st4
        else variable_declaration_loop fuel st3.
Proof. reflexivity. Qed.

Lemma table_ok_emplace vars name size :
  table_ok vars → 0 ≤ size ≤ max_bus_size →
  table_ok (al_emplace name (mkVariable size name) vars).
Proof.
  intros (Hnamed & Hnd & Hw) Hsize. split; [|split].
  - intros k v [Hin|[= -> ->]]%al_emplace_elem_of; [by apply Hnamed|done].
  - by apply al_emplace_keys.
  - intros k v [Hin|[= -> ->]]%al_emplace_elem_of; [by eapply Hw|done].
Qed.

Lemma variable_declaration_loop_Ok fuel st st' :
  variable_declaration_loop fuel st = Ok st' →
  table_ok (vars st) → table_ok (vars st').
Proof.
  revert st. induction fuel as [|fuel IH]; intros st Hp Hok; [done|].
  rewrite variable_declaration_loop_S in Hp.
  destruct (decide (kind (m_token st) = KEY_IN)); [by injection Hp as <-|].
  apply bind_Ok in Hp as (u & _ & Hp). simpl in Hp.
  apply bind_Ok in Hp as ([v_size st2] & Hsize & Hp). simpl in Hp.
  assert (Hst2 : 0 ≤ v_size ≤ max_bus_size ∧ vars st2 = vars st).
  { destruct (decide (kind (m_token (consume st)) = COLON)).
    - apply parse_bus_size_Ok in Hsize as [Hs ->]. done.
    - injection Hsize as <- <-. split; [unfold max_bus_size; lia|done]. }
  destruct Hst2 as [Hs Hv].
  destruct (al_contains _ (var_decl st2)); [done|].
  apply bind_Ok in Hp as (u' & _ & Hp).
  assert (Hnew : table_ok
            (al_emplace (spelling (m_token st))
               (mkVariable v_size (spelling (m_token st))) (vars st2))).
  { apply table_ok_emplace; [by rewrite Hv|done]. }
  destruct (decide (kind _ = COMMA)).
  - apply bind_Ok in Hp as (u'' & _ & Hp). by apply IH in Hp.
  - by apply IH in Hp.
Qed.

Lemma resolve_references_Ok msg st refs vs :
  resolve_references msg st refs = Ok vs →
  vars_named (vars st) →
  map var_name vs = refs ∧ ∀ v, v ∈ vs → (var_name v, v) ∈ vars st.
Proof.
  intros Hp Hnamed. revert vs Hp.
  induction refs as [|r refs IH]; intros vs Hp.
  - injection Hp as <-. split; [done|]. intros v Hv.
    by apply not_elem_of_nil in Hv.
  - simpl in Hp. destruct (al_find r (vars st)) as [v|] eqn:Hf; [|done].
    apply bind_Ok in Hp as (vs' & Hvs & Hp). injection Hp as <-.
    destruct (IH _ Hvs) as [Hmap Hin].
    apply al_find_elem_of in Hf. pose proof (Hnamed _ _ Hf) as Hname.
    split; [simpl; congruence|].
    intros w [->|Hw]%elem_of_cons; [by rewrite Hname|by apply Hin].
Qed.

Lemma al_contains_elem_of {V} k (v : V) l :
  (k, v) ∈ l → al_contains k l = true.
Proof.
  intros Hin. destruct (al_contains k l) eqn:Hc; [done|].
  apply al_contains_false in Hc. exfalso. apply Hc.
  apply list_elem_of_fmap. by exists (k, v).
Qed.

Lemma parse_equation_Ok st p p' st' :
  parse_equation st p = Ok (p', st') →
  table_ok (vars st) → equations_ok (vars st) (m_eq p) →
  vars st' = vars st ∧ m_input p' = m_input p ∧ m_output p' = m_output p ∧
  m_vars p' = m_vars p ∧ equations_ok (vars st) (m_eq p').
Proof.
  unfold parse_equation, exit. intros Hp (Hnamed & Hnd & Hw) [Hkeys Heqs].
  apply bind_Ok in Hp as (u & _ & Hp).
  destruct (al_find _ (vars st)) as [v|] eqn:Hv; [|done].
  apply bind_Ok in Hp as (u' & _ & Hp).
  apply bind_Ok in Hp as ([eq st3] & Hexpr & Hp). simpl in Hp.
  apply parse_expression_Ok in Hexpr as (Hvars & Hchecked & Hread).
  simpl in Hvars, Hread.
  assert (Hsame : ∀ q : Program,
            (if decide (Expression_get_bus_size eq ≠ var_bus_size v)
             then q else q) = q) by (intros q; by destruct (decide _)).
  rewrite !Hsame in Hp. injection Hp as <- <-. simpl.
  split; [done|]. split; [done|]. split; [done|]. split; [done|].
  split; [by apply al_emplace_keys|].
  intros k e Hin. apply al_emplace_elem_of in Hin as [Hin|[= -> ->]];
    [by apply Heqs|].
  apply al_find_elem_of in Hv. rewrite (Hnamed _ _ Hv).
  split; [by eapply al_contains_elem_of|]. split; [done|].
  intros x Hx. by apply Hread.
Qed.

Lemma equations_loop_S fuel st p :
  equations_loop (S fuel) st p =
    if decide (kind (m_token st) = EOI) then Ok (p, st)
    else '(p', st') ← parse_equation st p; equations_loop fuel st' p'.
Proof. reflexivity. Qed.

Lemma equations_loop_Ok fuel st p p' st' :
  equations_loop fuel st p = Ok (p', st') →
  table_ok (vars st) → equations_ok (vars st) (m_eq p) →
  vars st' = vars st ∧ m_input p' = m_input p ∧ m_output p' = m_output p ∧
  m_vars p' = m_vars p ∧ equations_ok (vars st) (m_eq p').
Proof.
  revert st p. induction fuel as [|fuel IH]; intros st p Hp Hok Heqs; [done|].
  rewrite equations_loop_S in Hp.
  destruct (decide (kind (m_token st) = EOI)); [by injection Hp as <- <-|].
  apply bind_Ok in Hp as ([p1 st1] & Hone & Hp). simpl in Hp.
  destruct (parse_equation_Ok _ _ _ _ Hone Hok Heqs)
    as (Hv1 & Hi1 & Ho1 & Hd1 & Heqs1).
  rewrite <- Hv1 in Hok, Heqs1.
  destruct (IH _ _ Hp Hok Heqs1) as (Hv & Hi & Ho & Hd & Heqs').
  rewrite Hv1 in Hv, Heqs'.
  split; [done|]. split; [congruence|]. split; [congruence|].
  split; [congruence|done].
Qed.

Lemma check_declared_Ok in_refs p decls p' :
  check_declared in_refs p decls = Ok p' →
  m_input p' = m_input p ∧ m_output p' = m_output p ∧ m_eq p' = m_eq p ∧
  m_vars p' = m_vars p ++ decls.*2 ∧
  ∀ k v, (k, v) ∈ decls →
    var_name v ∈ in_refs ∨ al_contains (var_name v) (m_eq p) = true.
Proof.
  revert p. induction decls as [|[k v] decls IH]; intros p Hp.
  - injection Hp as <-. rewrite app_nil_r.
    split; [done|]. split; [done|]. split; [done|]. split; [done|].
    intros k v Hin. by apply not_elem_of_nil in Hin.
  - simpl in Hp.
    destruct (bool_decide (var_name v ∈ in_refs) || al_contains (var_name v) (m_eq p))
      eqn:Hcheck; [|done].
    destruct (IH _ Hp) as (Hi & Ho & He & Hd & Hall). simpl in *.
    split; [done|]. split; [done|]. split; [done|].
    split; [by rewrite Hd, <- app_assoc|].
    intros k' v' [[= -> ->]|Hin]%elem_of_cons; [|by eapply Hall].
    apply orb_true_iff in Hcheck as [Hin|Heq]; [left|by right].
    by apply bool_decide_eq_true in Hin.
Qed.

Lemma parse_program_Ok toks p :
  parse_program toks = Ok p →
  ∃ vars, table_ok vars ∧ equations_ok vars (m_eq p) ∧
    m_vars p = vars.*2 ∧
    NoDup (map var_name (m_input p)) ∧ NoDup (map var_name (m_output p)) ∧
    (∀ v, v ∈ m_input p ∨ v ∈ m_output p → (var_name v, v) ∈ vars) ∧
    ∀ k v, (k, v) ∈ vars →
      var_name v ∈ map var_name (m_input p) ∨
      al_contains (var_name v) (m_eq p) = true.
Proof.
  unfold parse_program, parse_inputs_references, parse_outputs_references,
    parse_variable_declaration, build_intput_output_list, parse_equations.
  intros Hp.
  apply bind_Ok in Hp as ([in_refs st1] & Hin & Hp). simpl in Hp.
  apply bind_Ok in Hin as (u1 & _ & Hin).
  apply references_loop_Ok in Hin as [Hnd_in Hv1]; [|constructor].
  apply bind_Ok in Hp as ([out_refs st2] & Hout & Hp). simpl in Hp.
  apply bind_Ok in Hout as (u2 & _ & Hout).
  apply references_loop_Ok in Hout as [Hnd_out Hv2]; [|constructor].
  apply bind_Ok in Hp as (st3 & Hdecl & Hp).
  apply bind_Ok in Hdecl as (u3 & _ & Hdecl).
  apply variable_declaration_loop_Ok in Hdecl as Htable.
  2:{ simpl. rewrite Hv2. simpl. rewrite Hv1. simpl.
      split; [|split; [constructor|]]; intros k v Hkv;
        by apply not_elem_of_nil in Hkv. }
  apply bind_Ok in Hp as (p1 & Hbuild & Hp).
  apply bind_Ok in Hbuild as (ins & Hins & Hbuild).
  apply bind_Ok in Hbuild as (outs & Houts & Hbuild).
  injection Hbuild as <-. simpl in Hp.
  pose proof Htable as (Hnamed & _ & _).
  apply resolve_references_Ok in Hins as [Hins_names Hins_in]; [|done].
  apply resolve_references_Ok in Houts as [Houts_names Houts_in]; [|done].
  apply bind_Ok in Hp as ([p2 st4] & Heqs & Hp). simpl in Hp.
  apply bind_Ok in Heqs as (u4 & _ & Heqs).
  apply equations_loop_Ok in Heqs as (Hv4 & Hi4 & Ho4 & Hd4 & Heqs_ok);
    [|done|].
  2:{ simpl. split; [constructor|]. intros k e Hke.
      by apply not_elem_of_nil in Hke. }
  simpl in *.
  apply check_declared_Ok in Hp as (Hi & Ho & He & Hd & Hall).
  rewrite Hv4 in Hd, Hall.
  exists (vars st3). rewrite He, Hi, Ho, Hi4, Ho4, Hd, Hd4. simpl.
  split; [done|]. split; [done|]. split; [done|].
  split; [by rewrite Hins_names|]. split; [by rewrite Houts_names|].
  split.
  - intros v [Hv|Hv]; [by apply Hins_in|by apply Houts_in].
  - intros k v Hkv. rewrite Hins_names.
    destruct (Hall k v Hkv) as [Hl|Hr]; [by left|right].
    done.
Qed.

Lemma table_names (vars : list (ident_t * Variable_)) :
  vars_named vars → map var_name vars.*2 = vars.*1.
Proof.
  intros Hnamed. induction vars as [|[k v] vars IH]; [done|].
  simpl. rewrite (Hnamed k v) by (by left).
  f_equal. apply IH. intros k' v' Hin. apply Hnamed. by right.
Qed.

Lemma table_contains (vars : list (ident_t * Variable_)) x :
  vars_named vars → al_contains x vars = true → x ∈ map var_name vars.*2.
Proof.
  intros Hnamed Hc. rewrite table_names by done.
  apply al_contains_true in Hc as [v Hv].
  apply list_elem_of_fmap. by exists (x, v).
Qed.

(** X11: a program that [parse_program] returns is well formed.  It is
    closed: every variable an equation reads is an input or has an equation.
    The declared variables, the inputs, the outputs and the equation targets
    are each free of duplicates; inputs and outputs are declared; every
    declared variable has a width of at most 64 and is an input or has an
    equation; every equation has a declared target, passed the width
    checks and reads declared variables only. *)
Theorem parse_program_well_formed toks p :
  parse_program toks = Ok p →
  program_closed p ∧
  NoDup (map var_name (m_vars p)) ∧
  NoDup (map var_name (m_input p)) ∧ NoDup (map var_name (m_output p)) ∧
  NoDup (m_eq p).*1 ∧
  (∀ v, v ∈ m_input p ∨ v ∈ m_output p → v ∈ m_vars p) ∧
  (∀ v, v ∈ m_vars p →
     0 ≤ var_bus_size v ≤ max_bus_size ∧
     (var_name v ∈ map var_name (m_input p) ∨
      al_contains (var_name v) (m_eq p) = true)) ∧
  (∀ k e, (k, e) ∈ m_eq p →
     k ∈ map var_name (m_vars p) ∧ expression_checked e ∧
     ∀ x, x ∈ expression_vars e → x ∈ map var_name (m_vars p)).
Proof.
  intros Hp.
  destruct (parse_program_Ok _ _ Hp)
    as (vars & (Hnamed & Hnd & Hw) & [Hkeys Heqs] & Hvars & Hin & Hout & Hio & Hall).
  assert (Hdecl : ∀ v, v ∈ m_vars p → (var_name v, v) ∈ vars).
  { intros v Hv. rewrite Hvars in Hv.
    apply list_elem_of_fmap in Hv as ([k v'] & -> & Hkv). simpl.
    by rewrite (Hnamed _ _ Hkv). }
  split; [|split; [|split; [|split; [|split; [|split; [|split]]]]]];
    try done.
  - intros k e x Hke Hx. unfold get_equations, get_inputs in *.
    destruct (Heqs _ _ Hke) as (_ & _ & Hread).
    destruct (al_contains_true _ _ (Hread x Hx)) as [v Hv].
    rewrite <- (Hnamed _ _ Hv). by apply (Hall x v).
  - rewrite Hvars, table_names by done. done.
  - intros v Hv. rewrite Hvars. apply list_elem_of_fmap.
    exists (var_name v, v). split; [done|]. by apply Hio.
  - intros v Hv. apply Hdecl in Hv.
    split; [by apply (Hw _ _ Hv)|by apply (Hall _ _ Hv)].
  - intros k e Hke. destruct (Heqs _ _ Hke) as (Htarget & Hchecked & Hread).
    rewrite Hvars. split; [by apply table_contains|]. split; [done|].
    intros x Hx. by apply table_contains, Hread.
Qed.

(** The theorem at work on the identity register. *)
Lemma parse_program_well_formed_witness :
  program_closed idreg_program ∧
  NoDup (map var_name (m_vars idreg_program)) ∧
  NoDup (map var_name (m_input idreg_program)) ∧
  NoDup (map var_name (m_output idreg_program)) ∧
  NoDup (m_eq idreg_program).*1 ∧
  (∀ v, v ∈ m_input idreg_program ∨ v ∈ m_output idreg_program →
        v ∈ m_vars idreg_program) ∧
  (∀ v, v ∈ m_vars idreg_program →
     0 ≤ var_bus_size v ≤ max_bus_size ∧
     (var_name v ∈ map var_name (m_input idreg_program) ∨
      al_contains (var_name v) (m_eq idreg_program) = true)) ∧
  (∀ k e, (k, e) ∈ m_eq idreg_program →
     k ∈ map var_name (m_vars idreg_program) ∧ expression_checked e ∧
     ∀ x, x ∈ expression_vars e → x ∈ map var_name (m_vars idreg_program)).
Proof.
  apply (parse_program_well_formed idreg_source idreg_program).
  vm_compute. reflexivity.
Defined.

(** ** Constants fit their width *)

Lemma from_chars_bound s base acc count v n rest :
  from_chars s base acc count = (v, n, rest) → 1 ≤ base → 0 ≤ acc →
  ∃ m : nat, n = (count + m)%nat ∧ (m ≤ String.length s)%nat ∧
             v < (acc + 1) * base ^ Z.of_nat m.
Proof.
  revert acc count. induction s as [|c s IH]; intros acc count Hf Hb Hacc.
  - injection Hf as <- <- _. exists 0%nat. simpl. split; [lia|]. split; lia.
  - simpl in Hf. destruct (digit_of c) as [d|] eqn:Hd.
    + destruct (decide (d < base)) as [Hlt|Hge].
      * assert (0 ≤ d).
        { unfold digit_of in Hd.
          repeat match type of Hd with
                 | context [decide ?P] => destruct (decide P)
                 end; simplify_eq; lia. }
        destruct (IH _ _ Hf Hb) as (m & -> & Hm & Hv); [nia|].
        exists (S m). split; [lia|]. split; [simpl; lia|].
        rewrite Nat2Z.inj_succ, Z.pow_succ_r by lia.
        assert (0 < base ^ Z.of_nat m) by (apply Z.pow_pos_nonneg; lia).
        nia.
      * injection Hf as <- <- _. exists 0%nat. simpl.
        split; [lia|]. split; lia.
    + injection Hf as <- <- _. exists 0%nat. simpl. split; [lia|]. split; lia.
Qed.

Lemma parse_int_digits max token base v :
  parse_int max token base = Ok v → 1 ≤ base →
  0 ≤ v < base ^ Z.of_nat (String.length (spelling token)).
Proof.
  intros Hp Hb. split; [apply (parse_int_Ok _ _ _ _ Hp); lia|].
  unfold parse_int, exit in Hp.
  destruct (from_chars _ _ _ _) as [[v' count] rest] eqn:Hf.
  repeat case_decide; try done. injection Hp as <-.
  apply from_chars_bound in Hf as (m & _ & Hm & Hv); [|lia..].
  assert (base ^ Z.of_nat m ≤ base ^ Z.of_nat (String.length (spelling token)))
    by (apply Z.pow_le_mono_r; lia).
  lia.
Qed.

(** X12: a binary, decimal or hexadecimal constant that the parser accepts
    fits its width: with a size specifier the value was checked against the
    largest value of that width; without one, a binary constant gets one
    bit and a hexadecimal constant four bits per digit of its spelling. *)
Theorem prefixed_constants_fit_their_width st c st' :
  parse_binary_constant st = Ok (c, st') ∨
  parse_decimal_constant st = Ok (c, st') ∨
  parse_hexadecimal_constant st = Ok (c, st') →
  Z.of_nat (String.length (spelling (m_token st))) * 4 < 2 ^ 32 →
  0 ≤ cst_value c ≤ Bus_max_value (cst_bus_size c).
Proof.
  intros Hp Hlen. unfold Bus_max_value.
  set (len := Z.of_nat (String.length (spelling (m_token st)))) in *.
  assert (Hwrap : wrap32 len = len ∧ wrap32 (len * 4) = len * 4).
  { unfold wrap32. split; apply Z.mod_small; lia. }
  destruct Hwrap as [Hw1 Hw4].
  destruct Hp as [Hp|[Hp|Hp]];
    [unfold parse_binary_constant in Hp
    |unfold parse_decimal_constant in Hp
    |unfold parse_hexadecimal_constant in Hp];
    unfold exit in Hp;
    apply bind_Ok in Hp as (u & _ & Hp);
    apply bind_Ok in Hp as (val & Hval & Hp);
    apply bind_Ok in Hp as ([size st1] & _ & Hp); simpl in Hp;
    pose proof (parse_int_Ok _ _ _ _ Hval ltac:(lia)) as Hpos;
    (destruct size as [size|]; [case_decide; [done|]|]); try done;
    injection Hp as <- _; simpl; unfold Bus_max_value in *; try lia.
  - apply parse_int_digits in Hval; [|lia].
    unfold spelling_size. fold len in Hval |- *. rewrite Hw1. lia.
  - apply parse_int_digits in Hval; [|lia].
    unfold spelling_size. fold len in Hval |- *. rewrite Hw1, Hw4.
    replace (2 ^ (len * 4)) with (16 ^ len); [lia|].
    rewrite Z.mul_comm, Z.pow_mul_r by lia. done.
Qed.

(** The theorem at work on the constant [0b101]. *)
Lemma prefixed_constants_fit_their_width_witness :
  0 ≤ cst_value (mkConstant 3 5) ≤ Bus_max_value (cst_bus_size (mkConstant 3 5)).
Proof.
  apply (prefixed_constants_fit_their_width constant_state (mkConstant 3 5)
           (mkParser [] [] [])).
  - left. vm_compute. reflexivity.
  - vm_compute. reflexivity.
Defined.

(** ** Programs without memories always complete their cycles *)

Lemma fill_blocks_length mm garbage blocks st log st' :
  fill_blocks mm garbage blocks st = (log, Ok st') →
  length (init_memory st') = length (init_memory st).
Proof.
  revert st. induction blocks as [|[n c] blocks IH]; intros st H.
  - by injection H as _ <-.
  - simpl in H.
    destruct (fill_block mm (garbage n) n c st) as [l [st1|]] eqn:Hb; [|done].
    rewrite (IH _ H). unfold fill_block in Hb.
    repeat case_match; simplify_eq; simpl;
      match goal with
      | Hc : copy_into _ _ _ = Ok _ |- _ => by apply copy_into_Ok in Hc as [-> _]
      end.
Qed.

Lemma Simulator_new_length dep blocks garbage p log s :
  Simulator_new dep blocks garbage p = (log, Ok s) →
  length (memory s) = Z.to_nat (current_index (MemoryMapper_new p)).
Proof.
  unfold Simulator_new. intros H.
  destruct (fill_blocks _ _ _ _) as [l [st|]] eqn:Hfill; [|done].
  injection H as _ <-. simpl.
  rewrite (fill_blocks_length _ _ _ _ _ _ Hfill). simpl.
  by rewrite length_replicate.
Qed.

Lemma cycle_length inputs s s' :
  cycle inputs s = Ok s' → length (memory s') = length (memory s).
Proof.
  unfold cycle. intros H.
  apply bind_Ok in H as (env2 & _ & H).
  apply bind_Ok in H as (mem1 & Hsave & H).
  apply bind_Ok in H as (mem2 & Hwrite & H).
  injection H as <-. simpl.
  rewrite (ram_writes_length _ _ _ _ Hwrite).
  by rewrite (save_registers_length _ _ _ _ Hsave).
Qed.

Lemma simulate_length ins s s' :
  simulate ins s = Ok s' → length (memory s') = length (memory s).
Proof.
  revert s. induction ins as [|i ins IH]; intros s H.
  - by injection H as <-.
  - simpl in H. apply bind_Ok in H as (s1 & Hc & H).
    rewrite (IH _ H). by apply (cycle_length i).
Qed.

(** A safe expression over bound variables, whose REG source has a slot
    inside the memory, evaluates. *)
Lemma eval_safe (env : var_env) mem mm var e :
  shift_safe e →
  (∀ x, x ∈ expression_vars e → is_Some (env !! x)) →
  (∀ u, e = RegExpression u →
     ∃ i, al_find (var_name u) (reg_info mm) = Some i ∧
          0 ≤ i < Z.of_nat (length mem)) →
  ∃ v, eval env mem mm var e = Ok v.
Proof.
  intros Hsafe Hvars Hreg.
  destruct e; simpl in *; try done.
  - bound_arg env Hvars a. eauto.
  - destruct (Hreg v eq_refl) as (i & Hi & Hlt).
    unfold al_at. rewrite Hi. simpl. unfold vec_get.
    rewrite decide_True by lia.
    destruct (lookup_lt_is_Some_2 mem (Z.to_nat i)) as [x Hx]; [lia|].
    rewrite Hx. simpl. eauto.
  - bound_arg env Hvars a. eauto.
  - bound_arg env Hvars lhs. bound_arg env Hvars rhs. eauto.
  - bound_arg env Hvars choice. bound_arg env Hvars true_arg.
    bound_arg env Hvars false_arg. case_decide; eauto.
  - bound_arg env Hvars beginning_part. bound_arg env Hvars last_part.
    unfold shl64. rewrite decide_True by done. simpl. eauto.
  - bound_arg env Hvars a. unfold shr64, shl64.
    assert (Hn : wrap32 (end_index - begin_index + 1)
                 = end_index - begin_index + 1).
    { unfold wrap32. apply Z.mod_small. lia. }
    rewrite Hn.
    rewrite (decide_True (P := 0 ≤ begin_index < 64)) by lia. simpl.
    rewrite (decide_True (P := 0 ≤ end_index - begin_index + 1 < 64)) by lia.
    simpl. eauto.
  - bound_arg env Hvars a. unfold shr64. rewrite decide_True by done.
    simpl. eauto.
Qed.

Lemma eval_equations_safe p deps mem (env : var_env) :
  program_closed p → schedule_defined p deps → env_covers p env →
  (∀ k e, (k, e) ∈ get_equations p → shift_safe e) →
  (∀ u i, (u, i) ∈ reg_info (MemoryMapper_new p) →
          0 ≤ i < Z.of_nat (length mem)) →
  ∃ env', eval_equations p (MemoryMapper_new p) mem deps env = Ok env'.
Proof.
  intros Hclosed Hsched Hcov Hsafe Hslots. revert env Hcov.
  induction deps as [|var deps IH]; intros env Hcov; [by eexists|].
  simpl.
  destruct (al_contains_find _ _ (Hsched var ltac:(by left))) as [expr Hexpr].
  unfold al_at. rewrite Hexpr. simpl.
  pose proof (al_find_elem_of _ _ _ Hexpr) as Hin.
  destruct (eval_safe env mem (MemoryMapper_new p) var expr) as [v Hv].
  - by eapply Hsafe.
  - intros x Hx. apply Hcov. by eapply Hclosed.
  - intros u ->. destruct (mapper_complete p) as (Hreg & _ & _).
    destruct (al_contains_find _ _ (Hreg _ _ Hin)) as [i Hi].
    exists i. split; [done|]. apply (Hslots (var_name u)).
    by apply al_find_elem_of.
  - rewrite Hv. simpl. apply IH.
    + intros w Hw. apply Hsched. by right.
    + intros x Hx. destruct (decide (var_name var = x)) as [->|Hne].
      * rewrite lookup_insert_eq. eauto.
      * rewrite lookup_insert_ne by done. by apply Hcov.
Qed.

Lemma save_registers_safe (env : var_env) regs mem :
  (∀ u i, (u, i) ∈ regs →
     is_Some (env !! u) ∧ 0 ≤ i < Z.of_nat (length mem)) →
  ∃ mem', save_registers env regs mem = Ok mem'.
Proof.
  revert mem. induction regs as [|[u i] regs IH]; intros mem Hall;
    [by eexists|].
  simpl. destruct (Hall u i) as [[x Hx] Hi]; [by left|].
  rewrite Hx. simpl. unfold vec_set. rewrite decide_True by done. simpl.
  apply IH. intros u' i' Hin. rewrite length_insert.
  apply Hall. by right.
Qed.

(** X13: a closed program without ROM or RAM whose CONCAT, SLICE and
    SELECT never shift by 64 or more completes every cycle: with a schedule
    listing only variables that have an equation and a memory vector that
    fits [size_t], neither an exception nor undefined behaviour can occur,
    whatever the inputs. *)
Theorem memory_free_cycle_succeeds
    dep blocks garbage p log s0 ins s inputs :
  Simulator_new dep blocks garbage p = (log, Ok s0) →
  memory_fits p → program_closed p → schedule_defined p dep →
  (∀ k e, (k, e) ∈ get_equations p → shift_safe e) →
  simulate ins s0 = Ok s →
  ∃ s', cycle inputs s = Ok s'.
Proof.
  intros Hnew Hfit Hclosed Hsched Hsafe Hsim.
  destruct (Simulator_new_fields _ _ _ _ _ _ Hnew) as (Hp & Hdep & Hmm).
  destruct (simulate_fields _ _ _ Hsim) as (Hp' & Hdep' & Hmm').
  pose proof (Simulator_new_bound _ _ _ _ _ _ Hnew) as Hbound.
  pose proof (Simulator_new_length _ _ _ _ _ _ Hnew) as Hlen.
  pose proof (simulate_length _ _ _ Hsim) as Hlen'.
  pose proof (MemoryMapper_new_layout _ Hfit) as Hok.
  assert (Hslots : ∀ u i, (u, i) ∈ reg_info (MemoryMapper_new p) →
                          0 ≤ i < Z.of_nat (length (memory s))).
  { intros u i Hin. pose proof (lo_reg _ Hok _ _ Hin). lia. }
  unfold cycle. rewrite Hp', Hp, Hdep', Hdep, Hmm', Hmm.
  set (env1 := set_inputs inputs (get_inputs p) (env s)).
  assert (Hcov : env_covers p env1).
  { intros x [Hx|Hx].
    - apply list_elem_of_fmap in Hx as (v & -> & Hv). by apply set_inputs_binds.
    - destruct (simulate_keeps_bound _ _ _ x Hsim (Hbound x Hx)) as [y Hy].
      exists y. by apply set_inputs_bound. }
  destruct (eval_equations_safe p dep (memory s) env1) as [env2 Heval];
    try done.
  rewrite Heval. simpl.
  destruct (save_registers_safe env2 (reg_info (MemoryMapper_new p)) (memory s))
    as [mem1 Hsave].
  { intros u i Hin. split; [|by eapply Hslots].
    pose proof Hin as Hsrc.
    apply mapper_reg_sound in Hsrc as [Hsrc|(k & v & Hsrc & <-)];
      [by apply not_elem_of_nil in Hsrc|].
    apply (eval_equations_keeps _ _ _ _ _ _ _ Heval), Hcov.
    apply (Hclosed k (RegExpression v)); [done|]. simpl. by left. }
  rewrite Hsave. simpl.
  assert (Hram : ram_info (MemoryMapper_new p) = []).
  { destruct (ram_info (MemoryMapper_new p)) as [|[k info] rest] eqn:Hr; [done|].
    assert (Hin : (k, info) ∈ ram_info (MemoryMapper_new p))
      by (rewrite Hr; by left).
    apply mapper_ram_sound in Hin as [Hin|(a & w & ra & Hin & _)];
      [by apply not_elem_of_nil in Hin|].
    destruct (Hsafe _ _ Hin). }
  rewrite Hram. simpl. by eexists.
Qed.

(** The theorem at work on a register fed by a slice of itself. *)
Lemma memory_free_cycle_succeeds_witness :
  ∃ s', cycle (λ _, 0) loop_initial = Ok s'.
Proof.
  apply (memory_free_cycle_succeeds loop_schedule [] no_garbage loop_program
           [] loop_initial [] loop_initial (λ _, 0)).
  - vm_compute; reflexivity.
  - unfold memory_fits. simpl. repeat split; vm_compute; reflexivity.
  - intros k e x Hin Hx. right.
    apply list_elem_of_In in Hin. simpl in Hin.
    destruct Hin as [[= <- <-]|[[= <- <-]|[]]];
      apply list_elem_of_In in Hx; simpl in Hx;
      destruct Hx as [<-|[]]; reflexivity.
  - intros v Hv. apply list_elem_of_In in Hv. simpl in Hv.
    destruct Hv as [<-|[<-|[]]]; reflexivity.
  - intros k e Hin. apply list_elem_of_In in Hin. simpl in Hin.
    destruct Hin as [[= <- <-]|[[= <- <-]|[]]]; simpl; lia.
  - reflexivity.
Defined.

(** ** Uninitialised locals are never read for chunks that name a block *)

Lemma fill_block_declared_garbage mm g g' n c st :
  al_contains n (ram_info mm) = true ∨ al_contains n (rom_info mm) = true →
  fill_block mm g n c st = fill_block mm g' n c st.
Proof.
  intros Hdecl. unfold fill_block.
  destruct (al_find n (ram_info mm)) as [a|] eqn:Ha; [done|].
  destruct (al_find n (rom_info mm)) as [o|] eqn:Ho; [done|].
  unfold al_contains in Hdecl. rewrite Ha, Ho in Hdecl. by destruct Hdecl.
Qed.

(** X14: when every supplied chunk names a RAM or ROM block, the
    constructor never reads its two uninitialised locals: its result, diagnostics
    included, is the same whatever they hold. *)
Theorem construction_ignores_uninitialised_locals
    dep blocks garbage garbage' p :
  chunks_declared (MemoryMapper_new p) blocks →
  Simulator_new dep blocks garbage p = Simulator_new dep blocks garbage' p.
Proof.
  intros Hdecl. unfold Simulator_new.
  assert (Hfill : ∀ st,
            fill_blocks (MemoryMapper_new p) garbage blocks st =
            fill_blocks (MemoryMapper_new p) garbage' blocks st).
  { induction blocks as [|[n c] blocks IH]; intros st; [done|]. simpl.
    rewrite (fill_block_declared_garbage _ (garbage n) (garbage' n))
      by (apply (Hdecl n c); by left).
    destruct (fill_block _ _ _ _ _) as [l [st1|]]; [|done].
    apply IH. intros n' c' Hin. apply (Hdecl n' c'). by right. }
  by rewrite Hfill.
Qed.

(** The theorem at work on the RAM next to a register, with its chunk. *)
Lemma construction_ignores_uninitialised_locals_witness :
  Simulator_new regram_schedule regram_memory_blocks no_garbage regram_program
  = Simulator_new regram_schedule regram_memory_blocks unused_garbage
      regram_program.
Proof.
  apply (construction_ignores_uninitialised_locals regram_schedule
           regram_memory_blocks no_garbage unused_garbage regram_program).
  intros chunk_name memory_chunks Hin.
  apply list_elem_of_singleton in Hin. injection Hin as -> ->.
  left. reflexivity.
Defined.

(** ** Every failure of the parser is a diagnostic *)

Lemma bind_Err {A B} (r : result A) (k : A → result B) f :
  r ≫= k = Err f → r = Err f ∨ ∃ a, r = Ok a ∧ k a = Err f.
Proof.
  destruct r as [a|f']; intros H; [right; exists a; by split|].
  left. unfold mbind, result_bind in H. by injection H as ->.
Qed.

Lemma exit_diagnostic {A} msg subj f :
  (exit (parse_error msg subj) : result A) = Err f → diagnostic_or_fuel f.
Proof. intros [= <-]. right. by eexists. Qed.

Create HintDb diag discriminated.

Ltac diag_step :=
  match goal with
  | H : Ok _ = Err _ |- _ => discriminate H
  | H : exit (parse_error _ _) = Err _ |- _ => exact (exit_diagnostic _ _ _ H)
  | H : unexpected_token _ = Err _ |- _ => exact (exit_diagnostic _ _ _ H)
  | H : (_ ≫= _) = Err _ |- _ =>
      let a := fresh "a" in
      let Ha := fresh "Ha" in
      apply bind_Err in H as [H|(a & Ha & H)];
      [|try match type of a with
            | (_ * _)%type => destruct a as [? ?]
            end; simpl in H]
  | H : (if decide ?P then _ else _) = Err _ |- _ => destruct (decide P)
  | H : (if ?c then _ else _) = Err _ |- _ => destruct c eqn:?
  | H : match ?x with Some _ => _ | None => _ end = Err _ |- _ =>
      destruct x eqn:?
  | H : _ = Err ?f |- diagnostic_or_fuel ?f => solve [eauto with diag]
  end.

Ltac diag := repeat diag_step.

Lemma token_assert_diag st k f :
  token_assert st k = Err f → diagnostic_or_fuel f.
Proof. unfold token_assert. intros Hp. diag. Qed.

Lemma token_assert_set_diag st ks f :
  token_assert_set st ks = Err f → diagnostic_or_fuel f.
Proof. unfold token_assert_set. intros Hp. diag. Qed.

Lemma parse_int_diag max token base f :
  parse_int max token base = Err f → diagnostic_or_fuel f.
Proof.
  unfold parse_int. destruct (from_chars _ _ _ _) as [[v count] rest].
  intros Hp. diag.
Qed.

Lemma assert_same_bus_size_diag a b f :
  assert_same_bus_size a b = Err f → diagnostic_or_fuel f.
Proof. unfold assert_same_bus_size. intros Hp. diag. Qed.

Lemma assert_bus_size_eq_diag a n f :
  assert_bus_size_eq a n = Err f → diagnostic_or_fuel f.
Proof. unfold assert_bus_size_eq. intros Hp. diag. Qed.

Lemma assert_bus_size_gt_diag a n f :
  assert_bus_size_gt a n = Err f → diagnostic_or_fuel f.
Proof. unfold assert_bus_size_gt. intros Hp. diag. Qed.

#[local] Hint Resolve token_assert_diag token_assert_set_diag parse_int_diag
  assert_same_bus_size_diag assert_bus_size_eq_diag assert_bus_size_gt_diag
  : diag.

Lemma parse_bus_size_diag st f :
  parse_bus_size st = Err f → diagnostic_or_fuel f.
Proof. unfold parse_bus_size. intros Hp. diag. Qed.
#[local] Hint Resolve parse_bus_size_diag : diag.

Lemma parse_size_spec_diag st f :
  parse_size_spec st = Err f → diagnostic_or_fuel f.
Proof. unfold parse_size_spec. intros Hp. diag. Qed.
#[local] Hint Resolve parse_size_spec_diag : diag.

Lemma parse_binary_digits_diag st f :
  parse_binary_digits st = Err f → diagnostic_or_fuel f.
Proof. unfold parse_binary_digits. intros Hp. diag. Qed.

Lemma parse_binary_constant_diag st f :
  parse_binary_constant st = Err f → diagnostic_or_fuel f.
Proof. unfold parse_binary_constant. intros Hp. diag. Qed.

Lemma parse_decimal_constant_diag st f :
  parse_decimal_constant st = Err f → diagnostic_or_fuel f.
Proof. unfold parse_decimal_constant. intros Hp. diag. Qed.

Lemma parse_hexadecimal_constant_diag st f :
  parse_hexadecimal_constant st = Err f → diagnostic_or_fuel f.
Proof. unfold parse_hexadecimal_constant. intros Hp. diag. Qed.

Lemma parse_variable_diag st f :
  parse_variable st = Err f → diagnostic_or_fuel f.
Proof. unfold parse_variable. intros Hp. diag. Qed.

#[local] Hint Resolve parse_binary_digits_diag parse_binary_constant_diag
  parse_decimal_constant_diag parse_hexadecimal_constant_diag
  parse_variable_diag : diag.

Lemma parse_argument_diag st f :
  parse_argument st = Err f → diagnostic_or_fuel f.
Proof.
  unfold parse_argument, parse_constant_with. intros Hp.
  destruct (kind (m_token st)); diag.
Qed.
#[local] Hint Resolve parse_argument_diag : diag.

Lemma parse_expression_diag st f :
  parse_expression st = Err f → diagnostic_or_fuel f.
Proof.
  unfold parse_expression, parse_binop, slice_expression. intros Hp.
  destruct (kind (m_token st)); diag.
Qed.
#[local] Hint Resolve parse_expression_diag : diag.

Lemma references_loop_diag stop msg fuel var st f :
  references_loop stop msg fuel var st = Err f → diagnostic_or_fuel f.
Proof.
  revert var st. induction fuel as [|fuel IH]; intros var st Hp.
  - injection Hp as <-. by left.
  - rewrite references_loop_S in Hp. cbv zeta in Hp. diag.
Qed.

Lemma variable_declaration_loop_diag fuel st f :
  variable_declaration_loop fuel st = Err f → diagnostic_or_fuel f.
Proof.
  revert st. induction fuel as [|fuel IH]; intros st Hp.
  - injection Hp as <-. by left.
  - rewrite variable_declaration_loop_S in Hp. cbv zeta in Hp. diag.
Qed.

Lemma resolve_references_diag msg st refs f :
  resolve_references msg st refs = Err f → diagnostic_or_fuel f.
Proof.
  induction refs as [|r refs IH]; simpl; intros Hp; diag.
Qed.

Lemma parse_equation_diag st p f :
  parse_equation st p = Err f → diagnostic_or_fuel f.
Proof. unfold parse_equation. intros Hp. diag. Qed.
#[local] Hint Resolve references_loop_diag variable_declaration_loop_diag
  resolve_references_diag parse_equation_diag : diag.

Lemma equations_loop_diag fuel st p f :
  equations_loop fuel st p = Err f → diagnostic_or_fuel f.
Proof.
  revert st p. induction fuel as [|fuel IH]; intros st p Hp.
  - injection Hp as <-. by left.
  - rewrite equations_loop_S in Hp. diag.
Qed.

Lemma check_declared_diag in_refs p decls f :
  check_declared in_refs p decls = Err f → diagnostic_or_fuel f.
Proof.
  revert p. induction decls as [|[k v] decls IH]; intros p Hp; simpl in Hp;
    diag.
Qed.
#[local] Hint Resolve equations_loop_diag check_declared_diag : diag.


(** * Properties of the lexer *)

Section lexer_facts.
Import Lexer.

Lemma length_append s r :
  String.length (s +:+ r) = (String.length s + String.length r)%nat.
Proof. induction s as [|c s IH]; simpl; [done|]. by rewrite IH. Qed.

Lemma substring_append s r : String.substring 0 (String.length s) (s +:+ r) = s.
Proof.
  induction s as [|c s IH]; simpl; [by destruct r|]. by rewrite IH.
Qed.

Lemma view_app b b' s : m_cur b = s +:+ m_cur b' → view b b' = s.
Proof.
  intros H. unfold view. rewrite H, length_append.
  replace (String.length s + String.length (m_cur b') - String.length (m_cur b'))%nat
    with (String.length s) by lia.
  apply substring_append.
Qed.

(** [next_char] eats exactly one character, unless at the end. *)
Lemma next_char_cur b :
  m_cur (next_char b) =
    if decide (current_char b = NUL) then m_cur b else advance (m_cur b).
Proof.
  unfold next_char, is_eof. destruct (decide (current_char b = "010"%char)) as [Hnl|Hnl].
  - unfold current_char in *. simpl. rewrite Hnl.
    rewrite bool_decide_false by done. by rewrite decide_False by done.
  - destruct (decide (current_char b = NUL)) as [He|He].
    + by rewrite bool_decide_true.
    + by rewrite bool_decide_false.
Qed.

Lemma next_char_String b c s :
  m_cur b = String c s → c ≠ NUL → m_cur (next_char b) = s.
Proof.
  intros Hb Hc. rewrite next_char_cur. unfold current_char. rewrite Hb.
  by rewrite decide_False.
Qed.

Lemma next_char_le b :
  (String.length (m_cur (next_char b)) ≤ String.length (m_cur b))%nat.
Proof.
  rewrite next_char_cur. case_decide; [done|]. destruct (m_cur b); simpl; lia.
Qed.

Lemma next_char_lt b :
  current_char b ≠ NUL →
  (String.length (m_cur (next_char b)) < String.length (m_cur b))%nat.
Proof.
  intros Hc. rewrite next_char_cur, decide_False by done.
  unfold current_char in Hc. destruct (m_cur b); simpl; [done|lia].
Qed.

Lemma current_char_String b :
  current_char b ≠ NUL → m_cur b = String (current_char b) (advance (m_cur b)).
Proof. unfold current_char. by destruct (m_cur b). Qed.

Lemma while_next_le cond fuel b :
  (String.length (m_cur (while_next cond fuel b)) ≤ String.length (m_cur b))%nat.
Proof.
  revert b. induction fuel as [|fuel IH]; intros b; simpl; [done|].
  destruct (cond b); [|done]. pose proof (IH (next_char b)).
  pose proof (next_char_le b). lia.
Qed.

Section scanning.
Variables (cond : DataBuffer → bool) (q : ascii → bool).
Hypothesis cond_char : ∀ b, cond b = q (current_char b).
Hypothesis q_NUL : q NUL = false.

Lemma cond_not_NUL b : cond b = true → current_char b ≠ NUL.
Proof. rewrite cond_char. intros Hq He. rewrite He in Hq. congruence. Qed.

(** The loop has eaten characters of the class only. *)
Lemma while_next_split fuel b :
  ∃ s, m_cur b = s +:+ m_cur (while_next cond fuel b) ∧ all_chars q s = true.
Proof.
  revert b. induction fuel as [|fuel IH]; intros b; simpl; [by exists ""|].
  destruct (cond b) eqn:Hc; [|by exists ""].
  destruct (IH (next_char b)) as (s & Hs & Hq).
  pose proof (cond_not_NUL _ Hc) as Hne.
  exists (String (current_char b) s). split.
  - rewrite (current_char_String b Hne) at 1.
    change (String (current_char b) s +:+ ?r) with (String (current_char b) (s +:+ r)).
    f_equal. rewrite <- Hs. by rewrite next_char_cur, decide_False.
  - simpl. by rewrite <- cond_char, Hc.
Qed.

(** With one unit of fuel per character left, the loop stops because its
    condition fails. *)
Lemma while_next_stops fuel b :
  (String.length (m_cur b) < fuel)%nat → cond (while_next cond fuel b) = false.
Proof.
  revert b. induction fuel as [|fuel IH]; intros b Hf; [lia|]. simpl.
  destruct (cond b) eqn:Hc; [|done]. apply IH.
  pose proof (next_char_lt b (cond_not_NUL _ Hc)). lia.
Qed.

(** The loop reads a text of the class up to the first other character. *)
Lemma while_next_app fuel b s rest :
  m_cur b = s +:+ rest → all_chars q s = true → q (first_char rest) = false →
  (String.length s < fuel)%nat →
  m_cur (while_next cond fuel b) = rest.
Proof.
  revert b fuel. induction s as [|c s IH]; intros b fuel Hb Hs Hrest Hf.
  - destruct fuel as [|fuel]; [simpl in Hf; lia|].
    assert (Hcb : cond b = false).
    { rewrite cond_char. unfold current_char. rewrite Hb. exact Hrest. }
    simpl. by rewrite Hcb.
  - destruct fuel as [|fuel]; [simpl in Hf; lia|].
    simpl in Hs. apply andb_true_iff in Hs as [Hc Hs].
    assert (Hcb : cond b = true).
    { rewrite cond_char. unfold current_char. rewrite Hb. exact Hc. }
    simpl. rewrite Hcb. apply IH; try done; [|simpl in Hf; lia].
    apply (next_char_String _ c); [done|]. intros ->. congruence.
Qed.
End scanning.

Lemma is_whitespace_char b :
  is_whitespace b =
    (λ c, bool_decide (c = " "%char) || bool_decide (c = "009"%char)
          || bool_decide (c = "010"%char) || bool_decide (c = "013"%char))
      (current_char b).
Proof. reflexivity. Qed.

Lemma is_ident_body_char b : is_ident_body b = ident_body (current_char b).
Proof. reflexivity. Qed.

End lexer_facts.

Section lexer_progress.
Import Lexer.

Abbreviation left_of b := (String.length (m_cur b)).

Lemma while_next_S cond fuel b :
  while_next cond (S fuel) b =
    if cond b then while_next cond fuel (next_char b) else b.
Proof. reflexivity. Qed.

#[local] Arguments while_next : simpl never.

Lemma skip_whitespace_le b : (left_of (skip_whitespace b) ≤ left_of b)%nat.
Proof. apply while_next_le. Qed.

Lemma skip_comment_lt b :
  current_char b = "#"%char → (left_of (skip_comment b) < left_of b)%nat.
Proof.
  intros Hc. unfold skip_comment, loop_fuel. rewrite while_next_S.
  unfold is_eof at 1. rewrite Hc. simpl.
  match goal with
  | |- (left_of (while_next ?cond ?fuel ?b') < _)%nat =>
      pose proof (while_next_le cond fuel b') as Hle
  end.
  assert (Hlt : (left_of (next_char b) < left_of b)%nat).
  { apply next_char_lt. by rewrite Hc. }
  lia.
Qed.

Lemma keyword_not_EOI s k : al_find s spelling2keyword = Some k → k ≠ EOI.
Proof.
  intros Hf Hk. apply al_find_elem_of in Hf. subst k.
  apply list_elem_of_In in Hf. simpl in Hf. intuition congruence.
Qed.

Lemma tokenize_identifier_progress b :
  current_char b ≠ NUL →
  match tokenize_identifier b with
  | Ok (tok, b') => kind tok ≠ EOI ∧ (left_of b' < left_of b)%nat
  | Err f => f = OutOfRange
  end.
Proof.
  intros Hc. unfold tokenize_identifier.
  set (b1 := while_next is_ident_body (loop_fuel (next_char b)) (next_char b)).
  assert (Hlt : (left_of b1 < left_of b)%nat).
  { pose proof (while_next_le is_ident_body (loop_fuel (next_char b)) (next_char b)).
    pose proof (next_char_lt b Hc). unfold b1. lia. }
  destruct (al_contains _ _); simpl; [|split; [done|exact Hlt]].
  unfold al_at. destruct (al_find (view b b1) spelling2keyword) as [k|] eqn:Hk;
    simpl; [|done].
  split; [by eapply keyword_not_EOI|exact Hlt].
Qed.

Lemma tokenize_integer_progress b :
  current_char b ≠ NUL →
  kind (tokenize_integer b).1 = INTEGER ∧
  (left_of (tokenize_integer b).2 < left_of b)%nat.
Proof.
  intros Hc. split; [done|]. unfold tokenize_integer. simpl.
  pose proof (while_next_le is_decimal_digit (loop_fuel (next_char b)) (next_char b)).
  pose proof (next_char_lt b Hc). lia.
Qed.

Lemma tokenize_constant_progress k digit b :
  current_char b ≠ NUL →
  kind (tokenize_constant k digit b).1 = k ∧
  (left_of (tokenize_constant k digit b).2 < left_of b)%nat.
Proof.
  intros Hc. split; [done|]. unfold tokenize_constant. simpl.
  pose proof (while_next_le digit (loop_fuel (next_char (next_char b)))
                (next_char (next_char b))).
  pose proof (next_char_le (next_char b)).
  pose proof (next_char_lt b Hc). lia.
Qed.

Lemma punctuation_progress k b :
  current_char b ≠ NUL →
  kind (punctuation k b).1 = k ∧ (left_of (punctuation k b).2 < left_of b)%nat.
Proof. intros Hc. split; [done|]. by apply next_char_lt. Qed.

Lemma tokenize_S fuel b :
  tokenize (S fuel) b =
    let b := skip_whitespace b in
    let c := current_char b in
    if decide (c = NUL) then Ok (mkToken EOI "" (current_position b), b)
    else if decide (c = "="%char) then Ok (punctuation EQUAL b)
    else if decide (c = ","%char) then Ok (punctuation COMMA b)
    else if decide (c = ":"%char) then Ok (punctuation COLON b)
    else if decide (c = "["%char) then Ok (punctuation LEFT_BRACKET b)
    else if decide (c = "]"%char) then Ok (punctuation RIGHT_BRACKET b)
    else if decide (c = "#"%char) then tokenize fuel (skip_comment b)
    else if decide (c = "0"%char) then
      let buf := next_char b in
      if decide (current_char buf = "b"%char)
      then Ok (tokenize_binary_constant b)
      else if decide (current_char buf = "d"%char)
      then Ok (tokenize_decimal_constant b)
      else if decide (current_char buf = "x"%char)
      then Ok (tokenize_hexadecimal_constant b)
      else Ok (tokenize_integer b)
    else if between "1" "9" c then Ok (tokenize_integer b)
    else if is_ident_start b then tokenize_identifier b
    else exit (unknown_character c).
Proof. reflexivity. Qed.

Lemma progress_pair (r : Token * DataBuffer) (n : nat) k :
  kind r.1 = k → k ≠ EOI → (left_of r.2 < n)%nat →
  match (Ok r : result (Token * DataBuffer)) with
  | Ok (tok, b') =>
      (kind tok = EOI ∧ current_char b' = NUL ∧ (left_of b' ≤ n)%nat) ∨
      (kind tok ≠ EOI ∧ (left_of b' < n)%nat)
  | Err f => f = OutOfRange ∨ ∃ c, f = Exited (unknown_character c)
  end.
Proof. destruct r as [tok b']. simpl. intros -> Hk Hlt. by right. Qed.

(** X16: [tokenize] terminates: with one unit of fuel per character left
    (and one more) no loop of the lexer runs out of it.  A call either
    returns a token other than EOI and has consumed at least one character,
    or returns EOI with the buffer at its terminating NUL; its only failures
    are the exception of the keyword lookup and the exit on an unknown
    character. *)
Theorem tokenize_terminates fuel b :
  (left_of b < fuel)%nat →
  match tokenize fuel b with
  | Ok (tok, b') =>
      (kind tok = EOI ∧ current_char b' = NUL ∧ (left_of b' ≤ left_of b)%nat) ∨
      (kind tok ≠ EOI ∧ (left_of b' < left_of b)%nat)
  | Err f => f = OutOfRange ∨ ∃ c, f = Exited (unknown_character c)
  end.
Proof.
  revert b. induction fuel as [|fuel IH]; intros b Hf; [lia|].
  rewrite tokenize_S. cbv zeta. pose proof (skip_whitespace_le b) as Hws.
  generalize dependent (skip_whitespace b). intros b1 Hws.
  destruct (decide (current_char b1 = NUL)) as [Hnul|Hnul].
  { left. split; [reflexivity|]. split; [exact Hnul|exact Hws]. }
  assert (Hpunct : ∀ k, k ≠ EOI →
            match (Ok (punctuation k b1) : result (Token * DataBuffer)) with
            | Ok (tok, b') =>
                (kind tok = EOI ∧ current_char b' = NUL ∧
                 (left_of b' ≤ left_of b)%nat) ∨
                (kind tok ≠ EOI ∧ (left_of b' < left_of b)%nat)
            | Err f => f = OutOfRange ∨ ∃ c, f = Exited (unknown_character c)
            end).
  { intros k Hk. destruct (punctuation_progress k b1 Hnul) as [Hkind Hlt].
    apply (progress_pair _ _ k Hkind Hk). lia. }
  assert (Hconst : ∀ k digit, k ≠ EOI →
            match (Ok (tokenize_constant k digit b1)
                     : result (Token * DataBuffer)) with
            | Ok (tok, b') =>
                (kind tok = EOI ∧ current_char b' = NUL ∧
                 (left_of b' ≤ left_of b)%nat) ∨
                (kind tok ≠ EOI ∧ (left_of b' < left_of b)%nat)
            | Err f => f = OutOfRange ∨ ∃ c, f = Exited (unknown_character c)
            end).
  { intros k digit Hk.
    destruct (tokenize_constant_progress k digit b1 Hnul) as [Hkind Hlt].
    apply (progress_pair _ _ k Hkind Hk). lia. }
  assert (Hint :
            match (Ok (tokenize_integer b1) : result (Token * DataBuffer)) with
            | Ok (tok, b') =>
                (kind tok = EOI ∧ current_char b' = NUL ∧
                 (left_of b' ≤ left_of b)%nat) ∨
                (kind tok ≠ EOI ∧ (left_of b' < left_of b)%nat)
            | Err f => f = OutOfRange ∨ ∃ c, f = Exited (unknown_character c)
            end).
  { destruct (tokenize_integer_progress b1 Hnul) as [Hkind Hlt].
    apply (progress_pair _ _ INTEGER Hkind); [discriminate|lia]. }
  destruct (decide (current_char b1 = "="%char));
    [exact (Hpunct EQUAL ltac:(discriminate))|].
  destruct (decide (current_char b1 = ","%char));
    [exact (Hpunct COMMA ltac:(discriminate))|].
  destruct (decide (current_char b1 = ":"%char));
    [exact (Hpunct COLON ltac:(discriminate))|].
  destruct (decide (current_char b1 = "["%char));
    [exact (Hpunct LEFT_BRACKET ltac:(discriminate))|].
  destruct (decide (current_char b1 = "]"%char));
    [exact (Hpunct RIGHT_BRACKET ltac:(discriminate))|].
  destruct (decide (current_char b1 = "#"%char)) as [Hhash|].
  { pose proof (skip_comment_lt b1 Hhash) as Hlt.
    specialize (IH (skip_comment b1) ltac:(lia)).
    destruct (tokenize fuel (skip_comment b1)) as [[tok b']|f]; [|exact IH].
    destruct IH as [(Hk & Hc & Hle)|(Hk & Hle)]; [left|right].
    - split; [exact Hk|]. split; [exact Hc|lia].
    - split; [exact Hk|lia]. }
  destruct (decide (current_char b1 = "0"%char)).
  { destruct (decide (current_char (next_char b1) = "b"%char));
      [exact (Hconst BINARY_CONSTANT is_binary_digit ltac:(discriminate))|].
    destruct (decide (current_char (next_char b1) = "d"%char));
      [exact (Hconst DECIMAL_CONSTANT is_decimal_digit ltac:(discriminate))|].
    destruct (decide (current_char (next_char b1) = "x"%char));
      [exact (Hconst HEXADECIMAL_CONSTANT is_hexadecimal_digit
                ltac:(discriminate))|].
    exact Hint. }
  destruct (between "1" "9" (current_char b1)); [exact Hint|].
  destruct (is_ident_start b1).
  - pose proof (tokenize_identifier_progress b1 Hnul) as Hid.
    destruct (tokenize_identifier b1) as [[tok b']|f]; [|left; exact Hid].
    right. destruct Hid as [Hk Hlt]. split; [exact Hk|lia].
  - right. exists (current_char b1). reflexivity.
Qed.

End lexer_progress.

(** The theorem at work on a comment followed by an equation. *)
Lemma tokenize_terminates_witness :
  match Lexer.tokenize 9 (buffer_of "#c
x = 1") with
  | Ok (tok, b') =>
      (Lexer.kind tok = Lexer.EOI ∧ Lexer.current_char b' = NUL ∧
       (String.length (Lexer.m_cur b') ≤ 8)%nat) ∨
      (Lexer.kind tok ≠ Lexer.EOI ∧ (String.length (Lexer.m_cur b') < 8)%nat)
  | Err f => f = OutOfRange ∨ ∃ c, f = Exited (Lexer.unknown_character c)
  end.
Proof.
  apply (tokenize_terminates 9 (buffer_of "#c
x = 1")).
  simpl. lia.
Defined.

Section lexer_keywords.
Import Lexer.

#[local] Arguments while_next : simpl never.

Lemma letter_codes c :
  is_letter c = true → 65 ≤ char_code c ≤ 90 ∨ 97 ≤ char_code c ≤ 122.
Proof.
  unfold is_letter, between. rewrite orb_true_iff, !bool_decide_eq_true.
  change (char_code "a"%char) with 97. change (char_code "z"%char) with 122.
  change (char_code "A"%char) with 65. change (char_code "Z"%char) with 90.
  tauto.
Qed.

Lemma toupper_letter c : is_upper (toupper c) = true → is_letter c = true.
Proof.
  unfold toupper, is_letter. destruct (between "a" "z" c) eqn:Hlow; [done|].
  unfold is_upper. by intros ->.
Qed.

Lemma str_toupper_letters s :
  all_chars is_upper (str_toupper s) = true → all_chars is_letter s = true.
Proof.
  induction s as [|c s IH]; simpl; [done|].
  rewrite !andb_true_iff. intros [Hc Hs]. split; [by apply toupper_letter|auto].
Qed.

(** Every key of the keyword table is a non-empty text of upper-case
    letters. *)
Lemma keyword_upper u k :
  al_find u spelling2keyword = Some k →
  all_chars is_upper u = true ∧ u ≠ "" ∧ str_toupper u = u.
Proof.
  intros Hf. apply al_find_elem_of, list_elem_of_In in Hf. simpl in Hf.
  repeat (destruct Hf as [Hf|Hf];
          [injection Hf as <- <-; by vm_compute|]).
  done.
Qed.

Lemma all_chars_impl (q q' : ascii → bool) s :
  (∀ c, q c = true → q' c = true) → all_chars q s = true → all_chars q' s = true.
Proof.
  intros Hq. induction s as [|c s IH]; simpl; [done|].
  rewrite !andb_true_iff. intros [Hc Hs]. auto.
Qed.

Lemma letter_ident_body c : is_letter c = true → ident_body c = true.
Proof. unfold ident_body. by intros ->. Qed.

Lemma skip_whitespace_letter b :
  is_letter (current_char b) = true → skip_whitespace b = b.
Proof.
  intros Hl. unfold skip_whitespace, loop_fuel.
  change (while_next is_whitespace (S (String.length (m_cur b))) b)
    with (if is_whitespace b
          then while_next is_whitespace (String.length (m_cur b)) (next_char b)
          else b).
  assert (Hws : is_whitespace b = false); [|by rewrite Hws].
  unfold is_whitespace. apply letter_codes in Hl.
  repeat match goal with
         | |- context [bool_decide (current_char b = ?x)] =>
             rewrite (bool_decide_false (current_char b = x))
               by (intros He; rewrite He in Hl; vm_compute in Hl;
                   destruct Hl as [[? ?]|[? ?]]; done)
         end.
  done.
Qed.

(** X17: the keyword lookup of the lexer is case-sensitive in a way that
    throws: a word whose upper-case form is a keyword is tokenized as that
    keyword only when it is written in upper case; written with any
    lower-case letter, the lookup of the word as written in the keyword
    table throws [std::out_of_range]. *)
Theorem keyword_needs_upper_case fuel s rest k line_ col :
  al_find (str_toupper s) spelling2keyword = Some k →
  ident_body (first_char rest) = false →
  (s ≠ str_toupper s →
     tokenize (S fuel) (mkDataBuffer (s +:+ rest) line_ col) = Err OutOfRange) ∧
  (s = str_toupper s →
     ∃ tok b', tokenize (S fuel) (mkDataBuffer (s +:+ rest) line_ col)
                 = Ok (tok, b') ∧
               kind tok = k ∧ spelling tok = s ∧ m_cur b' = rest).
Proof.
  intros Hk Hrest.
  destruct (keyword_upper _ _ Hk) as (Hupper & Hne & _).
  pose proof (str_toupper_letters _ Hupper) as Hletters.
  destruct s as [|c s]; [done|]. simpl in Hletters.
  apply andb_true_iff in Hletters as [Hc Hs].
  set (b0 := mkDataBuffer (String c s +:+ rest) line_ col).
  assert (Hcur : current_char b0 = c) by reflexivity.
  assert (Hnul : c ≠ NUL).
  { intros ->. vm_compute in Hc. discriminate. }
  rewrite tokenize_S. cbv zeta.
  rewrite (skip_whitespace_letter b0) by (by rewrite Hcur).
  rewrite Hcur.
  pose proof (letter_codes _ Hc) as Hcodes.
  repeat match goal with
         | |- context [decide (c = ?x)] =>
             rewrite (decide_False (P := c = x))
               by (intros He; rewrite He in Hcodes; vm_compute in Hcodes;
                   destruct Hcodes as [[? ?]|[? ?]]; done)
         end.
  assert (H19 : between "1" "9" c = false).
  { unfold between. apply bool_decide_eq_false.
    change (char_code "1"%char) with 49. change (char_code "9"%char) with 57.
    lia. }
  rewrite H19.
  assert (Hstart : is_ident_start b0 = true).
  { unfold is_ident_start. rewrite Hcur. unfold is_letter in Hc. by rewrite Hc. }
  rewrite Hstart. unfold tokenize_identifier. cbv zeta.
  set (b1 := next_char b0).
  assert (Hb1 : m_cur b1 = s +:+ rest) by (by apply (next_char_String b0 c)).
  set (b2 := while_next is_ident_body (loop_fuel b1) b1).
  assert (Hb2 : m_cur b2 = rest).
  { apply (while_next_app is_ident_body ident_body is_ident_body_char)
      with (s := s); try done.
    - eapply all_chars_impl; [apply letter_ident_body|done].
    - unfold loop_fuel. rewrite Hb1, length_append. lia. }
  assert (Hview : view b0 b2 = String c s).
  { apply view_app. by rewrite Hb2. }
  rewrite Hview. unfold al_contains. rewrite Hk. unfold al_at.
  split.
  - intros Hcase.
    destruct (al_find (String c s) spelling2keyword) as [k'|] eqn:Hk'; [|done].
    apply keyword_upper in Hk' as (_ & _ & Hfix). congruence.
  - intros Hcase. rewrite <- Hcase in Hk. rewrite Hk. simpl.
    eexists _, _. split; [reflexivity|]. done.
Qed.

(** The theorem at work: [input] throws, [INPUT] is the keyword. *)
Lemma keyword_needs_upper_case_witness :
  tokenize 1 (buffer_of "input a") = Err OutOfRange ∧
  ∃ tok b', tokenize 1 (buffer_of "INPUT a") = Ok (tok, b') ∧
            kind tok = KEY_INPUT ∧ spelling tok = "INPUT" ∧ m_cur b' = " a".
Proof.
  split.
  - apply (keyword_needs_upper_case 0 "input" " a" KEY_INPUT 1 1);
      [reflexivity|reflexivity|discriminate].
  - apply (keyword_needs_upper_case 0 "INPUT" " a" KEY_INPUT 1 1);
      reflexivity.
Defined.

End lexer_keywords.

Section lexer_numbers.
Import Lexer.

#[local] Arguments while_next : simpl never.

Lemma all_chars_String q c s :
  all_chars q (String c s) = q c && all_chars q s.
Proof. reflexivity. Qed.

Lemma all_chars_suffix q pre rest :
  all_chars q (pre +:+ rest) = true → all_chars q rest = true.
Proof.
  induction pre as [|c pre IH]; simpl; [done|].
  rewrite andb_true_iff. intros [_ H]. auto.
Qed.

Lemma from_chars_suffix s base acc count v n rest :
  from_chars s base acc count = (v, n, rest) → ∃ pre, s = pre +:+ rest.
Proof.
  revert acc count. induction s as [|c s IH]; intros acc count Hf.
  - injection Hf as _ _ <-. by exists "".
  - simpl in Hf. destruct (digit_of c) as [d|].
    + destruct (decide (d < base)).
      * destruct (IH _ _ Hf) as [pre ->]. by exists (String c pre).
      * injection Hf as _ _ <-. by exists "".
    + injection Hf as _ _ <-. by exists "".
Qed.

Lemma keyword_not_numeric s k :
  al_find s spelling2keyword = Some k → numeric k = false.
Proof.
  intros Hf. apply al_find_elem_of, list_elem_of_In in Hf. simpl in Hf.
  repeat (destruct Hf as [Hf|Hf]; [by injection Hf as _ <-|]). done.
Qed.

Lemma digits_not_NUL (cond : DataBuffer → bool) (q : ascii → bool) b :
  (∀ b, cond b = q (current_char b)) → q NUL = false →
  ∃ s, m_cur b = s +:+ m_cur (while_next cond (loop_fuel b) b) ∧
       all_chars not_NUL s = true.
Proof.
  intros Hcond Hq.
  destruct (while_next_split cond q Hcond Hq (loop_fuel b) b) as (s & Hs & Hall).
  exists s. split; [done|]. eapply all_chars_impl; [|done].
  intros c Hc. unfold not_NUL. apply negb_true_iff, bool_decide_eq_false.
  intros ->. congruence.
Qed.

Lemma tokenize_integer_spelling b :
  current_char b ≠ NUL →
  all_chars not_NUL (spelling (tokenize_integer b).1) = true.
Proof.
  intros Hc. unfold tokenize_integer. cbv zeta. cbn [fst spelling].
  destruct (digits_not_NUL is_decimal_digit (between "0" "9") (next_char b))
    as (s & Hs & Hall); [done..|].
  rewrite (view_app _ _ (String (current_char b) s)).
  - rewrite all_chars_String, Hall. unfold not_NUL.
    by rewrite bool_decide_false.
  - rewrite (current_char_String b Hc) at 1.
    change (String ?c s +:+ ?r) with (String c (s +:+ r)). f_equal.
    rewrite <- Hs. by rewrite next_char_cur, decide_False.
Qed.

Lemma tokenize_constant_spelling k cond q b :
  (∀ b, cond b = q (current_char b)) → q NUL = false →
  all_chars not_NUL (spelling (tokenize_constant k cond b).1) = true.
Proof.
  intros Hcond Hq. unfold tokenize_constant. cbv zeta. cbn [fst spelling].
  destruct (digits_not_NUL cond q (next_char (next_char b)) Hcond Hq)
    as (s & Hs & Hall).
  by rewrite (view_app _ _ s).
Qed.

Lemma numeric_pair (r : Token * DataBuffer) tok b' :
  all_chars not_NUL (spelling r.1) = true →
  (Ok r : result (Token * DataBuffer)) = Ok (tok, b') →
  numeric (kind tok) = true →
  all_chars not_NUL (spelling tok) = true.
Proof. intros H [= ->] _. exact H. Qed.

Lemma other_pair (r : Token * DataBuffer) tok b' :
  numeric (kind r.1) = false →
  (Ok r : result (Token * DataBuffer)) = Ok (tok, b') →
  numeric (kind tok) = true →
  all_chars not_NUL (spelling tok) = true.
Proof. intros H [= ->]. simpl in H. congruence. Qed.

(** The spelling of a numeric token holds no NUL character. *)
Lemma tokenize_numeric_spelling fuel b tok b' :
  tokenize fuel b = Ok (tok, b') → numeric (kind tok) = true →
  all_chars not_NUL (spelling tok) = true.
Proof.
  revert b. induction fuel as [|fuel IH]; intros b; [done|].
  rewrite tokenize_S. cbv zeta.
  generalize (skip_whitespace b). intros b1.
  destruct (decide (current_char b1 = NUL)) as [Hnul|Hnul].
  { intros [= <- <-]. done. }
  pose proof (tokenize_integer_spelling b1 Hnul) as Hint.
  destruct (decide (current_char b1 = "="%char));
    [by apply (other_pair (punctuation EQUAL b1))|].
  destruct (decide (current_char b1 = ","%char));
    [by apply (other_pair (punctuation COMMA b1))|].
  destruct (decide (current_char b1 = ":"%char));
    [by apply (other_pair (punctuation COLON b1))|].
  destruct (decide (current_char b1 = "["%char));
    [by apply (other_pair (punctuation LEFT_BRACKET b1))|].
  destruct (decide (current_char b1 = "]"%char));
    [by apply (other_pair (punctuation RIGHT_BRACKET b1))|].
  destruct (decide (current_char b1 = "#"%char)); [apply IH|].
  destruct (decide (current_char b1 = "0"%char)).
  { destruct (decide (current_char (next_char b1) = "b"%char)).
    { apply (numeric_pair (tokenize_constant BINARY_CONSTANT is_binary_digit b1)).
      by apply (tokenize_constant_spelling BINARY_CONSTANT is_binary_digit
                  (λ c, bool_decide (c = "0"%char) || bool_decide (c = "1"%char))). }
    destruct (decide (current_char (next_char b1) = "d"%char)).
    { apply (numeric_pair (tokenize_constant DECIMAL_CONSTANT is_decimal_digit b1)).
      by apply (tokenize_constant_spelling DECIMAL_CONSTANT is_decimal_digit
                  (between "0" "9")). }
    destruct (decide (current_char (next_char b1) = "x"%char)).
    { apply (numeric_pair
               (tokenize_constant HEXADECIMAL_CONSTANT is_hexadecimal_digit b1)).
      by apply (tokenize_constant_spelling HEXADECIMAL_CONSTANT
                  is_hexadecimal_digit
                  (λ c, between "0" "9" c || between "a" "f" c
                        || between "A" "F" c)). }
    by apply (numeric_pair (tokenize_integer b1)). }
  destruct (between "1" "9" (current_char b1));
    [by apply (numeric_pair (tokenize_integer b1))|].
  destruct (is_ident_start b1); [|done].
  unfold tokenize_identifier. cbv zeta.
  destruct (al_contains _ _).
  - unfold al_at. destruct (al_find _ spelling2keyword) as [k|] eqn:Hk; [|done].
    simpl. intros [= <- <-]. simpl. apply keyword_not_numeric in Hk. congruence.
  - simpl. intros [= <- <-]. done.
Qed.

(** X18: [parse_int] accepts the spelling of a numeric token only when the
    character after the token is the NUL that ends the buffer: it reads the
    character at the pointer [std::from_chars] returns, which is the one
    following the token when all of the spelling was converted.  An
    integer or a prefixed constant followed by anything, even a blank, is
    rejected. *)
Theorem numeric_token_parses_only_at_end fuel b tok b' ptok max base v :
  tokenize fuel b = Ok (tok, b') → numeric (kind tok) = true →
  parser_token tok b' = Some ptok →
  parse_int max ptok base = Ok v →
  current_char b' = NUL.
Proof.
  intros Ht Hnum Hptok Hint.
  pose proof (tokenize_numeric_spelling _ _ _ _ Ht Hnum) as Hall.
  unfold parser_token in Hptok.
  destruct (parser_kind (kind tok)) as [k|]; [|done].
  injection Hptok as <-. unfold parse_int, exit in Hint. simpl in Hint.
  destruct (from_chars (spelling tok) base 0 0) as [[v' count] rest] eqn:Hf.
  apply from_chars_suffix in Hf as [pre Hpre].
  rewrite Hpre in Hall. apply all_chars_suffix in Hall.
  destruct (decide (count = 0%nat)); [done|].
  destruct (decide (max < v')); [done|].
  destruct rest as [|c rest].
  - destruct (decide (current_char b' ≠ NUL)) as [|Hend]; [done|].
    by apply dec_stable.
  - simpl in Hall. apply andb_true_iff in Hall as [Hc _].
    unfold not_NUL in Hc. apply negb_true_iff, bool_decide_eq_false in Hc.
    by rewrite decide_True in Hint.
Qed.

End lexer_numbers.

(** The theorem at work: [12] at the end of the text is converted; [4]
    followed by a comma is not. *)
Lemma numeric_token_parses_only_at_end_witness :
  (parse_int bus_size_max (mkToken INTEGER "12" NUL) 10 = Ok 12 ∧
   Lexer.current_char (Lexer.mkDataBuffer "" 1 3) = NUL) ∧
  (Lexer.current_char (Lexer.mkDataBuffer ", b" 1 2) = NUL ∨
   parse_int bus_size_max (mkToken INTEGER "4" ","%char) 10
     = Err (Exited (parse_error
         "Error parsing value '{}' in base {}. Successfully parsed the value '{}' but unable to parse this part : '{}'"
         "4"))).
Proof.
  split.
  - split; [reflexivity|].
    apply (numeric_token_parses_only_at_end 1 (buffer_of "12")
             (Lexer.mkToken Lexer.INTEGER "12" (Lexer.mkPosition 1 1))
             (Lexer.mkDataBuffer "" 1 3)
             (mkToken INTEGER "12" NUL) bus_size_max 10 12);
      reflexivity.
  - destruct (parse_int bus_size_max (mkToken INTEGER "4" ","%char) 10)
      as [v|f] eqn:Hparse.
    + left.
      apply (numeric_token_parses_only_at_end 1 (buffer_of "4, b")
               (Lexer.mkToken Lexer.INTEGER "4" (Lexer.mkPosition 1 1))
               (Lexer.mkDataBuffer ", b" 1 2)
               (mkToken INTEGER "4" ","%char) bus_size_max 10 v);
        [reflexivity..|exact Hparse].
    + right. vm_compute in Hparse. by injection Hparse as <-.
Defined.

(** * Properties of the program builder *)

Section builder_facts.
Import Builder.

Lemma check_reg_spec p reg :
  check_reg p reg = true ↔ 0 ≤ reg < Z.of_nat (length (registers p)).
Proof. unfold check_reg. apply bool_decide_eq_true. Qed.

Lemma get_register_bus_size_Some p reg :
  check_reg p reg = true → is_Some (get_register_bus_size p reg).
Proof.
  intros Hc. unfold get_register_bus_size. rewrite Hc.
  apply check_reg_spec in Hc.
  destruct (lookup_lt_is_Some_2 (registers p) (Z.to_nat reg)) as [info Hinfo];
    [lia|].
  rewrite Hinfo. by eexists.
Qed.

(** Appending registers keeps the valid indices valid and their widths. *)
Lemma registers_grow p p' more reg :
  registers p' = registers p ++ more → check_reg p reg = true →
  check_reg p' reg = true ∧
  get_register_bus_size p' reg = get_register_bus_size p reg.
Proof.
  intros Hregs Hc. pose proof Hc as Hlt. apply check_reg_spec in Hlt.
  assert (Hc' : check_reg p' reg = true).
  { apply check_reg_spec. rewrite Hregs, length_app. lia. }
  split; [done|]. unfold get_register_bus_size. rewrite Hc, Hc', Hregs.
  by rewrite lookup_app_l by lia.
Qed.

Lemma well_formed_empty : well_formed empty.
Proof. split; intros *; simpl; by rewrite ?lookup_nil. Qed.

(** Pushing an instruction that names valid registers and no memory. *)
Lemma well_formed_push_back p inst :
  well_formed p →
  (∀ reg, reg ∈ operands inst → check_reg p reg = true) →
  memory_block_of inst = None →
  (∀ output lhs rhs offset, inst = ConcatInstruction output lhs rhs offset →
     get_register_bus_size p lhs = Some offset) →
  well_formed (push_back inst p).
Proof.
  intros [Hops Hcat Hblock Hparent] Hregs Hmem Hoffset.
  split; simpl.
  - intros i inst' reg [Hi|[_ Hi]]%lookup_app_Some Hreg.
    + by apply (Hops i inst').
    + apply list_lookup_singleton_Some in Hi as [_ ->]. by apply Hregs.
  - intros i output lhs rhs offset [Hi|[_ Hi]]%lookup_app_Some.
    + by apply (Hcat i output lhs rhs).
    + apply list_lookup_singleton_Some in Hi as [_ ->]. by eapply Hoffset.
  - intros i inst' m [Hi|[_ Hi]]%lookup_app_Some Hm.
    + by apply (Hblock i inst').
    + apply list_lookup_singleton_Some in Hi as [_ ->]. congruence.
  - intros m info Hinfo. destruct (Hparent m info Hinfo) as (inst' & Hi & Hm).
    exists inst'. split; [|done]. by apply lookup_app_l_Some.
Qed.

(** Pushing a ROM or RAM instruction together with its memory. *)
Lemma well_formed_add_memory p inst addr_size word_size :
  well_formed p →
  (∀ reg, reg ∈ operands inst → check_reg p reg = true) →
  memory_block_of inst = Some (length (memories p)) →
  (∀ output lhs rhs offset, inst ≠ ConcatInstruction output lhs rhs offset) →
  well_formed (add_memory inst addr_size word_size p).
Proof.
  intros [Hops Hcat Hblock Hparent] Hregs Hmem Hnot.
  split; simpl.
  - intros i inst' reg [Hi|[_ Hi]]%lookup_app_Some Hreg.
    + by apply (Hops i inst').
    + apply list_lookup_singleton_Some in Hi as [_ ->]. by apply Hregs.
  - intros i output lhs rhs offset [Hi|[_ Hi]]%lookup_app_Some.
    + by apply (Hcat i output lhs rhs).
    + apply list_lookup_singleton_Some in Hi as [_ ->]. by destruct (Hnot output lhs rhs offset).
  - intros i inst' m [Hi|[Hlen Hi]]%lookup_app_Some Hm.
    + destruct (Hblock i inst' m Hi Hm) as (info & Hinfo & Hp).
      exists info. split; [|done]. by apply lookup_app_l_Some.
    + apply list_lookup_singleton_Some in Hi as [Hi ->].
      rewrite Hmem in Hm. injection Hm as <-.
      eexists. split.
      * rewrite lookup_app_r by lia. rewrite Nat.sub_diag. reflexivity.
      * simpl. lia.
  - intros m info [Hinfo|[Hlen Hinfo]]%lookup_app_Some.
    + destruct (Hparent m info Hinfo) as (inst' & Hi & Hm).
      exists inst'. split; [|done]. by apply lookup_app_l_Some.
    + apply list_lookup_singleton_Some in Hinfo as [Hm <-]. simpl.
      exists inst. split.
      * rewrite lookup_app_r by lia. by rewrite Nat.sub_diag.
      * rewrite Hmem. f_equal. lia.
Qed.

Lemma well_formed_add_register bus_size name flags p reg p' :
  well_formed p → add_register bus_size name flags p = Some (reg, p') →
  well_formed p'.
Proof.
  intros [Hops Hcat Hblock Hparent]. unfold add_register.
  case_bool_decide; [|done]. intros [= <- <-].
  split; simpl; try done.
  - intros i inst r Hi Hr.
    by apply (registers_grow p _ [mkRegisterInfo name bus_size flags]),
             (Hops i inst).
  - intros i output lhs rhs offset Hi.
    assert (Hl : check_reg p lhs = true).
    { apply (Hops i _ lhs Hi). simpl. right. by left. }
    destruct (registers_grow p
      (mkProgram (registers p ++ [mkRegisterInfo name bus_size flags])
         (instructions p) (memories p))
      [mkRegisterInfo name bus_size flags] lhs eq_refl Hl) as [_ ->].
    by apply (Hcat i output lhs rhs).
Qed.

Ltac checked H :=
  repeat match type of H with
         | (if ?c then _ else _) = Some _ =>
             let Hc := fresh "Hc" in
             destruct c eqn:Hc; [|discriminate H];
             rewrite ?andb_true_iff in Hc
         end.

Ltac operand_ok :=
  let reg := fresh "reg" in
  let Hreg := fresh "Hreg" in
  intros reg Hreg; simpl in Hreg;
  repeat (apply elem_of_cons in Hreg as [->|Hreg]; [tauto|]);
  by apply not_elem_of_nil in Hreg.

Lemma well_formed_call c p p' :
  well_formed p → call c p = Some p' → well_formed p'.
Proof.
  intros Hwf Hcall. destruct c; simpl in Hcall.
  - destruct (add_register _ _ _ p) as [[reg q]|] eqn:Hadd; [|done].
    injection Hcall as <-. by eapply well_formed_add_register.
  - unfold add_const in Hcall. checked Hcall. injection Hcall as <-.
    apply well_formed_push_back; [done|operand_ok|done|done].
  - unfold add_load in Hcall. checked Hcall. injection Hcall as <-.
    apply well_formed_push_back; [done|operand_ok|done|done].
  - unfold add_not in Hcall. checked Hcall. injection Hcall as <-.
    apply well_formed_push_back; [done|operand_ok|done|done].
  - unfold add_and in Hcall. checked Hcall. injection Hcall as <-.
    apply well_formed_push_back; [done|operand_ok|done|done].
  - unfold add_nand in Hcall. checked Hcall. injection Hcall as <-.
    apply well_formed_push_back; [done|operand_ok|done|done].
  - unfold add_or in Hcall. checked Hcall. injection Hcall as <-.
    apply well_formed_push_back; [done|operand_ok|done|done].
  - unfold add_nor in Hcall. checked Hcall. injection Hcall as <-.
    apply well_formed_push_back; [done|operand_ok|done|done].
  - unfold add_xor in Hcall. checked Hcall. injection Hcall as <-.
    apply well_formed_push_back; [done|operand_ok|done|done].
  - unfold add_xnor in Hcall. checked Hcall. injection Hcall as <-.
    apply well_formed_push_back; [done|operand_ok|done|done].
  - unfold add_concat in Hcall. checked Hcall.
    destruct (registers p !! Z.to_nat lhs) as [info|] eqn:Hinfo; [|done].
    simpl in Hcall. injection Hcall as <-.
    apply well_formed_push_back; [done|operand_ok|done|].
    intros o l r off [= <- <- <- <-].
    unfold get_register_bus_size.
    replace (check_reg p lhs) with true by (symmetry; tauto).
    by rewrite Hinfo.
  - unfold add_reg in Hcall. checked Hcall. injection Hcall as <-.
    apply well_formed_push_back; [done|operand_ok|done|done].
  - unfold add_mux in Hcall. checked Hcall. injection Hcall as <-.
    apply well_formed_push_back; [done|operand_ok|done|done].
  - unfold add_select in Hcall. checked Hcall. injection Hcall as <-.
    apply well_formed_push_back; [done|operand_ok|done|done].
  - unfold add_slice in Hcall. checked Hcall. injection Hcall as <-.
    apply well_formed_push_back; [done|operand_ok|done|done].
  - unfold add_rom in Hcall. checked Hcall. injection Hcall as <-.
    apply well_formed_add_memory; [done|operand_ok|done|done].
  - unfold add_ram in Hcall. checked Hcall. injection Hcall as <-.
    apply well_formed_add_memory; [done|operand_ok|done|done].
Qed.

(** X19: a program made by calls of the builder has no dangling reference:
    every instruction names registers that exist, a CONCAT records the
    width of its left operand, every ROM or RAM instruction names the entry
    of [memories] whose parent it is, and every entry of [memories] has
    such a parent. *)
Theorem builder_keeps_references_valid calls p :
  build calls empty = Some p → well_formed p.
Proof.
  assert (Hgen : ∀ q, well_formed q → build calls q = Some p → well_formed p).
  { induction calls as [|c calls IH]; intros q Hq Hb.
    - by injection Hb as <-.
    - simpl in Hb. destruct (call c q) as [q'|] eqn:Hc; [|done].
      simpl in Hb. apply (IH q'); [|done]. by eapply well_formed_call. }
  apply Hgen, well_formed_empty.
Qed.

(** X20: [add_register] returns an index that was not valid before; the new
    register has the width given, and every register that was valid keeps
    its index and its width. *)
Theorem add_register_round_trip bus_size name flags p reg p' :
  add_register bus_size name flags p = Some (reg, p') →
  check_reg p reg = false ∧
  get_register_bus_size p' reg = Some bus_size ∧
  ∀ r, check_reg p r = true →
       check_reg p' r = true ∧
       get_register_bus_size p' r = get_register_bus_size p r.
Proof.
  unfold add_register. case_bool_decide as Hmax; [|done]. intros [= <- <-].
  split; [|split].
  - apply bool_decide_eq_false. lia.
  - unfold get_register_bus_size, check_reg. simpl.
    rewrite bool_decide_true by (rewrite length_app; simpl; lia).
    rewrite Nat2Z.id, lookup_app_r by lia. by rewrite Nat.sub_diag.
  - intros r Hr.
    by apply (registers_grow p _ [mkRegisterInfo name bus_size flags]).
Qed.

Lemma flagged_from_spec flag regs i j :
  j ∈ flagged_from flag i regs ↔
  ∃ info, i ≤ j ∧ regs !! Z.to_nat (j - i) = Some info ∧ flagged flag info = true.
Proof.
  revert i. induction regs as [|info regs IH]; intros i; simpl.
  - split; [intros H; by apply not_elem_of_nil in H|].
    intros (info & _ & H & _). by rewrite lookup_nil in H.
  - assert (Hrest : j ∈ flagged_from flag (i + 1) regs ↔
      ∃ info', i + 1 ≤ j ∧ regs !! Z.to_nat (j - (i + 1)) = Some info' ∧
               flagged flag info' = true) by apply IH.
    assert (Hshift : ∀ info', i + 1 ≤ j →
      (info :: regs) !! Z.to_nat (j - i) = Some info' ↔
      regs !! Z.to_nat (j - (i + 1)) = Some info').
    { intros info' Hle.
      replace (Z.to_nat (j - i)) with (S (Z.to_nat (j - (i + 1)))) by lia.
      done. }
    destruct (flagged flag info) eqn:Hflag.
    + rewrite elem_of_cons, Hrest. split.
      * intros [->|(info' & Hle & Hl & Hf)].
        -- exists info. rewrite Z.sub_diag. repeat split; [lia|done..].
        -- exists info'. split; [lia|]. split; [by apply Hshift|done].
      * intros (info' & Hle & Hl & Hf).
        destruct (decide (j = i)) as [->|Hne]; [by left|right].
        exists info'. split; [lia|]. split; [apply Hshift; [lia|done]|done].
    + rewrite Hrest. split.
      * intros (info' & Hle & Hl & Hf).
        exists info'. split; [lia|]. split; [by apply Hshift|done].
      * intros (info' & Hle & Hl & Hf).
        destruct (decide (j = i)) as [->|Hne].
        { rewrite Z.sub_diag in Hl. simpl in Hl. congruence. }
        exists info'. split; [lia|]. split; [apply Hshift; [lia|done]|done].
Qed.

Lemma ascending_cons x l :
  Forall (λ j, x < j) l → ascending l → ascending (x :: l).
Proof.
  intros Hx Hl i j a b Hij Ha Hb.
  destruct j as [|j]; [lia|]. simpl in Hb.
  destruct i as [|i]; simpl in Ha.
  - injection Ha as <-. rewrite Forall_forall in Hx.
    apply Hx. by eapply list_elem_of_lookup_2.
  - apply (Hl i j a b); [lia|done..].
Qed.

Lemma flagged_from_sorted flag regs i :
  ascending (flagged_from flag i regs) ∧
  Forall (λ j, i ≤ j) (flagged_from flag i regs).
Proof.
  revert i. induction regs as [|info regs IH]; intros i; simpl.
  - split; [|constructor]. intros i' j a b _ Ha. by rewrite lookup_nil in Ha.
  - destruct (IH (i + 1)) as [Hs Hf].
    assert (Hf' : Forall (λ j, i < j) (flagged_from flag (i + 1) regs)).
    { eapply Forall_impl; [exact Hf|]. intros j Hj; simpl in *. lia. }
    destruct (flagged flag info).
    + split; [by apply ascending_cons|].
      constructor; [lia|]. eapply Forall_impl; [exact Hf'|].
      intros j Hj; simpl in *. lia.
    + split; [done|]. eapply Forall_impl; [exact Hf'|].
      intros j Hj; simpl in *. lia.
Qed.

Lemma flagged_from_nil flag regs i :
  existsb (flagged flag) regs = true ↔ flagged_from flag i regs ≠ [].
Proof.
  revert i. induction regs as [|info regs IH]; intros i; simpl; [done|].
  destruct (flagged flag info); simpl; [done|apply IH].
Qed.

(** X21: [get_inputs] and [get_outputs] list, in increasing order, exactly
    the indices of the registers whose flags hold the input or the output
    bit, and [has_inputs] and [has_outputs] tell whether these lists are
    non-empty. *)
Theorem inputs_and_outputs_are_the_flagged_registers RIF_INPUT RIF_OUTPUT p :
  (∀ j, j ∈ get_inputs RIF_INPUT p ↔
        ∃ info, 0 ≤ j ∧ registers p !! Z.to_nat j = Some info ∧
                Z.land (flags info) RIF_INPUT ≠ 0) ∧
  (∀ j, j ∈ get_outputs RIF_OUTPUT p ↔
        ∃ info, 0 ≤ j ∧ registers p !! Z.to_nat j = Some info ∧
                Z.land (flags info) RIF_OUTPUT ≠ 0) ∧
  ascending (get_inputs RIF_INPUT p) ∧
  ascending (get_outputs RIF_OUTPUT p) ∧
  (has_inputs RIF_INPUT p = true ↔ get_inputs RIF_INPUT p ≠ []) ∧
  (has_outputs RIF_OUTPUT p = true ↔ get_outputs RIF_OUTPUT p ≠ []).
Proof.
  unfold get_inputs, get_outputs, has_inputs, has_outputs.
  assert (Hspec : ∀ flag j, j ∈ flagged_from flag 0 (registers p) ↔
            ∃ info, 0 ≤ j ∧ registers p !! Z.to_nat j = Some info ∧
                    Z.land (flags info) flag ≠ 0).
  { intros flag j. rewrite flagged_from_spec. rewrite Z.sub_0_r.
    unfold flagged. by setoid_rewrite bool_decide_eq_true. }
  split; [apply Hspec|]. split; [apply Hspec|].
  split; [apply flagged_from_sorted|]. split; [apply flagged_from_sorted|].
  split; apply flagged_from_nil.
Qed.

End builder_facts.

(** The theorems at work on two registers, their concatenation and a ROM. *)
Lemma builder_keeps_references_valid_witness :
  ∃ p, Builder.build Builder.scenario Builder.empty = Some p ∧
       Builder.well_formed p.
Proof.
  eexists. split; [vm_compute; reflexivity|].
  apply (builder_keeps_references_valid Builder.scenario).
  vm_compute. reflexivity.
Defined.

Lemma add_register_round_trip_witness :
  Builder.check_reg Builder.empty 0 = false ∧
  Builder.get_register_bus_size
    (Builder.mkProgram [Builder.mkRegisterInfo "a" 2 0] [] []) 0 = Some 2 ∧
  ∀ r, Builder.check_reg Builder.empty r = true →
       Builder.check_reg
         (Builder.mkProgram [Builder.mkRegisterInfo "a" 2 0] [] []) r = true ∧
       Builder.get_register_bus_size
         (Builder.mkProgram [Builder.mkRegisterInfo "a" 2 0] [] []) r
       = Builder.get_register_bus_size Builder.empty r.
Proof.
  apply (add_register_round_trip 2 "a" 0 Builder.empty 0
           (Builder.mkProgram [Builder.mkRegisterInfo "a" 2 0] [] [])).
  reflexivity.
Defined.

(** * Breakpoints *)

(** X22: deactivating a breakpoint that was just activated restores the
    bytecode word for word, whatever the breakpoint held before; but
    activating it twice in a row saves the BREAK opcode itself, so that the
    word of the program at the offset is lost: deactivation then leaves
    BREAK in the bytecode. *)
Theorem breakpoint_round_trip BREAK bp words bp1 words1 :
  Debugger.activate BREAK bp words = Ok (bp1, words1) →
  (∃ bp2, Debugger.deactivate bp1 words1 = Ok (bp2, words) ∧
          Debugger.is_active bp2 = false ∧ Debugger.is_active bp1 = true) ∧
  (∃ bp2 bp3, Debugger.activate BREAK bp1 words1 = Ok (bp2, words1) ∧
              Debugger.deactivate bp2 words1 = Ok (bp3, words1) ∧
              words1 !! Debugger.offset bp = Some BREAK).
Proof.
  unfold Debugger.activate. intros Ha.
  apply bind_Ok in Ha as (saved & Hsaved & Ha). injection Ha as <- <-.
  unfold of_option in Hsaved.
  destruct (words !! Debugger.offset bp) as [w|] eqn:Hw; [|discriminate].
  injection Hsaved as <-. pose proof (lookup_lt_Some _ _ _ Hw) as Hlt.
  assert (Hbreak : <[Debugger.offset bp := BREAK]> words !! Debugger.offset bp
                   = Some BREAK) by (by apply list_lookup_insert_eq).
  split.
  - exists (Debugger.mkBreakPoint (Debugger.offset bp) w
              (Debugger.oneshot bp) false).
    unfold Debugger.deactivate. simpl.
    rewrite decide_True by (by rewrite length_insert).
    rewrite list_insert_insert_eq, list_insert_id by done. done.
  - exists (Debugger.mkBreakPoint (Debugger.offset bp) BREAK
              (Debugger.oneshot bp) true),
           (Debugger.mkBreakPoint (Debugger.offset bp) BREAK
              (Debugger.oneshot bp) false).
    unfold Debugger.deactivate. simpl. rewrite Hbreak. simpl.
    rewrite decide_True by (by rewrite length_insert).
    rewrite !list_insert_insert_eq. done.
Qed.

(** The theorem at work on a bytecode of three words. *)
Lemma breakpoint_round_trip_witness :
  (∃ bp2, Debugger.deactivate (Debugger.mkBreakPoint 1 11 false true) [10; 99; 12]
            = Ok (bp2, [10; 11; 12]) ∧
          Debugger.is_active bp2 = false ∧
          Debugger.is_active (Debugger.mkBreakPoint 1 11 false true) = true) ∧
  (∃ bp2 bp3,
     Debugger.activate 99 (Debugger.mkBreakPoint 1 11 false true) [10; 99; 12]
       = Ok (bp2, [10; 99; 12]) ∧
     Debugger.deactivate bp2 [10; 99; 12] = Ok (bp3, [10; 99; 12]) ∧
     [10; 99; 12] !! Debugger.offset (Debugger.mkBreakPoint 1 0 false false)
       = Some 99).
Proof.
  apply (breakpoint_round_trip 99 (Debugger.mkBreakPoint 1 0 false false)
           [10; 11; 12]).
  reflexivity.
Defined.
